(** * Sonic Shuffle: the section automaton, the fade lock and piece switching

    A shallow embedding of the JavaScript sources
    - [js/SonicUtils.js]   (numeric and random helpers),
    - [js/Music.Mixins.js] (perceptual volume),
    - [js/SonicShuffle.js] (the Shuffle object),
    - [js/Music.js]        (switching between pieces),
    followed by the properties established about them.

    Conventions of the embedding.
    - JavaScript numbers are exact rationals ([Q]): an operation on them
      stands for the operation on doubles.  The numbers of the examples
      below are dyadic rationals, on which double arithmetic is exact,
      and a property that rounding would falsify is stated on operands
      that are added without rounding.  [NaN] appears where the code can
      produce it: on an index ([VNaN]), and in a fade whose request
      lacks a number ([None] for the number); a run in which [NaN] would
      become the gain of a piece ends with [NotANumber].
    - SonicUtils.js runs with the name [undefined] bound to the jQuery
      function (it is the parameter of the function that wraps the
      file); Music.js, SonicShuffle.js and SFX.js run with the name
      bound to the value undefined.
    - The keys of the library of pieces are looked up among its entries;
      a name of [Object.prototype] that is no entry ends the run with
      [InheritedMember].
    - A call that can throw returns a [completion]; a method that mutates
      [this] is a function in the state-and-exception monad [M].
    - [Math.random()] is an explicit argument: the rational in [0,1) that
      the call returns.
    - Howl objects (the audio handles of howler.js) are a parameter, the
      class [TrackOps]. *)

From Stdlib Require Import ZArith QArith Qround Qminmax Qabs List String Lia Lqa.
From stdpp Require Import base list gmap strings.

Open Scope Z_scope.

(* ------------------------------------------------------------------ *)
(** * JavaScript values and completions *)
(* ------------------------------------------------------------------ *)

Inductive js_error : Type :=
| TypeError
| Error (msg : string).

(** The result of evaluating an expression: a value, or a thrown error. *)
Inductive completion (A : Type) : Type :=
| Normal (a : A)
| Throw (e : js_error).
Arguments Normal {A} a.
Arguments Throw {A} e.

Definition cbind {A B} (c : completion A) (k : A -> completion B) : completion B :=
  match c with
  | Normal a => k a
  | Throw e => Throw e
  end.

(** The values held by [section_set] and [section]: [null], [NaN], an
    integer, or a value that is none of these and names no item of an
    array ([VUndefined]): the value undefined, and the jQuery function
    that [random_choice] returns under the name [undefined] on an empty
    array.  The code stores such a value, compares it with [null] and
    uses it as an index, where the two act alike. *)
Inductive jsval : Type :=
| VNull
| VUndefined
| VNaN
| VInt (z : Z).

#[global] Instance jsval_eq_dec : EqDecision jsval.
Proof. solve_decision. Defined.

(** [x === n] for an integer literal [n]. *)
Definition strict_eq_int (x : jsval) (n : Z) : bool :=
  match x with
  | VInt z => z =? n
  | _ => false
  end.

(** [x === null]. *)
Definition is_null (x : jsval) : bool :=
  match x with
  | VNull => true
  | _ => false
  end.

(** [x + 1]: [null] converts to 0, [undefined] to [NaN]. *)
Definition js_succ (x : jsval) : jsval :=
  match x with
  | VNull => VInt 1
  | VInt z => VInt (z + 1)
  | VUndefined | VNaN => VNaN
  end.

(** [x % n] for an array length [n]: the remainder has the sign of the
    dividend, and [x % 0] is [NaN]. *)
Definition js_rem (x : jsval) (n : nat) : jsval :=
  match x with
  | VInt z => if (Z.of_nat n =? 0) then VNaN else VInt (Z.rem z (Z.of_nat n))
  | VNull => if (Z.of_nat n =? 0) then VNaN else VInt 0
  | VUndefined | VNaN => VNaN
  end.

(** [arr[x]]: the element when [x] is an index of the array, and
    [undefined] ([None]) otherwise. *)
Definition js_index {A} (arr : list A) (x : jsval) : option A :=
  match x with
  | VInt z => if (0 <=? z) then arr !! Z.to_nat z else None
  | _ => None
  end.

(** [arr[x] = v]: an assignment under a key that is not an index of the
    array ([undefined], [null], [NaN], a negative number) adds a named
    property and leaves the elements alone.  The code writes only to
    indices read from the same row, or to the key [undefined]. *)
Definition js_store {A} (arr : list A) (x : jsval) (v : A) : list A :=
  match x with
  | VInt z => if (0 <=? z) then <[Z.to_nat z := v]> arr else arr
  | _ => arr
  end.

(** [Array.prototype.reduce] without an initial value: a [TypeError] on
    the empty array, otherwise a left fold seeded with the first element. *)
Definition reduce1 {A} (f : A -> A -> A) (arr : list A) : completion A :=
  match arr with
  | [] => Throw TypeError
  | x :: rest => Normal (fold_left f rest x)
  end.

(** [Math.max] and [Math.min] on a type of numbers. *)
Class MinMax (num : Type) : Type := {
  Math_max : num -> num -> num;
  Math_min : num -> num -> num;
}.

#[global] Instance Q_MinMax : MinMax Q := {| Math_max := Qmax; Math_min := Qmin |}.

(** The rest of the arithmetic used by the easing of [fade], on a type of
    numbers that has the cosine and the exponential (the doubles of
    JavaScript, or the reals). *)
Class MathOps (num : Type) `{MinMax num} : Type := {
  lit : Q -> num;                       (* a numeric literal *)
  js_mul : num -> num -> num;
  js_sub : num -> num -> num;
  js_div : num -> num -> num;
  Math_exp : num -> num;
  Math_cos : num -> num;
  Math_PI : num;
  falsy : num -> bool;                  (* [0], [-0] and [NaN] *)
}.

(* ------------------------------------------------------------------ *)
(** * SonicUtils.js *)
(* ------------------------------------------------------------------ *)

Module SonicUtils.

(** SonicUtils.js is the body of
    [(function (undefined) { ... })(jQuery || Zepto)]: inside the file
    the name [undefined] is a parameter, bound to the jQuery function.
    A test [x === undefined] of this file therefore holds of the jQuery
    function and of nothing else, and [return undefined] returns that
    function.  The other files bind the name to the value undefined. *)

(** What a caller hands over where a value of [A] is expected: such a
    value, the value undefined of an argument or of a property that is
    missing, or the jQuery function. *)
Inductive supplied (A : Type) : Type :=
| Given (a : A)
| Missing
| JQuery.
Arguments Given {A} a.
Arguments Missing {A}.
Arguments JQuery {A}.

(** An optional field read from an object: never the jQuery function. *)
Definition field {A} (x : option A) : supplied A :=
  match x with
  | Some a => Given a
  | None => Missing
  end.

(** The number that arithmetic makes of what was handed over: [None] is
    [NaN], which is what the value undefined and a function convert to. *)
Definition number_of (x : supplied Q) : option Q :=
  match x with
  | Given q => Some q
  | Missing | JQuery => None
  end.

(** [Math.round]: to the nearest integer, halves upwards. *)
Definition Math_round (x : Q) : Z := Qfloor (x + (1 # 2)).

(** [nvl(val, ifnull)] for a [val] that is there ([Some]) or is [null]
    ([None]).  The test is [val === undefined || val === null] with the
    jQuery function under the name [undefined]: a value that is missing
    fails it and would be returned as it is, so the value undefined is
    not an argument of this definition.

    The same function on options is used for [val || ifnull] where the
    code writes that ([args.priority || 0] and the like); [None] is then
    a field that is missing or null. *)
Definition nvl {A} (val : option A) (ifnull : A) : A :=
  match val with
  | Some v => v
  | None => ifnull
  end.

(** [clamp(value, min, max) = Math.max(Math.min(value, max), min)]. *)
Definition clamp {num} `{MinMax num} (value min max : num) : num :=
  Math_max (Math_min value max) min.

(** [sum]: the loop runs from the last element down to the first. *)
Definition sum (l : list Q) : Q := fold_left Qplus (rev l) 0%Q.

(** [random_index(array)] with [rnd] the value of [Math.random()].
    [None] is what the code returns on an empty array under the name
    [undefined]: the jQuery function, which is not an index.  Only the
    length of the array is used. *)
Definition random_index (len : nat) (rnd : Q) : option Z :=
  if (len =? 0)%nat then None
  else Some (Math_round (rnd * inject_Z (Z.of_nat len - 1))).

(** [random_choice(array)]; [None] is again the value returned under
    the name [undefined], or the value undefined of [array[random_int]]
    outside the array. *)
Definition random_choice {A} (array : list A) (rnd : Q) : option A :=
  if (length array =? 0)%nat then None
  else match random_index (length array) rnd with
       | Some i => js_index array (VInt i)
       | None => None
       end.

(** The [for] loop of [biased_random_index], entered at index [i] with
    the running total [accumulation]. *)
Fixpoint walk (weights : list Q) (i : nat) (accumulation magicnumber : Q)
  : option nat :=
  match weights with
  | [] => None
  | w :: rest =>
      let accumulation := (accumulation + w)%Q in
      if Qle_bool magicnumber accumulation then Some i
      else walk rest (S i) accumulation magicnumber
  end.

(** [biased_random_index(weights)].  [rnd] is the first value of
    [Math.random()], [rnd'] the second one, drawn only when the loop
    runs to its end without returning.  [None] is the value returned
    under the name [undefined] on an empty array.  The sums are those of
    the code on weights whose sums are exact in double arithmetic
    (integers below 2^53, dyadic rationals of one scale); on other
    weights the total, added from the last weight down, and the running
    total, added from the first one up, are rounded differently, which
    this definition does not show. *)
Definition biased_random_index (weights : list Q) (rnd rnd' : Q) : option Z :=
  if (length weights =? 0)%nat then None
  else
    let total := sum weights in
    if Qeq_bool total 0 then random_index (length weights) rnd
    else
      let magicnumber := (rnd * total)%Q in
      match walk weights 0 0%Q magicnumber with
      | Some i => Some (Z.of_nat i)
      | None => random_index (length weights) rnd'
      end.

(** [assertDefined(x, msg)]: [if (x === undefined) throw ...; return x].
    The test compares [x] with the jQuery function: a value that is
    missing passes it and is returned. *)
Definition assertDefined {A} (x : supplied A) (msg : option string)
  : completion (supplied A) :=
  match x with
  | JQuery =>
      Throw (Error (match msg with
                    | Some m => if String.eqb m "" then "Variable was not defined."%string
                                else m
                    | None => "Variable was not defined."%string
                    end))
  | Given _ | Missing => Normal x
  end.

End SonicUtils.

(* ------------------------------------------------------------------ *)
(** * Music.Mixins.js and the default easing of [fade] *)
(* ------------------------------------------------------------------ *)

Module Mixins.
Section Numbers.
Context {num : Type} `{MathOps num}.

(** [gainToPerceptualVolume(vol)]; [None] is [undefined].  [vol || 0]
    replaces [undefined] and the falsy numbers by [0]. *)
Definition gainToPerceptualVolume (vol : option num) : completion num :=
  let vol :=
    match vol with
    | Some v => if falsy v then lit 0 else v
    | None => lit 0
    end in
  Normal (js_mul (lit (1 # 100)) (Math_exp (js_mul (lit (4605 # 1000)) vol))).

(** The function [easing] that [fade] uses when [args.easing] is
    missing.  [var gain] is hoisted: the variable exists, with the value
    [undefined], when the right-hand side of its initialiser reads it. *)
Definition easing (t : num) : completion num :=
  let gain : option num := None in
  cbind (gainToPerceptualVolume gain) (fun v =>
    let gain := Some v in
    let gain := js_sub (lit 1) (Math_cos (js_div (js_mul Math_PI t) (lit 2))) in
    Normal (SonicUtils.clamp gain (lit 0) (lit 1))).

End Numbers.
End Mixins.

(* ------------------------------------------------------------------ *)
(** * The visitation grid *)
(* ------------------------------------------------------------------ *)

(** [function or (x, y) { return x || y }] on booleans. *)
Definition or (x y : bool) : bool := if x then x else y.

(** [cycleExists(visitgraph)]: the outer [reduce] starts from [true]; the
    inner one has no initial value, so it throws on an empty row, unless
    [a && ...] has already short-circuited on a false [a]. *)
Definition cycleExists (visitgraph : list (list bool)) : completion bool :=
  fold_left
    (fun (acc : completion bool) (b : list bool) =>
       cbind acc (fun a => if a then reduce1 or b else Normal a))
    visitgraph (Normal true).

(** [resetSectionsPlayed(sections)]. *)
Definition resetSectionsPlayed {T} (sections : list (list T)) : list (list bool) :=
  map (fun sectionset => map (fun _ => true) sectionset) sections.

(** What the specification says of a row. *)
Definition has_eligible (row : list bool) : Prop := In true row.
Definition exhausted (row : list bool) : Prop := forall b, In b row -> b = false.

(* ------------------------------------------------------------------ *)
(** * Methods that mutate [this]: state, exceptions and a trace *)
(* ------------------------------------------------------------------ *)

Section StateExn.
Context {St Ev Err : Type}.

(** A call ends by returning or by throwing; in both cases it leaves a
    state behind and a trace of what it let the outside observe. *)
Inductive outcome (A : Type) : Type :=
| Ok (a : A) (s : St) (tr : list Ev)
| Exn (e : Err) (s : St) (tr : list Ev).

Definition M (A : Type) : Type := St -> outcome A.

Definition ret {A} (a : A) : M A := fun s => Ok A a s [].

Definition bind {A B} (m : M A) (k : A -> M B) : M B :=
  fun s =>
    match m s with
    | Ok _ a s1 tr1 =>
        match k a s1 with
        | Ok _ b s2 tr2 => Ok B b s2 (tr1 ++ tr2)
        | Exn _ e s2 tr2 => Exn B e s2 (tr1 ++ tr2)
        end
    | Exn _ e s1 tr1 => Exn B e s1 tr1
    end.

Definition get : M St := fun s => Ok St s s [].
Definition put (s : St) : M unit := fun _ => Ok unit tt s [].
Definition modify (f : St -> St) : M unit := fun s => Ok unit tt (f s) [].
Definition throw {A} (e : Err) : M A := fun s => Exn A e s [].
Definition tell (ev : Ev) : M unit := fun s => Ok unit tt s [ev].

(** [if (b) { m }]. *)
Definition only_if (b : bool) (m : M unit) : M unit := if b then m else ret tt.

(** The state a call leaves behind, however it ended. *)
Definition final_state {A} (o : outcome A) : St :=
  match o with
  | Ok _ _ s _ => s
  | Exn _ _ s _ => s
  end.

Definition trace_of {A} (o : outcome A) : list Ev :=
  match o with
  | Ok _ _ _ tr => tr
  | Exn _ _ _ tr => tr
  end.

Definition returned {A} (o : outcome A) : option A :=
  match o with
  | Ok _ a _ _ => Some a
  | Exn _ _ _ _ => None
  end.
End StateExn.

Arguments outcome : clear implicits.
Arguments M : clear implicits.
Arguments Ok {St Ev Err A} a s tr.
Arguments Exn {St Ev Err A} e s tr.

Notation "'let!' x ':=' m 'in' k" := (bind m (fun x => k))
  (at level 10, x name, m at level 100, k at level 200).
Notation "'do!' m 'in' k" := (bind m (fun _ => k))
  (at level 10, m at level 100, k at level 200).

(* ------------------------------------------------------------------ *)
(** * The audio handle *)
(* ------------------------------------------------------------------ *)

(** The closures that [play] attaches to a Howl. *)
Inductive howl_callback : Type :=
| OnSectionTerminal (sectionset : jsval)   (* the handler of [end] in [next] *)
| OnOverlap                                (* the handler of [overlap] in [next] *)
| OnIntroTerminal                          (* the handler attached to the intro *)
| OnFinale.                                (* the handler of [finale] *)

(** The methods of a Howl that the Shuffle calls.  howler.js is not part
    of these sources; its objects are a parameter. *)
Class TrackOps (Track : Type) : Type := {
  howl_play : Track -> Track;
  howl_pause : Track -> Track;
  howl_stop : Track -> Track;
  howl_volume : Q -> Track -> Track;
  howl_mute : Track -> Track;
  howl_unmute : Track -> Track;
  howl_isFading : Track -> bool;
  howl_duration : Track -> Q;
  howl_timer : Q -> string -> Track -> Track;
  howl_ion : string -> howl_callback -> Track -> Track;
}.

(** A reference to one of the Howls a Shuffle owns. *)
Inductive track_ref : Type :=
| Intro
| SectionAt (sectionset section : nat).

(** A value that is [null], [undefined] or an object. *)
Inductive jsref (A : Type) : Type :=
| RNull
| RUndefined
| RObj (a : A).
Arguments RNull {A}.
Arguments RUndefined {A}.
Arguments RObj {A} a.

(* ------------------------------------------------------------------ *)
(** * SonicShuffle.js: the Shuffle object *)
(* ------------------------------------------------------------------ *)

Inductive play_state : Type := stopped | playing | paused.

#[global] Instance play_state_eq_dec : EqDecision play_state.
Proof. solve_decision. Defined.

(** The events a Shuffle triggers, with their arguments. *)
Inductive event : Type :=
| EvPlay
| EvPause
| EvStop
| EvMute (yes : bool)
| EvVolume (vol : Q)
| EvSectionBegin (sectionset section : jsval)
| EvSectionEnd
| EvCycleBegin
| EvCycleEnd
| EvFullcycle
| EvFinale
| EvEnd.

(** What a call lets the outside observe. *)
Inductive observation : Type :=
| Triggered (e : event)
| ConsoleLog (msg : string).

Section Shuffle.
Context {Track : Type} `{TrackOps Track}.

(** The fields of [this], but for [_fading] (kept with the deferred
    objects, see [World]) and [callbacks] (see [listeners]). *)
Record Shuffle : Type := mkShuffle {
  gain : Q;
  title : option string;
  intro : option Track;
  sections : list (list Track);
  section_states : list (list bool);
  muted : bool;
  has_overlaps : bool;
  finale : option Q;
  section_set : jsval;
  section : jsval;
  state : play_state;
  end_stop : bool;
  end_ : string;
}.

Definition set_gain (v : Q) (s : Shuffle) : Shuffle :=
  mkShuffle v (title s) (intro s) (sections s) (section_states s) (muted s)
    (has_overlaps s) (finale s) (section_set s) (section s) (state s)
    (end_stop s) (end_ s).
Definition set_intro (v : option Track) (s : Shuffle) : Shuffle :=
  mkShuffle (gain s) (title s) v (sections s) (section_states s) (muted s)
    (has_overlaps s) (finale s) (section_set s) (section s) (state s)
    (end_stop s) (end_ s).
Definition set_sections (v : list (list Track)) (s : Shuffle) : Shuffle :=
  mkShuffle (gain s) (title s) (intro s) v (section_states s) (muted s)
    (has_overlaps s) (finale s) (section_set s) (section s) (state s)
    (end_stop s) (end_ s).
Definition set_section_states (v : list (list bool)) (s : Shuffle) : Shuffle :=
  mkShuffle (gain s) (title s) (intro s) (sections s) v (muted s)
    (has_overlaps s) (finale s) (section_set s) (section s) (state s)
    (end_stop s) (end_ s).
Definition set_muted (v : bool) (s : Shuffle) : Shuffle :=
  mkShuffle (gain s) (title s) (intro s) (sections s) (section_states s) v
    (has_overlaps s) (finale s) (section_set s) (section s) (state s)
    (end_stop s) (end_ s).
Definition set_section_set (v : jsval) (s : Shuffle) : Shuffle :=
  mkShuffle (gain s) (title s) (intro s) (sections s) (section_states s) (muted s)
    (has_overlaps s) (finale s) v (section s) (state s)
    (end_stop s) (end_ s).
Definition set_section (v : jsval) (s : Shuffle) : Shuffle :=
  mkShuffle (gain s) (title s) (intro s) (sections s) (section_states s) (muted s)
    (has_overlaps s) (finale s) (section_set s) v (state s)
    (end_stop s) (end_ s).
Definition set_state (v : play_state) (s : Shuffle) : Shuffle :=
  mkShuffle (gain s) (title s) (intro s) (sections s) (section_states s) (muted s)
    (has_overlaps s) (finale s) (section_set s) (section s) v
    (end_stop s) (end_ s).

(** The handlers registered with [on], by event, in registration order.
    A handler runs with [this] bound to the Shuffle and may change any
    of its fields; it is applied to the fields of the record.  The
    registry is fixed during a call. *)
Variable listeners : event -> list (Shuffle -> Shuffle).

Definition SM : Type -> Type := M Shuffle observation js_error.

(** A call of a function that may throw. *)
Definition lift {A} (c : completion A) : SM A :=
  match c with
  | Normal a => ret a
  | Throw e => throw e
  end.

(** [trigger(action, ...)]: every handler of the action, in order. *)
Definition trigger (e : event) : SM unit :=
  do! tell (Triggered e) in
  modify (fun s => fold_left (fun s cb => cb s) (listeners e) s).

Definition console_log (msg : string) : SM unit := tell (ConsoleLog msg).

(** Reading and updating an owned Howl through a reference. *)
Definition deref (r : track_ref) (s : Shuffle) : option Track :=
  match r with
  | Intro => intro s
  | SectionAt i j => sections s !! i ≫= (fun row => row !! j)
  end.

Definition update_track (r : track_ref) (f : Track -> Track) : SM unit :=
  modify (fun s =>
    match r with
    | Intro => set_intro (option_map f (intro s)) s
    | SectionAt i j =>
        set_sections (alter (alter f j) i (sections s)) s
    end).

(** [forEachSection(fn)] for a [fn] that acts on the Howl it is given:
    the intro when there is one, then every section of every set. *)
Definition forEachSection (fn : Track -> Track) : SM unit :=
  modify (fun s =>
    set_sections (map (map fn) (sections s))
      (set_intro (option_map fn (intro s)) s)).

(** [nowPlaying()]. *)
Definition nowPlaying : SM (jsref track_ref) :=
  let! s := get in
  if is_null (section_set s) || is_null (section s) then ret RNull
  else if strict_eq_int (section_set s) (-1) then
    ret (match intro s with Some _ => RObj Intro | None => RNull end)
  else
    match js_index (sections s) (section_set s) with
    | None => throw TypeError
    | Some row =>
        match js_index row (section s), section_set s, section s with
        | Some _, VInt i, VInt j => ret (RObj (SectionAt (Z.to_nat i) (Z.to_nat j)))
        | _, _, _ => ret RUndefined
        end
    end.

(** [isLastSection()]. *)
Definition isLastSection : SM bool :=
  let! s := get in
  let last := Z.of_nat (length (sections s)) - 1 in
  if String.eqb (end_ s) "section" then ret true
  else if String.eqb (end_ s) "cycle" then
    ret (strict_eq_int (section_set s) last)
  else if String.eqb (end_ s) "fullcycle" then
    if strict_eq_int (section_set s) last then
      let! c := lift (cycleExists (section_states s)) in
      ret (negb c)
    else ret false
  else ret false.

(** The indices of the true entries of a row: the [map] that numbers
    the entries followed by the [filter] that drops the [null]s. *)
Definition possible_of (row : list bool) : list Z :=
  omap (fun x => x)
    (imap (fun counter (b : bool) => if b then Some (Z.of_nat counter) else None) row).

(** [moveToSucessorState()], with [rnd] the value of [Math.random()]
    inside [random_choice]. *)
Definition moveToSucessorState (rnd : Q) : SM (jsref track_ref) :=
  do! modify (fun s =>
        set_section_set
          (js_rem (js_succ (section_set s)) (length (sections s))) s) in
  let! s := get in
  let! reset :=
    (if strict_eq_int (section_set s) 0 then
       let! c := lift (cycleExists (section_states s)) in
       ret (negb c)
     else ret false) in
  do! only_if reset
        (do! trigger EvFullcycle in
         modify (fun s => set_section_states (resetSectionsPlayed (sections s)) s)) in
  let! s := get in
  if negb (bool_decide (state s = playing)) then ret RNull
  else
    match js_index (section_states s) (section_set s) with
    | None => throw TypeError
    | Some row =>
        let possible := possible_of row in
        let chosen :=
          match SonicUtils.random_choice possible rnd with
          | Some j => VInt j
          | None => VUndefined
          end in
        do! modify (set_section chosen) in
        do! modify (fun s =>
              set_section_states
                (alter (fun row => js_store row chosen false)
                   (match section_set s with VInt i => Z.to_nat i | _ => 0%nat end)
                   (section_states s)) s) in
        nowPlaying
    end.

(** [processFinaleEvent(section)]. *)
Definition processFinaleEvent (sec : jsref track_ref) : SM unit :=
  let! s := get in
  match finale s with
  | None => ret tt
  | Some lead =>
      let! last := isLastSection in
      if negb last then ret tt
      else
        match sec with
        | RNull | RUndefined => throw TypeError
        | RObj r =>
            update_track r (fun t =>
              let msec := Qmax (howl_duration t - lead) 0 in
              howl_ion "finale" OnFinale (howl_timer msec "finale" t))
        end
  end.

(** [volume()] without an argument, or with [undefined] or [null]. *)
Definition volume_get : SM Q :=
  let! s := get in ret (gain s).

(** [mute()]. *)
Definition mute : SM unit :=
  do! modify (set_muted true) in
  do! forEachSection howl_mute in
  trigger (EvMute true).

(** [volume(vol)] with a number; [parseFloat] is the identity on it. *)
Definition volume_set (vol : Q) : SM unit :=
  let vol := SonicUtils.clamp vol 0%Q 1%Q in
  do! modify (set_gain vol) in
  do! trigger (EvVolume vol) in
  let! s := get in
  if muted s then mute
  else
    forEachSection (fun sec =>
      if howl_isFading sec then sec else howl_volume vol sec).

(** [volume(vol)]; [None] is [undefined] or [null].  The getter returns
    the gain, the setter returns [this]. *)
Definition volume (vol : option Q) : SM (option Q) :=
  match vol with
  | None => let! g := volume_get in ret (Some g)
  | Some v => do! volume_set v in ret None
  end.

(** [unmute()]. *)
Definition unmute : SM unit :=
  do! modify (set_muted false) in
  do! forEachSection howl_unmute in
  let! g := volume_get in
  do! volume_set g in
  trigger (EvMute false).

(** [stop()]. *)
Definition stop : SM unit :=
  do! modify (set_state stopped) in
  do! forEachSection howl_stop in
  do! modify (set_section_set VNull) in
  do! modify (set_section VNull) in
  do! modify (fun s => set_section_states (resetSectionsPlayed (sections s)) s) in
  trigger EvStop.

(** [pause()]. *)
Definition pause : SM unit :=
  let! np := nowPlaying in
  let! s := get in
  match np with
  | RNull | RUndefined => ret tt
  | RObj _ =>
      if negb (bool_decide (state s = playing)) then ret tt
      else
        do! modify (set_state paused) in
        let! np := nowPlaying in
        do! (match np with
             | RObj r => update_track r howl_pause
             | _ => throw TypeError
             end) in
        trigger EvPause
  end.

(** The local function [next] of [play]. *)
Definition next (rnd : Q) : SM unit :=
  let! finished := isLastSection in
  do! modify (fun s =>
        if is_null (section_set s) || strict_eq_int (section_set s) (-1)
        then set_section_set (VInt (Z.of_nat (length (sections s)) - 1)) s
        else s) in
  let! sec := moveToSucessorState rnd in
  do! processFinaleEvent sec in
  let! s := get in
  if finished && end_stop s then ret tt
  else
    match sec with
    | RNull | RUndefined => ret tt
    | RObj r =>
        let sectionset := section_set s in
        do! update_track r (howl_ion "end" (OnSectionTerminal sectionset)) in
        do! only_if (has_overlaps s) (update_track r (howl_ion "overlap" OnOverlap)) in
        if bool_decide (state s = playing) then
          do! only_if (strict_eq_int (section_set s) 0) (trigger EvCycleBegin) in
          let! s := get in
          do! trigger (EvSectionBegin (section_set s) (section s)) in
          let! s := get in
          if bool_decide (state s = playing) then
            let vol := if muted s then 0%Q else gain s in
            update_track r (fun t => howl_play (howl_volume vol t))
          else ret tt
        else ret tt
    end.

(** [play()]. *)
Definition play (rnd : Q) : SM unit :=
  let! s := get in
  if bool_decide (state s = playing) then ret tt
  else if (length (sections s) =? 0)%nat then
    console_log
      "There are no sections included in this sonic shuffle. Unable to initiate play."
  else if bool_decide (state s = paused) then
    let! np := nowPlaying in
    do! (match np with
         | RObj r => update_track r howl_play
         | _ => throw TypeError
         end) in
    modify (set_state playing)
  else
    let playintro := bool_decide (state s = stopped) && bool_decide (is_Some (intro s)) in
    do! modify (set_state playing) in
    do! trigger EvPlay in
    if playintro then
      do! modify (set_section_set (VInt (-1))) in
      do! modify (set_section (VInt 0)) in
      let! s := get in
      let terminalevt := if has_overlaps s then "overlap"%string else "end"%string in
      do! update_track Intro (howl_ion terminalevt OnIntroTerminal) in
      do! update_track Intro howl_play in
      let! s := get in
      trigger (EvSectionBegin (section_set s) (section s))
    else next rnd.

End Shuffle.

Arguments Shuffle Track : clear implicits.

(** The methods of the Shuffle that share a name with a function of
    Music.js, under a second name. *)
Abbreviation SonicShuffle_stop := stop.
Abbreviation SonicShuffle_play := play.

(* ------------------------------------------------------------------ *)
(** * Deferred objects, timers and the pieces of the library *)
(* ------------------------------------------------------------------ *)

(** The state of a jQuery-style deferred object. *)
Inductive dstate : Type := Pending | Resolved | Rejected.

#[global] Instance dstate_eq_dec : EqDecision dstate.
Proof. solve_decision. Defined.

(** The functions that the code passes to [done], [fail] and [always],
    each with the variables it has captured.  Pieces are named by their
    key in the library, deferred objects and timers by the order of
    their creation. *)
Inductive closure : Type :=
| FadeFinalVolume (who : string) (to : option Q) (normalizer : Q)
    (* fade: [_this.volume(mutevol(to * normalizer()))]; [to] is [None]
       when the request had none *)
| FadeRelease (who : string)
    (* fade: [_this._fading = {}] *)
| FadeClearInterval (stepper : nat)
    (* fade: [clearInterval(stepper)] *)
| StopTrack (who : string)
    (* Music.stop: [music.stop()] *)
| StopTrackUnlessNowPlaying (who : string)
    (* Music.stopNonPlayingTracks: [if (track === _nowplaying.audio) return; track.stop()] *)
| WhenUpdate (master : nat)
    (* $.when: one more subordinate has been resolved *)
| WhenReject (master : nat)
    (* $.when: [master.reject] *)
| ResolveStopping
    (* Music.play: [_stopping_promise.resolve()] *)
| Install (piece : string) (vol : Q)
    (* Music.play: the function that makes the piece the one playing *)
| External (who : string) (id : nat).
    (* a function of client code, which acts on the fields of a piece *)

Record Deferred : Type := mkDeferred {
  dstatus : dstate;
  done_list : list closure;
  fail_list : list closure;
  remaining : nat;          (* the counter of a [$.when] master *)
}.

(** [this._fading]: [{}], [{priority}] or [{priority, promise}]. *)
Record FadeLock : Type := mkLock {
  lock_promise : option nat;
  lock_priority : option Z;
}.

Definition no_lock : FadeLock := mkLock None None.

(** The argument of [fade].  [fa_to] and [fa_msec] are [None] when the
    field is missing.  [fa_from] is [None] when the field is [null]: a
    request that leaves [from] out is not a value of this record ([nvl]
    hands the value undefined on, and the gain set from it is [NaN]).
    [fa_priority], [fa_normalizer] and [fa_easing] are [None] when the
    field is missing or null; a normalizer is given by the number it
    returns. *)
Record fade_args : Type := mkFadeArgs {
  fa_from : option Q;
  fa_to : option Q;
  fa_msec : option Q;
  fa_priority : option Z;
  fa_normalizer : option Q;
  fa_easing : option (Q -> Q);
}.

(** The function given to [setInterval] in [fade], with what it
    captured.  [st_delta] is [None] when [to - from] is [NaN], [st_msec]
    when the request had no [msec]. *)
Record Stepper : Type := mkStepper {
  st_who : string;
  st_from : Q;
  st_delta : option Q;
  st_msec : option Q;
  st_start : Q;
  st_promise : nat;
  st_normalizer : Q;
  st_easing : Q -> Q;
}.

(** What stops a run at the level of the whole page: a thrown error,
    and three ends that belong to the model only: the bound on nested
    callbacks; a number that is [NaN] where the model holds a rational
    (the gain of a piece, the argument of an easing function); a member
    of [Object.prototype] found where the model holds an entry of the
    library.  The code goes on in the last two cases; the model says
    nothing of what follows. *)
Inductive abort : Type :=
| Thrown (e : js_error)
| OutOfFuel
| NotANumber
| InheritedMember.

Section World.
Context {Track : Type} `{TrackOps Track}.

(** A Shuffle with its fade lock. *)
Record Piece : Type := mkPiece {
  shuffle : Shuffle Track;
  _fading : FadeLock;
}.

(** An entry of [_library]: a thunk that builds the object on first
    use (here with the object it builds), or the object. *)
Inductive lib_entry : Type :=
| Thunk (fresh : Shuffle Track)
| Loaded (p : Piece).

(** The variables of Music.js, the deferred objects, the timers and the
    clock.  [_nowplaying.audio] holds the key of the piece. *)
Record World : Type := mkWorld {
  _library : list (string * lib_entry);
  _nowplaying_piece : option string;
  _nowplaying_audio : option string;
  _volume : Q;
  _state : play_state;
  _mute : bool;
  _stopping_promise : option nat;
  heap : list Deferred;
  intervals : list (option Stepper);
  clock : Q;               (* [window.performance.now()] *)
  plays : nat;             (* calls of [play] on Shuffles so far *)
}.

Definition set_library (v : list (string * lib_entry)) (w : World) : World :=
  mkWorld v (_nowplaying_piece w) (_nowplaying_audio w) (_volume w) (_state w)
    (_mute w) (_stopping_promise w) (heap w) (intervals w) (clock w) (plays w).
Definition set_nowplaying (piece audio : option string) (w : World) : World :=
  mkWorld (_library w) piece audio (_volume w) (_state w)
    (_mute w) (_stopping_promise w) (heap w) (intervals w) (clock w) (plays w).
Definition set_Music_state (v : play_state) (w : World) : World :=
  mkWorld (_library w) (_nowplaying_piece w) (_nowplaying_audio w) (_volume w) v
    (_mute w) (_stopping_promise w) (heap w) (intervals w) (clock w) (plays w).
Definition set_stopping_promise (v : option nat) (w : World) : World :=
  mkWorld (_library w) (_nowplaying_piece w) (_nowplaying_audio w) (_volume w) (_state w)
    (_mute w) v (heap w) (intervals w) (clock w) (plays w).
Definition set_heap (v : list Deferred) (w : World) : World :=
  mkWorld (_library w) (_nowplaying_piece w) (_nowplaying_audio w) (_volume w) (_state w)
    (_mute w) (_stopping_promise w) v (intervals w) (clock w) (plays w).
Definition set_intervals (v : list (option Stepper)) (w : World) : World :=
  mkWorld (_library w) (_nowplaying_piece w) (_nowplaying_audio w) (_volume w) (_state w)
    (_mute w) (_stopping_promise w) (heap w) v (clock w) (plays w).
Definition set_clock (v : Q) (w : World) : World :=
  mkWorld (_library w) (_nowplaying_piece w) (_nowplaying_audio w) (_volume w) (_state w)
    (_mute w) (_stopping_promise w) (heap w) (intervals w) v (plays w).
Definition set_plays (v : nat) (w : World) : World :=
  mkWorld (_library w) (_nowplaying_piece w) (_nowplaying_audio w) (_volume w) (_state w)
    (_mute w) (_stopping_promise w) (heap w) (intervals w) (clock w) v.

(** The names that an object literal inherits from [Object.prototype]:
    [_library[key]] with one of them finds the inherited member (a
    function, or the prototype itself) when the library has no entry of
    that name. *)
Definition Object_prototype : list string :=
  ["constructor"; "toString"; "toLocaleString"; "valueOf"; "hasOwnProperty";
   "isPrototypeOf"; "propertyIsEnumerable"; "__proto__";
   "__defineGetter__"; "__defineSetter__"; "__lookupGetter__"; "__lookupSetter__"]%string.

Definition inherited (key : string) : bool :=
  existsb (String.eqb key) Object_prototype.

(** The own property [key] of [_library], and [_library[key] = v] for
    an existing key; the order of the keys is the order of
    [Object.keys].  [_library[key]] is this entry when there is one;
    without one it is the value undefined, or the member of
    [Object.prototype] when the key is [inherited]. *)
Fixpoint lib_lookup (key : string) (lib : list (string * lib_entry)) : option lib_entry :=
  match lib with
  | [] => None
  | (k, v) :: rest => if String.eqb k key then Some v else lib_lookup key rest
  end.

Fixpoint lib_update (key : string) (v : lib_entry) (lib : list (string * lib_entry))
  : list (string * lib_entry) :=
  match lib with
  | [] => []
  | (k, v0) :: rest =>
      if String.eqb k key then (k, v) :: rest else (k, v0) :: lib_update key v rest
  end.

(** What a run of the page lets the outside observe. *)
Inductive wobservation : Type :=
| Heard (who : string) (o : observation)
| MusicLog (msg : string).

Definition WM : Type -> Type := M World wobservation abort.

(** The handlers registered on each piece, the values of
    [Math.random()] in the successive calls of [play] on a Shuffle,
    the functions of client code, and the default easing of [fade] on
    rationals. *)
Variable listeners : string -> event -> list (Shuffle Track -> Shuffle Track).
Variable rnd : nat -> Q.
Variable client : nat -> Shuffle Track -> Shuffle Track.
Variable default_easing : Q -> Q.

Definition wlift {A} (c : completion A) : WM A :=
  match c with
  | Normal a => ret a
  | Throw e => throw (Thrown e)
  end.

(** The object of a piece; a method call on anything else is a
    [TypeError]. *)
Definition the_piece (who : string) : WM Piece :=
  let! w := get in
  match lib_lookup who (_library w) with
  | Some (Loaded p) => ret p
  | _ => throw (Thrown TypeError)
  end.

Definition modify_lock (who : string) (f : FadeLock -> FadeLock) : WM unit :=
  let! p := the_piece who in
  modify (fun w =>
    set_library (lib_update who (Loaded (mkPiece (shuffle p) (f (_fading p)))) (_library w)) w).

(** A method of the Shuffle called on a piece. *)
Definition on_shuffle {A} (who : string) (m : SM A) : WM A :=
  fun w =>
    match lib_lookup who (_library w) with
    | Some (Loaded p) =>
        match m (shuffle p) with
        | Ok a s tr =>
            Ok a (set_library (lib_update who (Loaded (mkPiece s (_fading p))) (_library w)) w)
              (map (Heard who) tr)
        | Exn e s tr =>
            Exn (Thrown e)
              (set_library (lib_update who (Loaded (mkPiece s (_fading p))) (_library w)) w)
              (map (Heard who) tr)
        end
    | _ => Exn (Thrown TypeError) w []
    end.

(** [play()] on a piece. *)
Definition shuffle_play (who : string) : WM unit :=
  let! w := get in
  do! modify (set_plays (S (plays w))) in
  on_shuffle who (play (listeners who) (rnd (plays w))).

(** ** Deferred objects *)

(** The interpreter of the functions attached to deferred objects, for
    the calls nested in the ones defined here. *)
Variable run : closure -> WM unit.

Fixpoint run_each (cs : list closure) : WM unit :=
  match cs with
  | [] => ret tt
  | c :: rest => do! run c in run_each rest
  end.

(** [$.Deferred()]. *)
Definition jq_Deferred : WM nat :=
  let! w := get in
  do! put (set_heap (heap w ++ [mkDeferred Pending [] [] 0]) w) in
  ret (length (heap w)).

(** [resolve()] and [reject()]: on a pending object, the state changes
    and the functions waiting for that outcome run in order; on a
    settled one nothing happens. *)
Definition settle (how : dstate) (d : nat) : WM unit :=
  let! w := get in
  match heap w !! d with
  | Some df =>
      match dstatus df with
      | Pending =>
          do! put (set_heap (<[d := mkDeferred how [] [] (remaining df)]> (heap w)) w) in
          run_each (match how with
                    | Resolved => done_list df
                    | _ => fail_list df
                    end)
      | _ => ret tt
      end
  | None => throw (Thrown TypeError)
  end.

Definition dfd_resolve : nat -> WM unit := settle Resolved.
Definition dfd_reject : nat -> WM unit := settle Rejected.

(** [done(fn)]: queued while pending, run at once when resolved,
    dropped when rejected; [fail(fn)] likewise. *)
Definition dfd_done (d : nat) (c : closure) : WM unit :=
  let! w := get in
  match heap w !! d with
  | Some df =>
      match dstatus df with
      | Pending =>
          put (set_heap
                 (<[d := mkDeferred Pending (done_list df ++ [c]) (fail_list df) (remaining df)]>
                    (heap w)) w)
      | Resolved => run c
      | Rejected => ret tt
      end
  | None => throw (Thrown TypeError)
  end.

Definition dfd_fail (d : nat) (c : closure) : WM unit :=
  let! w := get in
  match heap w !! d with
  | Some df =>
      match dstatus df with
      | Pending =>
          put (set_heap
                 (<[d := mkDeferred Pending (done_list df) (fail_list df ++ [c]) (remaining df)]>
                    (heap w)) w)
      | Rejected => run c
      | Resolved => ret tt
      end
  | None => throw (Thrown TypeError)
  end.

(** [always(fn)] is [done(fn).fail(fn)]. *)
Definition dfd_always (d : nat) (c : closure) : WM unit :=
  do! dfd_done d c in dfd_fail d c.

Fixpoint when_attach (master : nat) (ds : list nat) : WM unit :=
  match ds with
  | [] => ret tt
  | d :: rest =>
      do! dfd_done d (WhenUpdate master) in
      do! dfd_fail d (WhenReject master) in
      when_attach master rest
  end.

(** [$.when(...)] on deferred objects: resolved at once without
    arguments, the argument itself when there is one, and otherwise a
    master that is resolved when all are and rejected when one is. *)
Definition jq_when (ds : list nat) : WM nat :=
  match ds with
  | [] => let! d := jq_Deferred in do! dfd_resolve d in ret d
  | [d] => ret d
  | _ =>
      let! w := get in
      let master := length (heap w) in
      do! put (set_heap (heap w ++ [mkDeferred Pending [] [] (length ds)]) w) in
      do! when_attach master ds in
      ret master
  end.

(** ** Timers *)

Definition setInterval (st : Stepper) : WM nat :=
  let! w := get in
  do! put (set_intervals (intervals w ++ [Some st]) w) in
  ret (length (intervals w)).

Definition clearInterval (stepper : nat) : WM unit :=
  modify (fun w => set_intervals (<[stepper := None]> (intervals w)) w).

(** ** SonicShuffle.js: fades *)

(** [mutevol(v)] in [fade]; [None] is [NaN]. *)
Definition mutevol (who : string) (v : option Q) : WM (option Q) :=
  let! p := the_piece who in
  ret (if muted (shuffle p) then Some 0%Q else v).

(** [_this.volume(v)] in [fade], where [v] can be [NaN]: the code makes
    [NaN] the gain of the piece, which no rational is. *)
Definition fade_volume (who : string) (v : option Q) : WM unit :=
  match v with
  | Some v => on_shuffle who (volume_set (listeners who) v)
  | None => throw NotANumber
  end.

(** [Math.abs(to - this.gain) < 0.00001 || msec === 0]: a comparison
    with [NaN] is false, and so is that of a missing value with 0. *)
Definition fade_is_over (to msec : option Q) (current : Q) : bool :=
  match to with
  | Some to => negb (Qle_bool (1 # 100000) (Qabs (to - current)))
  | None => false
  end
  || match msec with
     | Some msec => Qeq_bool msec 0
     | None => false
     end.

(** The priority test of [fade], with [_this._fading.priority = priority]
    after it: a request below the priority of the fade in flight is
    refused with a fresh rejected deferred object, which is returned;
    otherwise the fade in flight, if any, is rejected and the priority
    recorded. *)
Definition fade_arbitrate (who : string) (priority : Z) : WM (option nat) :=
let! p := the_piece who in
let! refused :=
  match lock_promise (_fading p) with
  | Some inflight =>
      if match lock_priority (_fading p) with
         | Some held => priority <? held
         | None => false
         end
      then
        let! d := jq_Deferred in
        do! dfd_reject d in
        ret (Some d)
      else
        do! dfd_reject inflight in
        ret None
  | None => ret None
  end in
match refused with
| Some d => ret (Some d)
| None =>
    do! modify_lock who (fun l => mkLock (lock_promise l) (Some priority)) in
    ret None
end.

(** The rest of [fade]: the deferred object of the new fade, then the
    immediate end when there is nothing to do, or the timer.  [to] and
    [msec] are [None] when the request had none: [to * normalizer()]
    and [to - from] are then [NaN]. *)
Definition fade_start (who : string) (from : Q) (to msec : option Q) (normalizer : Q)
  (easing : Q -> Q) : WM nat :=
let! promise := jq_Deferred in
do! dfd_done promise (FadeFinalVolume who to normalizer) in
do! dfd_always promise (FadeRelease who) in
let! p := the_piece who in
if fade_is_over to msec (gain (shuffle p))
then
  let! v := mutevol who (option_map (fun to => to * normalizer)%Q to) in
  do! fade_volume who v in
  do! dfd_resolve promise in
  ret promise
else
  do! on_shuffle who (volume_set (listeners who) (from * normalizer)%Q) in
  let! w := get in
  let start := clock w in
  let delta := option_map (fun to => to - from)%Q to in
  let! stepper :=
    setInterval (mkStepper who from delta msec start promise normalizer easing) in
  do! modify_lock who (fun l => mkLock (Some promise) (lock_priority l)) in
  do! dfd_always promise (FadeClearInterval stepper) in
  ret promise.

(** [fade(args)].  [assertDefined] lets a missing [to] or [msec]
    through, and the fade goes on with it.  The three defaults after
    them are [||] in the code. *)
Definition fade (who : string) (args : fade_args) : WM nat :=
let! p := the_piece who in
let from := SonicUtils.nvl (fa_from args) (gain (shuffle p)) in
let! to := wlift (SonicUtils.assertDefined (SonicUtils.field (fa_to args)) None) in
let! msec := wlift (SonicUtils.assertDefined (SonicUtils.field (fa_msec args)) None) in
let priority := SonicUtils.nvl (fa_priority args) 0 in
let normalizer := SonicUtils.nvl (fa_normalizer args) 1%Q in
let easing := SonicUtils.nvl (fa_easing args) default_easing in
let! refused := fade_arbitrate who priority in
match refused with
| Some d => ret d
| None =>
    fade_start who from (SonicUtils.number_of to) (SonicUtils.number_of msec)
      normalizer easing
end.

(** The function given to [setInterval], run when the timer fires and
    the clock shows [now].  Without [msec] the time [t] is [NaN]: the
    test [t >= 1] fails and the easing function is called at [NaN].
    Without [to] the volume computed is [NaN]. *)
Definition tick (stepper : nat) (now : Q) : WM unit :=
  do! modify (set_clock now) in
  let! w := get in
  match intervals w !! stepper with
  | Some (Some st) =>
      match st_msec st with
      | Some msec =>
          let t := ((now - st_start st) / msec)%Q in
          if Qle_bool 1 t then dfd_resolve (st_promise st)
          else
            let vol :=
              option_map (fun delta => (st_from st + delta * st_easing st t) * st_normalizer st)%Q
                (st_delta st) in
            let! v := mutevol (st_who st) vol in
            fade_volume (st_who st) v
      | None => throw NotANumber
      end
  | _ => ret tt
  end.

(** [isFading()]. *)
Definition isFading (who : string) : WM bool :=
  let! p := the_piece who in
  ret (bool_decide (is_Some (lock_promise (_fading p)))).

(** [cancelFade(priority)]; [None] is a missing argument. *)
Definition cancelFade (who : string) (priority : option Z) : WM unit :=
  let priority := SonicUtils.nvl priority 0 in
  let! p := the_piece who in
  match lock_promise (_fading p), lock_priority (_fading p) with
  | Some inflight, Some held =>
      if held <=? priority then dfd_reject inflight else ret tt
  | _, _ => ret tt
  end.

End World.

Arguments Piece Track : clear implicits.
Arguments lib_entry Track : clear implicits.
Arguments World Track : clear implicits.
Arguments WM Track : clear implicits.

(* ------------------------------------------------------------------ *)
(** * Music.js: switching between pieces *)
(* ------------------------------------------------------------------ *)

Module Music.
Section Session.
Context {Track : Type} `{TrackOps Track}.
Variable listeners : string -> event -> list (Shuffle Track -> Shuffle Track).
Variable rnd : nat -> Q.
Variable client : nat -> Shuffle Track -> Shuffle Track.
Variable default_easing : Q -> Q.
Variable run : closure -> WM Track unit.

(** [_xfademsec] and [_xfadepriority]. *)
Definition _xfademsec_very_fast : Q := 750.
Definition _xfademsec_fast : Q := 2500.
Definition _xfademsec_slow : Q := 14000.
Definition _xfadepriority_low : Z := -1.
Definition _xfadepriority_normal : Z := 0.
Definition _xfadepriority_medium : Z := 1.
Definition _xfadepriority_high : Z := 2.

(** [Music.load(piece)]: whether [_library[piece]] is an object once
    the thunk, if there was one, has been run.  For a [piece] that is
    [inherited] and not an entry of the library, [_library[piece]] is a
    member of [Object.prototype]: the code calls it as if it were a
    thunk and stores what it returns, which is no piece. *)
Definition load (piece : string) : WM Track bool :=
  let! w := get in
  match lib_lookup piece (_library w) with
  | Some (Thunk fresh) =>
      do! modify (set_library
                    (lib_update piece (Loaded (mkPiece fresh no_lock)) (_library w))) in
      do! on_shuffle piece (volume_set (listeners piece) (_volume w)) in
      do! only_if (_mute w) (on_shuffle piece (mute (listeners piece))) in
      ret true
  | Some (Loaded _) => ret true
  | None => if inherited piece then throw InheritedMember else ret false
  end.

(** The body of the loop of [Music.stopNonPlayingTracks], over the keys
    of the library; it returns the array [promises]. *)
Fixpoint stop_each (except : list string) (keys : list string) : WM Track (list nat) :=
  match keys with
  | [] => ret []
  | track :: rest =>
      let! w := get in
      let! mine :=
        match lib_lookup track (_library w) with
        | Some (Loaded p) =>
            if bool_decide (_nowplaying_audio w = Some track)
               || bool_decide (track ∈ except)
               || bool_decide (state (shuffle p) = stopped)
            then ret []
            else
              let from := if _mute w then 0%Q else gain (shuffle p) in
              let! promise :=
                fade listeners default_easing run track
                  (mkFadeArgs (Some from) (Some 0%Q) (Some _xfademsec_fast)
                     (Some _xfadepriority_medium) None None) in
              do! dfd_always run promise (StopTrackUnlessNowPlaying track) in
              ret [promise]
        | _ => ret []
        end in
      let! others := stop_each except rest in
      ret (mine ++ others)
  end.

(** [Music.stopNonPlayingTracks(args)]. *)
Definition stopNonPlayingTracks (except : list string) : WM Track nat :=
  let! w := get in
  let! promises := stop_each except (map fst (_library w)) in
  jq_when run promises.

(** [Music.stop(args)]. *)
Definition stop (except : list string) : WM Track nat :=
  let! w := get in
  let music := _nowplaying_audio w in
  let! nowplaying_promise :=
    match music with
    | Some m =>
        if negb (bool_decide (m ∈ except)) then
          let vol := if _mute w then 0%Q else _volume w in
          let! promise :=
            fade listeners default_easing run m
              (mkFadeArgs (Some vol) (Some 0%Q) (Some _xfademsec_fast)
                 (Some _xfadepriority_medium) None None) in
          do! dfd_always run promise (StopTrack m) in
          ret (Some promise)
        else ret None
    | None => ret None
    end in
  let! others_promise := stopNonPlayingTracks except in
  let! nowplaying_promise :=
    match nowplaying_promise with
    | Some d => ret d
    | None => let! d := jq_Deferred in do! dfd_resolve run d in ret d
    end in
  do! modify (set_Music_state stopped) in
  jq_when run [nowplaying_promise; others_promise].

(** [Music.play(piece)]. *)
Definition play (piece : string) : WM Track nat :=
  let! w := get in
  if bool_decide (_nowplaying_piece w = Some piece) && bool_decide (_state w = playing)
  then
    let! d := jq_Deferred in
    do! dfd_resolve run d in
    ret d
  else
    let! music := load piece in
    let! w := get in
    let vol := if _mute w then 0%Q else _volume w in
    do! match _stopping_promise w with
        | Some d => dfd_reject run d
        | None => ret tt
        end in
    let! d := jq_Deferred in
    do! modify (set_stopping_promise (Some d)) in
    let! stopping := stop [] in
    do! dfd_done run stopping ResolveStopping in
    do! (if music then
           let! w := get in
           do! match _stopping_promise w with
               | Some d => dfd_done run d (Install piece vol)
               | None => throw (Thrown TypeError)
               end in
           modify (set_Music_state playing)
         else
           tell (MusicLog (piece ++ " was not listed in the library."))) in
    let! w := get in
    match _stopping_promise w with
    | Some d => ret d
    | None => throw (Thrown TypeError)
    end.

(** One function attached to a deferred object, run. *)
Definition run_closure_body (c : closure) : WM Track unit :=
  match c with
  | FadeFinalVolume who to normalizer =>
      let! v := mutevol who (option_map (fun to => to * normalizer)%Q to) in
      fade_volume listeners who v
  | FadeRelease who =>
      modify_lock who (fun _ => no_lock)
  | FadeClearInterval stepper =>
      clearInterval stepper
  | StopTrack who =>
      on_shuffle who (SonicShuffle_stop (listeners who))
  | StopTrackUnlessNowPlaying who =>
      let! w := get in
      if bool_decide (_nowplaying_audio w = Some who) then ret tt
      else on_shuffle who (SonicShuffle_stop (listeners who))
  | WhenUpdate master =>
      let! w := get in
      match heap w !! master with
      | Some df =>
          let left := pred (remaining df) in
          do! put (set_heap
                     (<[master := mkDeferred (dstatus df) (done_list df) (fail_list df) left]>
                        (heap w)) w) in
          only_if (left =? 0)%nat (dfd_resolve run master)
      | None => throw (Thrown TypeError)
      end
  | WhenReject master =>
      dfd_reject run master
  | ResolveStopping =>
      let! w := get in
      match _stopping_promise w with
      | Some d => dfd_resolve run d
      | None => throw (Thrown TypeError)
      end
  | Install piece vol =>
      do! modify (set_nowplaying (Some piece) (Some piece)) in
      let! _ := stopNonPlayingTracks [] in
      do! cancelFade run piece (Some _xfadepriority_normal) in
      do! on_shuffle piece (volume_set (listeners piece) vol) in
      shuffle_play listeners rnd piece
  | External who id =>
      on_shuffle who (modify (client id))
  end.

End Session.

(** The interpreter of attached functions, with a bound on the nesting
  of the calls of functions from functions. *)
Fixpoint run_closure {Track : Type} `{TrackOps Track}
  (listeners : string -> event -> list (Shuffle Track -> Shuffle Track))
  (rnd : nat -> Q) (client : nat -> Shuffle Track -> Shuffle Track)
  (default_easing : Q -> Q) (fuel : nat) (c : closure) : WM Track unit :=
match fuel with
| O => throw OutOfFuel
| S fuel' =>
    run_closure_body listeners rnd client default_easing
      (run_closure listeners rnd client default_easing fuel') c
end.

End Music.

(* ------------------------------------------------------------------ *)
(** * A plain audio handle, for the examples *)
(* ------------------------------------------------------------------ *)

(** A Howl reduced to what the Shuffle can change or read. *)
Record Howl : Type := mkHowl {
  h_name : string;
  h_state : play_state;
  h_volume : Q;
  h_muted : bool;
  h_fading : bool;
  h_duration : Q;
  h_timers : list (Q * string);
  h_handlers : list (string * howl_callback);
}.

#[global] Instance Howl_ops : TrackOps Howl := {|
  howl_play h :=
    mkHowl (h_name h) playing (h_volume h) (h_muted h) (h_fading h) (h_duration h)
      (h_timers h) (h_handlers h);
  howl_pause h :=
    mkHowl (h_name h) paused (h_volume h) (h_muted h) (h_fading h) (h_duration h)
      (h_timers h) (h_handlers h);
  howl_stop h :=
    mkHowl (h_name h) stopped (h_volume h) (h_muted h) (h_fading h) (h_duration h)
      (h_timers h) (h_handlers h);
  howl_volume v h :=
    mkHowl (h_name h) (h_state h) v (h_muted h) (h_fading h) (h_duration h)
      (h_timers h) (h_handlers h);
  howl_mute h :=
    mkHowl (h_name h) (h_state h) (h_volume h) true (h_fading h) (h_duration h)
      (h_timers h) (h_handlers h);
  howl_unmute h :=
    mkHowl (h_name h) (h_state h) (h_volume h) false (h_fading h) (h_duration h)
      (h_timers h) (h_handlers h);
  howl_isFading h := h_fading h;
  howl_duration h := h_duration h;
  howl_timer msec name h :=
    mkHowl (h_name h) (h_state h) (h_volume h) (h_muted h) (h_fading h) (h_duration h)
      (h_timers h ++ [(msec, name)]) (h_handlers h);
  howl_ion name cb h :=
    mkHowl (h_name h) (h_state h) (h_volume h) (h_muted h) (h_fading h) (h_duration h)
      (h_timers h)
      (filter (fun '(n, _) => negb (String.eqb n name)) (h_handlers h) ++ [(name, cb)]);
|}.

(** A stopped Howl at full volume. *)
Definition howl (name : string) : Howl :=
  mkHowl name stopped 1 false false 30000 [] [].

(** A Howl in the middle of a fade of its own. *)
Definition fading_howl (name : string) : Howl :=
  mkHowl name playing (1 # 2) false true 30000 [] [].

(** No handler registered. *)
Definition no_listeners {T} : event -> list (Shuffle T -> Shuffle T) := fun _ => [].

(** The fields of the Shuffle that
    [new Music.SonicShuffle({sections, volume: 1, end: scope, end_stop: true})]
    builds, for the grid of Howls made from [sections], without intro:
    every section eligible, stopped, at full volume.  [volume] and
    [end_stop] are given to the constructor: its defaults go through
    [nvl], which hands a missing value on, so that without them the
    gain is [NaN] and [end_stop] is the value undefined.

    With [end_stop] and a scope other than [loop] the constructor also
    registers a handler (it triggers [end] and calls [stop]) for the
    event of the scope.  Handlers are not fields of the record: they
    are the registry under which a Shuffle is run, and a run under
    [no_listeners] is that of the Shuffle after [off] of that event. *)
Definition fresh_shuffle {T} (grid : list (list T)) (scope : string) : Shuffle T :=
  mkShuffle 1 None None grid (resetSectionsPlayed grid) false false None
    VNull VNull stopped true scope.

(* ================================================================== *)
(** * Properties *)
(* ================================================================== *)

(* ------------------------------------------------------------------ *)
(** ** The visitation grid: [cycleExists] *)
(* ------------------------------------------------------------------ *)

(** The specification's reading of [cycleExists]: every row has an
    eligible entry. *)
Definition cycleExists_spec (visitgraph : list (list bool)) : bool :=
  forallb (existsb (fun b => b)) visitgraph.

(** One step of the outer [reduce]. *)
Definition cycle_step (acc : completion bool) (b : list bool) : completion bool :=
  cbind acc (fun a => if a then reduce1 or b else Normal a).

Lemma cycleExists_unfold g : cycleExists g = fold_left cycle_step g (Normal true).
Proof. reflexivity. Qed.

Lemma fold_or_spec (rest : list bool) (x : bool) :
  fold_left or rest x = x || existsb (fun b => b) rest.
Proof.
  revert x. induction rest as [|y rest IH]; intros x; simpl.
  - now rewrite orb_false_r.
  - rewrite IH. unfold or. destruct x, y; reflexivity.
Qed.

Lemma reduce1_or_spec (row : list bool) :
  row <> [] -> reduce1 or row = Normal (existsb (fun b => b) row).
Proof.
  destruct row as [|x rest]; [congruence|]. intros _. simpl.
  now rewrite fold_or_spec.
Qed.

Lemma cycle_fold_throw g e : fold_left cycle_step g (Throw e) = Throw e.
Proof. induction g as [|row g IH]; simpl; auto. Qed.

Lemma cycle_fold_false g : fold_left cycle_step g (Normal false) = Normal false.
Proof. induction g as [|row g IH]; simpl; auto. Qed.

(** On a grid without empty rows the code computes the specification's
    function. *)
Lemma cycleExists_nonempty_rows g :
  Forall (fun row => row <> []) g -> cycleExists g = Normal (cycleExists_spec g).
Proof.
  rewrite cycleExists_unfold.
  induction 1 as [|row g Hrow _ IH]; simpl; [reflexivity|].
  rewrite reduce1_or_spec by assumption.
  destruct (existsb _ row); simpl.
  - exact IH.
  - apply cycle_fold_false.
Qed.

(** Whenever the code returns, it returns the specification's value. *)
Lemma cycleExists_returns g b :
  cycleExists g = Normal b -> b = cycleExists_spec g.
Proof.
  rewrite cycleExists_unfold.
  induction g as [|row g IH]; simpl.
  - congruence.
  - destruct row as [|x rest].
    + simpl. rewrite cycle_fold_throw. discriminate.
    + rewrite reduce1_or_spec by discriminate.
      destruct (existsb _ (x :: rest)); simpl.
      * exact IH.
      * rewrite cycle_fold_false. congruence.
Qed.

Lemma existsb_has_eligible row : existsb (fun b => b) row = true <-> has_eligible row.
Proof.
  unfold has_eligible. rewrite existsb_exists. split.
  - intros [b [Hin Hb]]. now subst.
  - intros Hin. now exists true.
Qed.

Lemma existsb_exhausted row : existsb (fun b => b) row = false <-> exhausted row.
Proof.
  unfold exhausted. split.
  - intros Hex b Hin. destruct b; [|reflexivity].
    assert (existsb (fun b => b) row = true) by (apply existsb_exists; now exists true).
    congruence.
  - intros Hall. destruct (existsb (fun b => b) row) eqn:E; [|reflexivity].
    apply existsb_exists in E. destruct E as [b [Hin Hb]]. subst.
    now apply Hall in Hin.
Qed.

Lemma cycleExists_spec_true g :
  cycleExists_spec g = true <-> Forall has_eligible g.
Proof.
  unfold cycleExists_spec. rewrite forallb_forall, List.Forall_forall.
  split; intros Hg row Hin.
  - apply existsb_has_eligible, Hg, Hin.
  - apply existsb_has_eligible, Hg, Hin.
Qed.

Lemma cycleExists_spec_false g :
  cycleExists_spec g = false <-> Exists exhausted g.
Proof.
  unfold cycleExists_spec. induction g as [|row g IH]; simpl.
  - split; [discriminate|]. intros Hex. inversion Hex.
  - rewrite andb_false_iff, IH, existsb_exhausted. split.
    + intros [Hrow|Hg]; [now left | now right].
    + intros Hex. inversion Hex; subst; [now left | now right].
Qed.

(** C2 as the claim states it, for one grid: [cycleExists] returns [true]
    exactly when every row has a true entry, and returns [false] exactly
    when some row is entirely false. *)
Definition cycleExists_claim (g : list (list bool)) : Prop :=
  (cycleExists g = Normal true <-> Forall has_eligible g) /\
  (cycleExists g = Normal false <-> Exists exhausted g).

(** C2, counterexample: the grid with a single empty row has a row that
    is entirely false, and [cycleExists] does not return [false] on it:
    the inner [reduce] throws a [TypeError]. *)
Lemma cycleExists_empty_row_throws :
  cycleExists [[]] = Throw TypeError /\ ~ cycleExists_claim [[]].
Proof.
  split; [reflexivity|].
  intros [_ [_ Hfalse]].
  assert (Hex : Exists exhausted [[]]).
  { left. intros b Hin. inversion Hin. }
  apply Hfalse in Hex. discriminate.
Qed.

(** C2, amended: on every visitation grid whose rows are all non-empty,
    [cycleExists] returns [true] if and only if every row contains a true
    entry, and returns [false] if and only if some row is entirely
    false. *)
Theorem cycleExists_correct (g : list (list bool)) :
  Forall (fun row => row <> []) g -> cycleExists_claim g.
Proof.
  intros Hrows. unfold cycleExists_claim.
  rewrite (cycleExists_nonempty_rows g Hrows).
  rewrite <- cycleExists_spec_true, <- cycleExists_spec_false.
  split; split; congruence.
Qed.

Lemma cycleExists_correct_witness :
  Forall (fun row : list bool => row <> []) [[true; false]; [false; false]] /\
  cycleExists_claim [[true; false]; [false; false]].
Proof.
  assert (Hrows : Forall (fun row : list bool => row <> []) [[true; false]; [false; false]]).
  { repeat constructor; discriminate. }
  split; [exact Hrows | exact (cycleExists_correct _ Hrows)].
Defined.

(* ------------------------------------------------------------------ *)
(** ** The end scopes: [isLastSection] *)
(* ------------------------------------------------------------------ *)

(** The four end scopes of the specification and the value of [end]
    that selects each. *)
Inductive end_scope : Type := ScSection | ScCycle | ScFullcycle | ScLoop.

Definition scope_name (sc : end_scope) : string :=
  match sc with
  | ScSection => "section"
  | ScCycle => "cycle"
  | ScFullcycle => "fullcycle"
  | ScLoop => "loop"
  end.

Section IsLastSection.
Context {Track : Type} `{TrackOps Track}.

(** [position.set == numSets - 1]. *)
Definition at_last_set (s : Shuffle Track) : Prop :=
  section_set s = VInt (Z.of_nat (length (sections s)) - 1).

Lemma strict_eq_int_true x n : strict_eq_int x n = true <-> x = VInt n.
Proof.
  destruct x; simpl; try (split; [discriminate | congruence]).
  rewrite Z.eqb_eq. split; congruence.
Qed.

Lemma strict_eq_int_false x n : strict_eq_int x n = false <-> x <> VInt n.
Proof.
  rewrite <- strict_eq_int_true. destruct (strict_eq_int x n); split; congruence.
Qed.

(** What [isLastSection] does under each scope: the rows of the table,
    with the outcome under [fullcycle] given in full. *)
Definition isLastSection_row (sc : end_scope) (s : Shuffle Track) : Prop :=
  match sc with
  | ScSection => isLastSection s = Ok true s []
  | ScCycle =>
      exists b, isLastSection s = Ok b s [] /\ (b = true <-> at_last_set s)
  | ScFullcycle =>
      (isLastSection s = Ok true s [] <->
         at_last_set s /\ cycleExists (section_states s) = Normal false) /\
      (isLastSection s = Ok false s [] <->
         ~ at_last_set s \/ cycleExists (section_states s) = Normal true) /\
      (forall e, isLastSection s = Exn e s [] <->
         at_last_set s /\ cycleExists (section_states s) = Throw e)
  | ScLoop => isLastSection s = Ok false s []
  end.

(** C3: under [section] the answer is always true; under [cycle] it is
    true iff [position.set == numSets - 1]; under [fullcycle] it is true
    iff [position.set == numSets - 1] and [cycleExists(visitation)] is
    false; under [loop] it is always false.  The number of section sets
    is arbitrary, so the single-set Shuffle is included. *)
Theorem isLastSection_table (sc : end_scope) (s : Shuffle Track) :
  end_ s = scope_name sc -> isLastSection_row sc s.
Proof.
  intros Hend. unfold isLastSection_row, isLastSection, bind, get, ret, at_last_set.
  rewrite Hend.
  destruct sc; cbn [scope_name String.eqb Ascii.eqb Bool.eqb]; simpl.
  - reflexivity.
  - eexists. split; [reflexivity|]. apply strict_eq_int_true.
  - destruct (strict_eq_int (section_set s) _) eqn:Hlast.
    + apply strict_eq_int_true in Hlast.
      destruct (cycleExists (section_states s)) as [[|]|e]; simpl;
        (split; [|split; [|intros e']]); intuition congruence.
    + apply strict_eq_int_false in Hlast. simpl.
      (split; [|split; [|intros e']]); intuition congruence.
  - reflexivity.
Qed.

End IsLastSection.

(** A Shuffle with a single section set of one section, already played,
    in the [fullcycle] scope. *)
Definition single_set_played : Shuffle Howl :=
mkShuffle 1 None None [[howl "a1"]] [[false]] false false None
  (VInt 0) (VInt 0) playing true "fullcycle".

Lemma isLastSection_table_witness :
  end_ single_set_played = scope_name ScFullcycle /\
  isLastSection_row ScFullcycle single_set_played.
Proof.
split; [reflexivity|].
apply (isLastSection_table ScFullcycle single_set_played). reflexivity.
Defined.

(** The single-set Shuffle whose only section has been played is at its
    last section before the stop. *)
Example isLastSection_single_set :
  isLastSection single_set_played = Ok true single_set_played [].
Proof. reflexivity. Qed.

(* ------------------------------------------------------------------ *)
(** ** The default easing of [fade] *)
(* ------------------------------------------------------------------ *)

Section Easing.
Context {num : Type} `{MathOps num}.

(** The cosine easing, clamped: [clamp(1 - cos(pi t / 2), 0, 1)]. *)
Definition cosine_easing (t : num) : num :=
SonicUtils.clamp
  (js_sub (lit 1) (Math_cos (js_div (js_mul Math_PI t) (lit 2)))) (lit 0) (lit 1).

(** The first statement of the easing applies [gainToPerceptualVolume]
    to [undefined]: the call returns [0.01 * exp(4.605 * 0)]. *)
Lemma gainToPerceptualVolume_undefined :
  Mixins.gainToPerceptualVolume None
  = Normal (js_mul (lit (1 # 100)) (Math_exp (js_mul (lit (4605 # 1000)) (lit 0)))).
Proof. reflexivity. Qed.

(** [gainToPerceptualVolume] returns on every argument. *)
Lemma gainToPerceptualVolume_returns (vol : option num) :
  exists v, Mixins.gainToPerceptualVolume vol = Normal v.
Proof. unfold Mixins.gainToPerceptualVolume. eauto. Qed.

(** C10: for every [t] the default easing returns
    [clamp(1 - cos(pi t / 2), 0, 1)]: the call of
    [gainToPerceptualVolume] on the still undefined [gain] returns
    normally and the value it gives is overwritten. *)
Theorem easing_is_cosine (t : num) :
  Mixins.easing t = Normal (cosine_easing t).
Proof.
unfold Mixins.easing.
destruct (gainToPerceptualVolume_returns None) as [v Hv].
rewrite Hv. reflexivity.
Qed.

End Easing.

(* ------------------------------------------------------------------ *)
(** ** The weighted choice: [biased_random_index] *)
(* ------------------------------------------------------------------ *)

Section WeightedChoice.
Import SonicUtils.
Local Open Scope Q_scope.

(** The running total of the loop after the cell [k]. *)
Definition accumulated (weights : list Q) (k : nat) : Q :=
fold_left Qplus (firstn (S k) weights) 0.

Lemma Math_round_lower x : inject_Z (Math_round x) <= x + (1 # 2).
Proof. apply Qfloor_le. Qed.

Lemma Math_round_upper x : x + (1 # 2) < inject_Z (Math_round x) + 1.
Proof.
unfold Math_round.
pose proof (Qlt_floor (x + (1 # 2))) as Hlt.
rewrite inject_Z_plus in Hlt. exact Hlt.
Qed.

(** [Math.round] is the integer [i] exactly on [i - 1/2 <= x < i + 1/2]. *)
Lemma Math_round_spec x (i : Z) :
  Math_round x = i <-> inject_Z i - (1 # 2) <= x /\ x < inject_Z i + (1 # 2).
Proof.
split.
- intros <-. pose proof (Math_round_lower x). pose proof (Math_round_upper x).
  split; lra.
- intros [Hlo Hhi]. unfold Math_round.
  apply Z.le_antisymm.
  + assert (Hlt : (Qfloor (x + (1 # 2)) < i + 1)%Z).
    { rewrite Zlt_Qlt. pose proof (Qfloor_le (x + (1 # 2))).
      rewrite inject_Z_plus. change (inject_Z 1) with 1. lra. }
    lia.
  + rewrite <- (Qfloor_Z i). apply Qfloor_resp_le. lra.
Qed.

(** The empty weight vector gives [undefined]. *)
Lemma biased_random_index_empty rnd rnd' : biased_random_index [] rnd rnd' = None.
Proof. reflexivity. Qed.

(** [random_index] stays inside the array. *)
Lemma random_index_in_range (len : nat) (rnd : Q) :
  (0 < len)%nat -> 0 <= rnd -> rnd < 1 ->
  exists i, random_index len rnd = Some i /\ (0 <= i < Z.of_nat len)%Z.
Proof.
intros Hlen Hlo Hhi. unfold random_index.
destruct (Nat.eqb_spec len 0) as [->|_]; [lia|].
eexists. split; [reflexivity|].
set (m := (Z.of_nat len - 1)%Z).
assert (Hm : 0 <= inject_Z m).
{ change 0 with (inject_Z 0). rewrite <- Zle_Qle. lia. }
pose proof (Math_round_lower (rnd * inject_Z m)) as Hl.
pose proof (Math_round_upper (rnd * inject_Z m)) as Hu.
assert (Hprod : 0 <= rnd * inject_Z m /\ rnd * inject_Z m <= inject_Z m) by (split; nra).
split.
- assert (Hgt : (-1 < Math_round (rnd * inject_Z m))%Z).
  { rewrite Zlt_Qlt. change (inject_Z (-1)) with (-1). lra. }
  lia.
- assert (Hlt : (Math_round (rnd * inject_Z m) < m + 1)%Z).
  { rewrite Zlt_Qlt, inject_Z_plus. change (inject_Z 1) with 1. lra. }
  lia.
Qed.

(** The loop returns the first cell at which the running total reaches
    the drawn number. *)
Lemma walk_first (weights : list Q) (i : nat) (acc magic : Q) (j : nat) :
  walk weights i acc magic = Some j <->
  exists k, j = (i + k)%nat /\ (k < length weights)%nat /\
    magic <= fold_left Qplus (firstn (S k) weights) acc /\
    forall k', (k' < k)%nat -> ~ magic <= fold_left Qplus (firstn (S k') weights) acc.
Proof.
revert i acc j. induction weights as [|w rest IH]; intros i acc j.
- simpl. split; [discriminate|]. intros [k [_ [Hk _]]]. lia.
- cbn [walk]. destruct (Qle_bool magic (acc + w)) eqn:Hle.
  + apply Qle_bool_iff in Hle. split.
    * intros [= <-]. exists 0%nat. split; [lia|]. split; [simpl; lia|].
      split; [exact Hle|]. intros k' Hk'. lia.
    * intros [k [-> [_ [Hreach Hfirst]]]].
      destruct k as [|k]; [f_equal; lia|].
      exfalso. apply (Hfirst 0%nat); [lia|]. exact Hle.
  + assert (Hnle : ~ magic <= acc + w).
    { intros Hc. apply Qle_bool_iff in Hc. congruence. }
    rewrite IH. split.
    * intros [k [-> [Hk [Hreach Hfirst]]]].
      exists (S k). split; [lia|]. split; [simpl; lia|].
      split; [exact Hreach|].
      intros [|k'] Hlt; [exact Hnle|].
      apply (Hfirst k'). lia.
    * intros [k [-> [Hk [Hreach Hfirst]]]].
      destruct k as [|k]; [contradiction|].
      exists k. split; [lia|]. split; [simpl in Hk; lia|].
      split; [exact Hreach|].
      intros k' Hlt. apply (Hfirst (S k')). lia.
Qed.

(** A property of the cells that holds somewhere holds at a first cell. *)
Lemma first_cell (P : nat -> Prop) (n : nat) :
  (forall k, P k \/ ~ P k) -> P n ->
  exists k, (k <= n)%nat /\ P k /\ forall k', (k' < k)%nat -> ~ P k'.
Proof.
intros Hdec Hn.
assert (Hscan : forall m,
  (forall k, (k <= m)%nat -> ~ P k) \/
  (exists k, (k <= m)%nat /\ P k /\ forall k', (k' < k)%nat -> ~ P k')).
{ induction m as [|m [Hnone|[k [Hk [HP Hfirst]]]]].
  - destruct (Hdec 0%nat) as [H0|H0].
    + right. exists 0%nat. split; [lia|]. split; [exact H0|]. intros k' Hk'. lia.
    + left. intros k Hk. replace k with 0%nat by lia. exact H0.
  - destruct (Hdec (S m)) as [HS|HS].
    + right. exists (S m). split; [lia|]. split; [exact HS|].
      intros k' Hk'. apply Hnone. lia.
    + left. intros k Hk. destruct (Nat.eq_dec k (S m)) as [->|Hne]; [exact HS|].
      apply Hnone. lia.
  - right. exists k. split; [lia|]. split; assumption. }
destruct (Hscan n) as [Hnone|Hsome]; [|exact Hsome].
exfalso. exact (Hnone n (Nat.le_refl n) Hn).
Qed.

Lemma fold_Qplus_acc (l : list Q) (acc : Q) :
  fold_left Qplus l acc == acc + fold_left Qplus l 0.
Proof.
revert acc. induction l as [|x l IH]; intros acc; simpl.
- lra.
- rewrite IH, (IH (0 + x)). lra.
Qed.

Lemma fold_Qplus_app (l l' : list Q) :
  fold_left Qplus (l ++ l') 0 == fold_left Qplus l 0 + fold_left Qplus l' 0.
Proof. rewrite fold_left_app. apply fold_Qplus_acc. Qed.

(** Summing from the last element down gives the same total. *)
Lemma sum_forward (l : list Q) : sum l == fold_left Qplus l 0.
Proof.
unfold sum. induction l as [|x l IH]; simpl; [reflexivity|].
rewrite fold_Qplus_app, IH. simpl.
rewrite (fold_Qplus_acc l (0 + x)). lra.
Qed.

Lemma accumulated_last (weights : list Q) :
  weights <> [] -> accumulated weights (pred (length weights)) == sum weights.
Proof.
intros Hne. unfold accumulated.
destruct weights as [|w rest]; [congruence|].
cbn [length pred]. rewrite firstn_all2 by (simpl; lia).
symmetry. apply sum_forward.
Qed.

(** With a positive total and a draw in [0,1), the loop always returns:
    the index is the first one whose accumulated total reaches
    [rnd * total], and it is inside the array. *)
Lemma biased_random_index_positive (weights : list Q) (rnd rnd' : Q) :
  0 < sum weights -> 0 <= rnd -> rnd < 1 ->
  exists i, biased_random_index weights rnd rnd' = Some (Z.of_nat i) /\
    (i < length weights)%nat /\
    rnd * sum weights <= accumulated weights i /\
    forall k, (k < i)%nat -> ~ rnd * sum weights <= accumulated weights k.
Proof.
intros Hpos Hlo Hhi. unfold biased_random_index.
destruct weights as [|w rest] eqn:Hw; [unfold sum in Hpos; simpl in Hpos; lra|].
rewrite <- Hw in *. assert (Hne : weights <> []) by (subst; discriminate).
replace (length weights =? 0)%nat with false by (subst; reflexivity).
destruct (Qeq_bool (sum weights) 0) eqn:Hz.
{ apply Qeq_bool_iff in Hz. lra. }
assert (Hreach : rnd * sum weights <= accumulated weights (pred (length weights))).
{ rewrite accumulated_last by assumption. nra. }
destruct (first_cell (fun k => rnd * sum weights <= accumulated weights k)
            (pred (length weights))) as [k [Hk [Hrk Hfk]]]; [|exact Hreach|].
{ intros k. destruct (Qlt_le_dec (accumulated weights k) (rnd * sum weights)).
  - right. lra.
  - left. assumption. }
assert (Hwalk : walk weights 0 0 (rnd * sum weights) = Some k).
{ apply walk_first. exists k. repeat split; auto.
  destruct weights; simpl in *; [congruence|lia]. }
rewrite Hwalk. exists k. repeat split; auto.
destruct weights; simpl in *; [congruence|lia].
Qed.

(** The fallback on three cells: half of the unit interval gives the
    middle index. *)
Lemma random_index_middle_of_three (rnd : Q) :
  1 # 4 <= rnd -> rnd < 3 # 4 -> random_index 3 rnd = Some 1%Z.
Proof.
intros Hlo Hhi. unfold random_index. cbn [Nat.eqb]. f_equal.
apply Math_round_spec. change (inject_Z (Z.of_nat 3 - 1)) with 2.
change (inject_Z 1) with 1. split; lra.
Qed.

(** The fallback on [len >= 2] cells gives the first index exactly on
    the draws below [1 / (2 (len - 1))]: for three cells or more that is
    less than the share [1 / len] of a uniform choice. *)
Lemma random_index_first_bin (len : nat) (rnd : Q) :
  (2 <= len)%nat -> 0 <= rnd ->
  (random_index len rnd = Some 0%Z <-> rnd * inject_Z (2 * (Z.of_nat len - 1)) < 1).
Proof.
intros Hlen Hlo. unfold random_index.
destruct (Nat.eqb_spec len 0) as [->|_]; [lia|].
set (m := (Z.of_nat len - 1)%Z).
assert (Hm : 1 <= inject_Z m).
{ change 1 with (inject_Z 1). rewrite <- Zle_Qle. lia. }
rewrite inject_Z_mult. change (inject_Z 2) with 2.
split.
- intros [= Hr]. apply Math_round_spec in Hr. change (inject_Z 0) with 0 in Hr. lra.
- intros Hlt. f_equal. apply Math_round_spec. change (inject_Z 0) with 0.
  split; nra.
Qed.

(** Sixteen equally spaced values of [Math.random()]. *)
Definition draws16 : list Q := map (fun k => Z.of_nat k # 16) (seq 0 16).

(** C4, on the weights [0, 0, 0]: over sixteen equally spaced draws the
    fallback returns the index 1 eight times and the indices 0 and 2 four
    times each.  A uniform choice returns each index equally often. *)
Theorem biased_random_index_zero_weights_skewed :
  map (fun rnd => biased_random_index [0; 0; 0] rnd 0) draws16
  = [Some 0; Some 0; Some 0; Some 0;
     Some 1; Some 1; Some 1; Some 1; Some 1; Some 1; Some 1; Some 1;
     Some 2; Some 2; Some 2; Some 2]%Z.
Proof. vm_compute. reflexivity. Qed.

End WeightedChoice.

(* ------------------------------------------------------------------ *)
(** ** The Shuffle: [stop] and [volume] *)
(* ------------------------------------------------------------------ *)

Section ShuffleMethods.
Context {Track : Type} `{TrackOps Track}.
Variable listeners : event -> list (Shuffle Track -> Shuffle Track).

(** The Shuffle after the handlers of an event have run on it. *)
Definition heard (e : event) (s : Shuffle Track) : Shuffle Track :=
fold_left (fun s cb => cb s) (listeners e) s.

(** The Shuffle after [fn] has been called on every Howl it owns. *)
Definition each_track (fn : Track -> Track) (s : Shuffle Track) : Shuffle Track :=
set_sections (map (map fn) (sections s)) (set_intro (option_map fn (intro s)) s).

Lemma trigger_run (e : event) (s : Shuffle Track) :
  trigger listeners e s = Ok tt (heard e s) [Triggered e].
Proof. reflexivity. Qed.

Lemma forEachSection_run (fn : Track -> Track) (s : Shuffle Track) :
  forEachSection fn s = Ok tt (each_track fn s) [].
Proof. reflexivity. Qed.

(** Every owned Howl, and nothing else, has received the call. *)
Lemma deref_each_track (fn : Track -> Track) (s : Shuffle Track) (r : track_ref) :
  deref r (each_track fn s) = option_map fn (deref r s).
Proof.
destruct r as [|i j]; simpl; [reflexivity|].
rewrite list_lookup_fmap.
destruct (sections s !! i) as [row|]; simpl; [|reflexivity].
rewrite list_lookup_fmap. destruct (row !! j); reflexivity.
Qed.

Lemma resetSectionsPlayed_all_true {T} (grid : list (list T)) :
  Forall (Forall (fun b => b = true)) (resetSectionsPlayed grid).
Proof.
unfold resetSectionsPlayed.
induction grid as [|row grid IH]; simpl; constructor; [|exact IH].
induction row; simpl; constructor; auto.
Qed.

Lemma resetSectionsPlayed_shape {T} (grid : list (list T)) :
  map (@length bool) (resetSectionsPlayed grid) = map (@length T) grid.
Proof.
unfold resetSectionsPlayed. rewrite map_map.
apply map_ext. intros row. apply length_map.
Qed.

(** The Shuffle when [stop] triggers the [stop] event. *)
Definition at_stop_event (s : Shuffle Track) : Shuffle Track :=
let s := each_track howl_stop (set_state stopped s) in
set_section_states (resetSectionsPlayed (sections s))
  (set_section VNull (set_section_set VNull s)).

(** C8: whatever the state of the Shuffle, [stop()] returns; it has then
    called [stop] on every Howl the Shuffle owns (the intro when there is
    one, every section of every set), set [position.set] and
    [position.section] to [null], made every entry of the visitation grid
    true, set the play state to [stopped], and with the Shuffle in that
    state triggered [stop], the only event of the call. *)
Theorem stop_establishes (s : Shuffle Track) :
  exists s',
    stop listeners s = Ok tt (heard EvStop s') [Triggered EvStop] /\
    (forall r t, deref r s = Some t -> deref r s' = Some (howl_stop t)) /\
    (forall r, deref r s = None -> deref r s' = None) /\
    section_set s' = VNull /\
    section s' = VNull /\
    Forall (Forall (fun b => b = true)) (section_states s') /\
    map (@length bool) (section_states s') = map (@length Track) (sections s') /\
    state s' = stopped.
Proof.
exists (at_stop_event s). split; [reflexivity|].
split; [|split].
- intros r t Hr. unfold at_stop_event.
  change (deref r (each_track howl_stop (set_state stopped s)) = Some (howl_stop t)).
  rewrite deref_each_track.
  change (deref r (set_state stopped s)) with (deref r s). now rewrite Hr.
- intros r Hr. unfold at_stop_event.
  change (deref r (each_track howl_stop (set_state stopped s)) = None).
  rewrite deref_each_track.
  change (deref r (set_state stopped s)) with (deref r s). now rewrite Hr.
- repeat split.
  + apply resetSectionsPlayed_all_true.
  + apply resetSectionsPlayed_shape.
Qed.

(** The setter of [volume] as C9 states it: the gain becomes the clamped
    value, [volume] is triggered with that value, every Howl that is not
    fading gets that volume and every fading Howl is left alone. *)
Definition volume_claim (s : Shuffle Track) (v : Q) : Prop :=
let vol := SonicUtils.clamp v 0%Q 1%Q in
exists s' tr,
  volume listeners (Some v) s = Ok None s' tr /\
  In (Triggered (EvVolume vol)) tr /\
  gain s' = vol /\
  forall r t, deref r s = Some t ->
    deref r s' = Some (if howl_isFading t then t else howl_volume vol t).

(** The Shuffle when [volume] has stored the gain and the handlers of
    [volume] have run. *)
Definition after_volume_event (s : Shuffle Track) (v : Q) : Shuffle Track :=
let vol := SonicUtils.clamp v 0%Q 1%Q in
heard (EvVolume vol) (set_gain vol s).

(** What [volume(v)] does on a Shuffle that is not muted. *)
Definition volume_post (s : Shuffle Track) (v : Q) : Prop :=
let vol := SonicUtils.clamp v 0%Q 1%Q in
let s1 := after_volume_event s v in
exists s',
  volume listeners (Some v) s = Ok None s' [Triggered (EvVolume vol)] /\
  gain (set_gain vol s) = vol /\
  s' = each_track (fun t => if howl_isFading t then t else howl_volume vol t) s1 /\
  gain s' = gain s1 /\
  (forall r t, deref r s1 = Some t ->
     deref r s' = Some (if howl_isFading t then t else howl_volume vol t)) /\
  (forall r, deref r s1 = None -> deref r s' = None).

(** C9, amended: for every Shuffle and every number [v], [volume(v)]
    clamps [v] to [0,1], stores the result as the gain and triggers
    [volume] with it; then, when the Shuffle is not muted, it sets the
    volume of every owned Howl that is not fading to that value and
    leaves every fading Howl, and every other field, as they are. *)
Theorem volume_unmuted (s : Shuffle Track) (v : Q) :
  muted (after_volume_event s v) = false -> volume_post s v.
Proof.
intros Hm. unfold volume_post.
set (vol := SonicUtils.clamp v 0%Q 1%Q). set (s1 := after_volume_event s v).
eexists. split.
- unfold volume, volume_set, bind, modify, get, ret. rewrite trigger_run.
  fold vol. change (heard (EvVolume vol) (set_gain vol s)) with s1.
  unfold s1 at 1. rewrite Hm. rewrite forEachSection_run. reflexivity.
- split; [reflexivity|]. split; [reflexivity|]. split; [reflexivity|]. split.
  + intros r t Hr. rewrite deref_each_track, Hr. reflexivity.
  + intros r Hr. rewrite deref_each_track, Hr. reflexivity.
Qed.

(** On a muted Shuffle [volume(v)] stores the gain, triggers [volume]
    and then calls [mute()]: every owned Howl is muted, none gets the
    new volume from this call. *)
Lemma volume_muted (s : Shuffle Track) (v : Q) :
  muted (after_volume_event s v) = true ->
  let vol := SonicUtils.clamp v 0%Q 1%Q in
  let s1 := after_volume_event s v in
  volume listeners (Some v) s
  = Ok None (heard (EvMute true) (each_track howl_mute (set_muted true s1)))
      [Triggered (EvVolume vol); Triggered (EvMute true)].
Proof.
intros Hm vol s1.
unfold volume, volume_set, bind, modify, get, ret. rewrite trigger_run.
fold vol. change (heard (EvVolume vol) (set_gain vol s)) with s1.
unfold s1 at 1. rewrite Hm. reflexivity.
Qed.

(** Without an argument [volume] reads the gain and changes nothing. *)
Lemma volume_getter (s : Shuffle Track) :
  volume listeners None s = Ok (Some (gain s)) s [].
Proof. reflexivity. Qed.


(* ------------------------------------------------------------------ *)
(** ** The automaton: [moveToSucessorState] *)
(* ------------------------------------------------------------------ *)

(** [position.set] as a number, [null] counting as 0 as in [null + 1]. *)
Definition position_number (x : jsval) : Z :=
match x with
| VInt k => k
| _ => 0
end.

(** The values [position.set] takes: [null], [-1] for the intro, or the
    index of a section set. *)
Definition valid_position (s : Shuffle Track) : Prop :=
match section_set s with
| VNull => True
| VInt k => -1 <= k
| _ => False
end.

(** The grid has one row per section set, of the length of the set. *)
Definition grid_matches (s : Shuffle Track) : Prop :=
map (@length bool) (section_states s) = map (@length Track) (sections s).

(** Step 1 of the specification: [(position.set + 1) mod len(sections)]. *)
Definition next_set (s : Shuffle Track) : Z :=
(position_number (section_set s) + 1) mod Z.of_nat (length (sections s)).

Definition entered (s : Shuffle Track) : Shuffle Track :=
set_section_set (VInt (next_set s)) s.

(** Step 2: the automaton wraps to set 0 with some row exhausted. *)
Definition wraps (s : Shuffle Track) : bool :=
(next_set s =? 0) && negb (cycleExists_spec (section_states s)).

(** The Shuffle after steps 1 and 2, and what these steps trigger. *)
Definition before_pick (s : Shuffle Track) : Shuffle Track :=
if wraps s then
  let s' := heard EvFullcycle (entered s) in
  set_section_states (resetSectionsPlayed (sections s')) s'
else entered s.

Definition advance_trace (s : Shuffle Track) : list observation :=
if wraps s then [Triggered EvFullcycle] else [].

(** Steps 4 to 6 on the Shuffle [s2] reached after steps 1 and 2: the
    call returns the Howl at [(i, j)], where [i] is [position.set] and
    [j] an eligible index of the row [i], now marked as played. *)
Definition picks (s2 : Shuffle Track) (o : outcome (Shuffle Track) observation js_error (jsref track_ref))
  (tr : list observation) : Prop :=
exists (i j : nat) (row : list bool),
  section_set s2 = VInt (Z.of_nat i) /\
  section_states s2 !! i = Some row /\
  row !! j = Some true /\
  is_Some (deref (SectionAt i j) s2) /\
  o = Ok (RObj (SectionAt i j))
        (set_section_states (<[i := <[j := false]> row]> (section_states s2))
           (set_section (VInt (Z.of_nat j)) s2))
        tr.

(** One call of the advance operation as C1 states it. *)
Definition advance_claim (s : Shuffle Track) (rnd : Q) : Prop :=
state s = playing -> sections s <> [] ->
valid_position s -> grid_matches s -> (0 <= rnd)%Q -> (rnd < 1)%Q ->
let s2 := before_pick s in
if bool_decide (state s2 = playing)
then picks s2 (moveToSucessorState listeners rnd s) (advance_trace s)
else moveToSucessorState listeners rnd s = Ok RNull s2 (advance_trace s).

(** The row at [position.set] has an eligible entry. *)
Definition eligible_here (s : Shuffle Track) : Prop :=
exists row, js_index (section_states s) (section_set s) = Some row /\ has_eligible row.

Lemma step1_position (s : Shuffle Track) :
  sections s <> [] -> valid_position s ->
  js_rem (js_succ (section_set s)) (length (sections s)) = VInt (next_set s).
Proof.
intros Hne Hv. unfold valid_position in Hv. unfold next_set.
assert (Hlen : Z.of_nat (length (sections s)) <> 0).
{ destruct (sections s); [congruence | simpl; lia]. }
destruct (section_set s) as [| | |k]; try contradiction; simpl;
  destruct (Z.eqb_spec (Z.of_nat (length (sections s))) 0); try contradiction.
- rewrite Z.rem_mod_nonneg by lia. reflexivity.
- rewrite Z.rem_mod_nonneg by lia. reflexivity.
Qed.

Lemma next_set_range (s : Shuffle Track) :
  sections s <> [] -> 0 <= next_set s < Z.of_nat (length (sections s)).
Proof.
intros Hne. unfold next_set. apply Z.mod_pos_bound.
destruct (sections s); [congruence | simpl; lia].
Qed.

(** The numbered, filtered row holds exactly the indices of the true
    entries. *)
Lemma possible_of_spec (row : list bool) (z : Z) :
  In z (possible_of row) <-> exists j, z = Z.of_nat j /\ row !! j = Some true.
Proof.
unfold possible_of. rewrite <- list_elem_of_In, list_elem_of_omap. split.
- intros [o [Ho Hz]]. simpl in Hz. subst o.
  apply list_elem_of_lookup in Ho. destruct Ho as [j Hj].
  rewrite list_lookup_imap in Hj.
  destruct (row !! j) as [[|]|] eqn:Hrow; simpl in Hj; try discriminate.
  injection Hj as <-. now exists j.
- intros [j [-> Hj]]. exists (Some (Z.of_nat j)). split; [|reflexivity].
  apply list_elem_of_lookup. exists j. rewrite list_lookup_imap, Hj. reflexivity.
Qed.

(** With a draw in [0,1), [random_choice] returns an element of a
    non-empty array. *)
Lemma random_choice_member {A} (array : list A) (rnd : Q) :
  array <> [] -> (0 <= rnd)%Q -> (rnd < 1)%Q ->
  exists a, SonicUtils.random_choice array rnd = Some a /\ In a array.
Proof.
intros Hne Hlo Hhi. unfold SonicUtils.random_choice.
assert (Hlen : (0 < length array)%nat) by (destruct array; [congruence | simpl; lia]).
destruct (Nat.eqb_spec (length array) 0) as [Hz|_]; [lia|].
destruct (random_index_in_range (length array) rnd Hlen Hlo Hhi) as [i [-> Hi]].
unfold js_index. destruct (Z.leb_spec 0 i) as [_|?]; [|lia].
destruct (array !! Z.to_nat i) as [a|] eqn:Ha.
- exists a. split; [reflexivity|].
  apply list_elem_of_In, list_elem_of_lookup. now exists (Z.to_nat i).
- apply lookup_ge_None in Ha. lia.
Qed.

Lemma bind_Ok {St Ev Err A B} (m : M St Ev Err A) (k : A -> M St Ev Err B)
    (s : St) (a : A) (s1 : St) (tr1 : list Ev) :
  m s = Ok a s1 tr1 ->
  bind m k s = match k a s1 with
               | Ok b s2 tr2 => Ok b s2 (tr1 ++ tr2)
               | Exn e s2 tr2 => Exn e s2 (tr1 ++ tr2)
               end.
Proof. intros Hm. unfold bind. now rewrite Hm. Qed.

Lemma bind_Ok_silent {St Ev Err A B} (m : M St Ev Err A) (k : A -> M St Ev Err B)
    (s : St) (a : A) (s1 : St) :
  m s = Ok a s1 [] -> bind m k s = k a s1.
Proof. intros Hm. unfold bind. rewrite Hm. now destruct (k a s1). Qed.

(** Steps 4 to 6 as the code runs them, on the Shuffle reached after
    steps 1 and 2 when it is still playing. *)
Definition pick_run (rnd : Q) (s2 : Shuffle Track)
  : outcome (Shuffle Track) observation js_error (jsref track_ref) :=
match js_index (section_states s2) (section_set s2) with
| None => Exn TypeError s2 []
| Some row =>
    let chosen :=
      match SonicUtils.random_choice (possible_of row) rnd with
      | Some j => VInt j
      | None => VUndefined
      end in
    nowPlaying
      (set_section_states
         (alter (fun row => js_store row chosen false)
            (match section_set s2 with VInt i => Z.to_nat i | _ => 0%nat end)
            (section_states s2))
         (set_section chosen s2))
end.

(** Steps 1 and 2 of [moveToSucessorState], run: what is left is the
    test of the play state and the pick, on [before_pick s]. *)
Lemma moveToSucessorState_steps (s : Shuffle Track) (rnd : Q) :
  sections s <> [] -> valid_position s ->
  Forall (fun row => row <> []) (section_states s) ->
  moveToSucessorState listeners rnd s =
    match (if negb (bool_decide (state (before_pick s) = playing))
           then Ok RNull (before_pick s) []
           else pick_run rnd (before_pick s)) with
    | Ok b s3 tr => Ok b s3 (advance_trace s ++ tr)
    | Exn e s3 tr => Exn e s3 (advance_trace s ++ tr)
    end.
Proof.
intros Hne Hvalid Hrows.
unfold moveToSucessorState.
rewrite (bind_Ok_silent _ _ s tt (entered s));
  [|unfold modify; now rewrite (step1_position s Hne Hvalid)].
rewrite (bind_Ok_silent _ _ (entered s) (entered s) (entered s)) by reflexivity.
rewrite (bind_Ok_silent _ _ (entered s) (wraps s) (entered s)).
2:{ change (section_set (entered s)) with (VInt (next_set s)).
    change (section_states (entered s)) with (section_states s).
    unfold wraps.
    change (strict_eq_int (VInt (next_set s)) 0) with (next_set s =? 0).
    destruct (next_set s =? 0); [|reflexivity].
    rewrite (cycleExists_nonempty_rows _ Hrows). reflexivity. }
rewrite (bind_Ok _ _ (entered s) tt (before_pick s) (advance_trace s)).
2:{ unfold before_pick, advance_trace. destruct (wraps s); reflexivity. }
set (s2 := before_pick s).
rewrite (bind_Ok_silent _ _ s2 s2 s2) by reflexivity.
destruct (negb (bool_decide (state s2 = playing))); [reflexivity|].
unfold pick_run.
destruct (js_index (section_states s2) (section_set s2)) as [row|]; [|reflexivity].
rewrite (bind_Ok_silent _ _ s2 tt _) by reflexivity.
rewrite (bind_Ok_silent _ _ _ tt _) by reflexivity.
reflexivity.
Qed.

(** The pick on a Shuffle whose grid matches its sections and whose row
    at [position.set] has an eligible entry: an eligible index is stored
    as [position.section] and marked as played, and the Howl at that
    place is returned. *)
Lemma pick_of_eligible (s2 : Shuffle Track) (rnd : Q) :
  grid_matches s2 -> eligible_here s2 -> (0 <= rnd)%Q -> (rnd < 1)%Q ->
  picks s2 (pick_run rnd s2) [].
Proof.
intros Hgrid2 [row [Hrow Htrue]] Hlo Hhi. unfold pick_run.
rewrite Hrow. cbv zeta.
(* the draw *)
assert (Hposs : possible_of row <> []).
{ unfold has_eligible in Htrue.
  apply list_elem_of_In, list_elem_of_lookup in Htrue. destruct Htrue as [j Hj].
  assert (Hin : In (Z.of_nat j) (possible_of row)).
  { apply possible_of_spec. now exists j. }
  intros Hnil. rewrite Hnil in Hin. inversion Hin. }
destruct (random_choice_member _ rnd Hposs Hlo Hhi) as [z [Hz Hzin]].
rewrite Hz.
apply possible_of_spec in Hzin. destruct Hzin as [j [-> Hj]].
(* the position *)
unfold js_index in Hrow.
destruct (section_set s2) as [| | |zi] eqn:Hset; try discriminate.
destruct (Z.leb_spec 0 zi) as [Hzi|?]; [|discriminate].
exists (Z.to_nat zi), j, row.
rewrite Z2Nat.id by assumption.
split; [exact Hset|]. split; [exact Hrow|]. split; [exact Hj|].
(* the Howl at that place *)
pose proof Hgrid2 as Hshape. unfold grid_matches in Hshape.
assert (Htrack : exists trow t, sections s2 !! Z.to_nat zi = Some trow /\
                   trow !! j = Some t).
{ assert (Hl : map (@length bool) (section_states s2) !! Z.to_nat zi
               = Some (length row)).
  { rewrite list_lookup_fmap, Hrow. reflexivity. }
  rewrite Hshape, list_lookup_fmap in Hl.
  destruct (sections s2 !! Z.to_nat zi) as [trow|] eqn:Htrow; [|discriminate].
  simpl in Hl. injection Hl as Hl.
  apply lookup_lt_Some in Hj. rewrite <- Hl in Hj.
  apply lookup_lt_is_Some_2 in Hj. destruct Hj as [t Ht].
  now exists trow, t. }
destruct Htrack as [trow [t [Htrow Ht]]].
split.
{ simpl. rewrite Htrow. simpl. rewrite Ht. eauto. }
unfold nowPlaying, bind, get, ret. simpl.
rewrite Hset. simpl.
destruct (Z.eqb_spec zi (-1)) as [?|_]; [lia|].
unfold js_index. destruct (Z.leb_spec 0 zi) as [_|?]; [|lia].
rewrite Htrow.
destruct (Z.leb_spec 0 (Z.of_nat j)) as [_|?]; [|lia].
rewrite Nat2Z.id, Ht. simpl.
f_equal.
unfold set_section_states, set_section. simpl. f_equal.
apply list_eq. intros k.
destruct (Nat.eq_dec k (Z.to_nat zi)) as [->|Hk].
- rewrite list_lookup_alter_eq, Hrow. simpl.
  rewrite list_lookup_insert_eq by (now apply lookup_lt_Some in Hrow).
  reflexivity.
- rewrite list_lookup_alter_ne by congruence.
  rewrite list_lookup_insert_ne by congruence. reflexivity.
Qed.

(** C1, amended: on a Shuffle that is playing, has a section set, has a
    grid with one non-empty row per set and a position that is [null] or
    at least [-1], one call of [moveToSucessorState] sets [position.set]
    to [(position.set + 1) mod len(sections)]; if that is 0 and
    [cycleExists] is false it triggers [fullcycle] and makes every entry
    of the grid true.  If the Shuffle is then no longer playing the call
    returns [null].  Otherwise, when the row at [position.set] has an
    eligible entry, the call sets [position.section] to the index [j] of
    such an entry (the one that [random_choice] takes from the eligible
    indices), marks it false and returns the Howl at
    [sections[position.set][j]]. *)
Theorem moveToSucessorState_advances (s : Shuffle Track) (rnd : Q) :
  Forall (fun row => row <> []) (section_states s) ->
  (state (before_pick s) = playing -> eligible_here (before_pick s)) ->
  advance_claim s rnd.
Proof.
intros Hrows Helig Hplay Hne Hvalid Hgrid Hlo Hhi s2.
(* steps 1 and 2 keep the shape of the grid *)
assert (Hgrid2 : grid_matches s2).
{ unfold s2, before_pick, grid_matches. destruct (wraps s).
  - apply resetSectionsPlayed_shape.
  - exact Hgrid. }
rewrite (moveToSucessorState_steps s rnd Hne Hvalid Hrows). fold s2.
destruct (bool_decide (state s2 = playing)) eqn:Hbd; cbn [negb].
- (* still playing: the pick *)
  apply bool_decide_eq_true in Hbd.
  destruct (pick_of_eligible s2 rnd Hgrid2 (Helig Hbd) Hlo Hhi)
    as (i & j & row & Hset & Hrow & Hj & Hderef & Hrun).
  rewrite Hrun, app_nil_r.
  exists i, j, row. repeat split; assumption.
- (* stopped or paused by a handler of [fullcycle] *)
  now rewrite app_nil_r.
Qed.

(** *** The rows ahead stay eligible *)

(** The automaton is inside a cycle: the position is the index of a
    section set, the grid has one non-empty row per set, and every row
    after the position still has an eligible entry. *)
Definition in_cycle (s : Shuffle Track) : Prop :=
sections s <> [] /\ grid_matches s /\
Forall (fun row => row <> []) (section_states s) /\
exists k, section_set s = VInt (Z.of_nat k) /\ (k < length (sections s))%nat /\
  forall i row, (k < i)%nat -> section_states s !! i = Some row -> has_eligible row.

Lemma grid_length (s : Shuffle Track) :
  grid_matches s -> length (section_states s) = length (sections s).
Proof.
intros Hgrid. unfold grid_matches in Hgrid.
apply (f_equal (@length nat)) in Hgrid. now rewrite !length_map in Hgrid.
Qed.

(** [next] starts from the last set when the position is [null] or
    [-1]: the automaton is then inside a cycle, no row being ahead. *)
Lemma in_cycle_start (s : Shuffle Track) :
  sections s <> [] -> grid_matches s ->
  Forall (fun row => row <> []) (section_states s) ->
  in_cycle (set_section_set (VInt (Z.of_nat (length (sections s)) - 1)) s).
Proof.
intros Hne Hgrid Hrows. split; [exact Hne|]. split; [exact Hgrid|]. split; [exact Hrows|].
assert (Hlen : (0 < length (sections s))%nat).
{ destruct (sections s); [congruence | simpl; lia]. }
exists (length (sections s) - 1)%nat. cbn [section_set set_section_set sections section_states].
split; [f_equal; lia|]. split; [lia|].
intros i row Hi Hrow. apply lookup_lt_Some in Hrow.
rewrite (grid_length s Hgrid) in Hrow. lia.
Qed.

Lemma reset_row_eligible {T} (grid : list (list T)) i row :
  Forall (fun r => r <> []) grid ->
  resetSectionsPlayed grid !! i = Some row -> has_eligible row.
Proof.
intros Hne Hrow. unfold resetSectionsPlayed in Hrow.
rewrite list_lookup_fmap in Hrow.
destruct (grid !! i) as [r|] eqn:Hr; [|discriminate].
injection Hrow as <-.
assert (Hin : r <> []).
{ rewrite List.Forall_forall in Hne. apply Hne.
  apply list_elem_of_In, list_elem_of_lookup. now exists i. }
destruct r as [|t r]; [congruence|]. left. reflexivity.
Qed.

Lemma sets_nonempty (s : Shuffle Track) :
  grid_matches s -> Forall (fun row => row <> []) (section_states s) ->
  Forall (fun r => r <> []) (sections s).
Proof.
intros Hgrid Hrows. rewrite List.Forall_forall in *. intros r Hin.
apply list_elem_of_In, list_elem_of_lookup in Hin. destruct Hin as [i Hi].
assert (Hl : map (@length Track) (sections s) !! i = Some (length r)).
{ rewrite list_lookup_fmap, Hi. reflexivity. }
unfold grid_matches in Hgrid. rewrite <- Hgrid, list_lookup_fmap in Hl.
destruct (section_states s !! i) as [row|] eqn:Hrow; [|discriminate].
simpl in Hl. injection Hl as Hl.
assert (Hnz : row <> []).
{ apply Hrows. apply list_elem_of_In, list_elem_of_lookup. now exists i. }
destruct r; [|discriminate]. destruct row; [congruence | discriminate].
Qed.

Section NoFullcycleHandler.
Hypothesis no_handler : listeners EvFullcycle = [].

(** Inside a cycle, after steps 1 and 2, every row from the position on
    has an eligible entry. *)
Lemma in_cycle_before_pick (s : Shuffle Track) :
  in_cycle s ->
  exists i,
    section_set (before_pick s) = VInt (Z.of_nat i) /\
    (i < length (sections s))%nat /\
    sections (before_pick s) = sections s /\
    state (before_pick s) = state s /\
    grid_matches (before_pick s) /\
    Forall (fun row => row <> []) (section_states (before_pick s)) /\
    forall i' row, (i <= i')%nat ->
      section_states (before_pick s) !! i' = Some row -> has_eligible row.
Proof.
intros (Hne & Hgrid & Hrows & k & Hk & Hlt & Hahead).
assert (Hnext : next_set s = Z.of_nat ((k + 1) mod length (sections s))).
{ unfold next_set. rewrite Hk. cbn [position_number].
  rewrite Nat2Z.inj_mod. f_equal. lia. }
exists ((k + 1) mod length (sections s))%nat.
assert (Hrange : ((k + 1) mod length (sections s) < length (sections s))%nat).
{ apply Nat.mod_upper_bound. lia. }
unfold before_pick, heard. rewrite no_handler. cbn [fold_left].
destruct (wraps s) eqn:Hwraps.
- cbn [section_set set_section_states set_section_set sections entered state section_states].
  rewrite Hnext.
  split; [reflexivity|]. split; [exact Hrange|]. split; [reflexivity|].
  split; [reflexivity|]. split.
  { unfold grid_matches.
    cbn [section_set set_section_states set_section_set sections entered section_states].
    apply resetSectionsPlayed_shape. }
  split.
  { rewrite List.Forall_forall. intros row Hin.
    apply list_elem_of_In, list_elem_of_lookup in Hin. destruct Hin as [i Hi].
    pose proof (reset_row_eligible _ i row (sets_nonempty s Hgrid Hrows) Hi) as He.
    intros ->. inversion He. }
  intros i' row _ Hrow.
  exact (reset_row_eligible _ i' row (sets_nonempty s Hgrid Hrows) Hrow).
- cbn [section_set set_section_states set_section_set sections entered state section_states].
  rewrite Hnext.
  split; [reflexivity|]. split; [exact Hrange|]. split; [reflexivity|].
  split; [reflexivity|]. split; [exact Hgrid|]. split; [exact Hrows|].
  intros i' row Hi' Hrow.
  unfold wraps in Hwraps. rewrite Hnext in Hwraps.
  destruct (Nat.eq_dec ((k + 1) mod length (sections s))%nat 0%nat) as [Hz|Hnz].
  + (* set 0 is entered and a cycle exists *)
    rewrite Hz in Hwraps. cbn in Hwraps.
    apply negb_false_iff, cycleExists_spec_true in Hwraps.
    rewrite List.Forall_forall in Hwraps. apply Hwraps.
    apply list_elem_of_In, list_elem_of_lookup. now exists i'.
  + (* the next set of the same cycle *)
    assert (Hstep : ((k + 1) mod length (sections s))%nat = (k + 1)%nat).
    { destruct (Nat.eq_dec (k + 1)%nat (length (sections s))) as [Heq|Hneq].
      - rewrite Heq, Nat.Div0.mod_same in Hnz. congruence.
      - apply Nat.mod_small. lia. }
    apply (Hahead i' row); [lia | exact Hrow].
Qed.

(** So the row entered has an eligible entry: the proviso of the pick
    holds all along a cycle. *)
Lemma in_cycle_eligible (s : Shuffle Track) :
  in_cycle s -> eligible_here (before_pick s).
Proof.
intros Hin. pose proof Hin as (Hne & Hgrid & Hrows & _).
destruct (in_cycle_before_pick s Hin)
  as (i & Hset & Hlt & Hsec & _ & Hgrid2 & _ & Hrest).
assert (Hrow : is_Some (section_states (before_pick s) !! i)).
{ apply lookup_lt_is_Some. rewrite (grid_length _ Hgrid2), Hsec. exact Hlt. }
destruct Hrow as [row Hrow].
exists row. split; [|exact (Hrest i row (Nat.le_refl i) Hrow)].
rewrite Hset. unfold js_index.
destruct (Z.leb_spec 0 (Z.of_nat i)) as [_|?]; [|lia].
now rewrite Nat2Z.id.
Qed.

(** One call of [moveToSucessorState] inside a cycle returns a Howl and
    leaves the automaton inside a cycle. *)
Lemma in_cycle_advance (s : Shuffle Track) (rnd : Q) :
  in_cycle s -> state s = playing -> (0 <= rnd)%Q -> (rnd < 1)%Q ->
  exists r s',
    moveToSucessorState listeners rnd s = Ok (RObj r) s' (advance_trace s) /\
    is_Some (deref r s') /\
    in_cycle s' /\ state s' = playing.
Proof.
intros Hin Hplay Hlo Hhi. pose proof Hin as (Hne & Hgrid & Hrows & k & Hk & Hlt & _).
destruct (in_cycle_before_pick s Hin)
  as (i & Hset & Hilt & Hsec & Hstate & Hgrid2 & Hrows2 & Hrest).
assert (Hvalid : valid_position s).
{ unfold valid_position. rewrite Hk. lia. }
rewrite (moveToSucessorState_steps s rnd Hne Hvalid Hrows).
rewrite Hstate, Hplay, bool_decide_eq_true_2 by reflexivity. cbn [negb].
destruct (pick_of_eligible (before_pick s) rnd Hgrid2 (in_cycle_eligible s Hin) Hlo Hhi)
  as (i0 & j & row & Hset0 & Hrow & Hj & Hderef & Hrun).
assert (i0 = i) by (rewrite Hset in Hset0; injection Hset0; lia). subst i0.
rewrite Hrun, app_nil_r.
eexists _, _. split; [reflexivity|].
set (s2 := before_pick s) in *.
split.
{ (* the Howl is still there *)
  destruct Hderef as [t Ht]. exists t. exact Ht. }
split; [|exact (eq_trans Hstate Hplay)].
split; [cbn; now rewrite Hsec|]. split.
{ unfold grid_matches in *. cbn [section_states set_section_states sections set_section].
  rewrite <- Hgrid2. apply list_eq. intros n.
  rewrite !list_lookup_fmap.
  destruct (Nat.eq_dec n i) as [->|Hn].
  - rewrite list_lookup_insert_eq by (now apply lookup_lt_Some in Hrow).
    rewrite Hrow. simpl. now rewrite length_insert.
  - now rewrite list_lookup_insert_ne by congruence. }
split.
{ cbn [section_states set_section_states].
  rewrite List.Forall_forall in *. intros r Hr.
  apply list_elem_of_In, list_elem_of_lookup in Hr. destruct Hr as [n Hn].
  destruct (Nat.eq_dec n i) as [->|Hni].
  - rewrite list_lookup_insert_eq in Hn by (now apply lookup_lt_Some in Hrow).
    injection Hn as <-. intros Hnil.
    apply (f_equal (@length bool)) in Hnil. rewrite length_insert in Hnil.
    apply lookup_lt_Some in Hj. simpl in Hnil. lia.
  - rewrite list_lookup_insert_ne in Hn by congruence.
    apply Hrows2. apply list_elem_of_In, list_elem_of_lookup. now exists n. }
exists i. cbn [section_set set_section_states set_section sections section_states].
split; [exact Hset|]. split; [now rewrite Hsec|].
intros i' r Hi' Hr.
rewrite list_lookup_insert_ne in Hr by lia.
apply (Hrest i' r); [lia | exact Hr].
Qed.

End NoFullcycleHandler.


End ShuffleMethods.

(** *** Examples and counterexamples for the Shuffle *)

(** Two section sets of one section each, the section of the second set
    played, the automaton at the first set. *)
Definition exhausted_row_shuffle : Shuffle Howl :=
mkShuffle 1 None None [[howl "a1"]; [howl "b1"]] [[true]; [false]] false false None
  (VInt 0) VNull playing true "loop".

(** A Shuffle built with an empty second section set, at its last set. *)
Definition empty_set_shuffle : Shuffle Howl :=
mkShuffle 1 None None [[howl "a1"]; []] [[true]; []] false false None
  (VInt 1) VNull playing true "loop".

(** On the first the call picks [undefined] and returns [undefined]; on
    the second [cycleExists] throws. *)
Example moveToSucessorState_exhausted_row :
  moveToSucessorState no_listeners 0 exhausted_row_shuffle
  = Ok RUndefined
      (set_section VUndefined (set_section_set (VInt 1) exhausted_row_shuffle)) [].
Proof. reflexivity. Qed.

Example moveToSucessorState_empty_set :
  moveToSucessorState no_listeners 0 empty_set_shuffle
  = Exn TypeError (set_section_set (VInt 0) empty_set_shuffle) [].
Proof. reflexivity. Qed.

(** C1, counterexample: the claim asks for an eligible index in a row
    that has none (the call stores [undefined] as [position.section] and
    returns [undefined]), and for a pick after a reset where
    [cycleExists] throws on an empty row. *)
Lemma moveToSucessorState_no_eligible :
  ~ advance_claim no_listeners exhausted_row_shuffle 0 /\
  ~ advance_claim no_listeners empty_set_shuffle 0.
Proof.
split; intros Hclaim.
- assert (Hpick : picks (before_pick no_listeners exhausted_row_shuffle)
                    (moveToSucessorState no_listeners 0 exhausted_row_shuffle)
                    (advance_trace exhausted_row_shuffle)).
  { apply Hclaim;
      [reflexivity | discriminate | unfold valid_position; simpl; lia | reflexivity
      | apply Qle_refl | reflexivity]. }
  destruct Hpick as [i [j [row [Hset [Hrow [Hj _]]]]]].
  change (VInt 1 = VInt (Z.of_nat i)) in Hset.
  assert (i = 1%nat) by (injection Hset; lia). subst i.
  change (Some [false] = Some row) in Hrow. injection Hrow as <-.
  destruct j as [|[|j]]; discriminate.
- assert (Hpick : picks (before_pick no_listeners empty_set_shuffle)
                    (moveToSucessorState no_listeners 0 empty_set_shuffle)
                    (advance_trace empty_set_shuffle)).
  { apply Hclaim;
      [reflexivity | discriminate | unfold valid_position; simpl; lia | reflexivity
      | apply Qle_refl | reflexivity]. }
  destruct Hpick as [i [j [row [_ [_ [_ [_ Hrun]]]]]]].
  rewrite moveToSucessorState_empty_set in Hrun. discriminate.
Qed.

(** A Shuffle as the constructor builds it, when [play] has marked it as
    playing and [next] has moved the position to the last set: it is
    inside a cycle, and so is it after each of three advances, the third
    of which wraps and resets the grid. *)
Example three_advances :
  let s0 := set_section_set (VInt 1)
              (set_state playing
                 (fresh_shuffle [[howl "a1"; howl "a2"]; [howl "b1"]] "loop")) in
  let s1 := final_state (moveToSucessorState no_listeners 0 s0) in
  let s2 := final_state (moveToSucessorState no_listeners 0 s1) in
  let s3 := final_state (moveToSucessorState no_listeners 0 s2) in
  in_cycle s0 /\
  (section_set s1, section s1, section_states s1) = (VInt 0, VInt 0, [[false; true]; [true]]) /\
  (section_set s2, section s2, section_states s2) = (VInt 1, VInt 0, [[false; true]; [false]]) /\
  (section_set s3, section s3, section_states s3) = (VInt 0, VInt 0, [[false; true]; [true]]) /\
  trace_of (moveToSucessorState no_listeners 0 s2) = [Triggered EvFullcycle].
Proof.
split; [|vm_compute; repeat split].
apply (in_cycle_start
         (set_state playing (fresh_shuffle [[howl "a1"; howl "a2"]; [howl "b1"]] "loop")));
  [discriminate | reflexivity | repeat constructor; discriminate].
Qed.

(** Two section sets of one section each, both played, the automaton at
    the last set: the next call wraps, triggers [fullcycle] and resets. *)
Definition full_cycle_done : Shuffle Howl :=
mkShuffle 1 None None [[howl "a1"]; [howl "b1"]] [[false]; [false]] false false None
  (VInt 1) (VInt 0) playing true "loop".

Lemma moveToSucessorState_advances_witness :
  picks (before_pick no_listeners full_cycle_done)
    (moveToSucessorState no_listeners (3 # 4) full_cycle_done)
    [Triggered EvFullcycle].
Proof.
apply (moveToSucessorState_advances no_listeners full_cycle_done (3 # 4)).
- repeat constructor; discriminate.
- intros _. exists [true]. split; [reflexivity | left; reflexivity].
- reflexivity.
- discriminate.
- unfold valid_position; simpl; lia.
- reflexivity.
- vm_compute. discriminate.
- reflexivity.
Defined.

(** A muted Shuffle with one section that is not fading. *)
Definition muted_shuffle : Shuffle Howl :=
mkShuffle 1 None None [[howl "a1"]] [[true]] true false None
  VNull VNull stopped true "loop".

(** C9, counterexample: on a muted Shuffle [volume(0.5)] calls [mute()]
    and returns; the section, which is not fading, keeps its volume. *)
Lemma volume_muted_skips_tracks :
  ~ volume_claim no_listeners muted_shuffle (1 # 2).
Proof.
intros [s' [tr [Hrun [_ [_ Htracks]]]]].
specialize (Htracks (SectionAt 0 0) (howl "a1") eq_refl).
vm_compute in Hrun. injection Hrun as <- _.
vm_compute in Htracks. discriminate.
Qed.

(** An unmuted Shuffle with a fading intro, a section at rest and a
    fading section. *)
Definition crossfading_shuffle : Shuffle Howl :=
mkShuffle (1 # 2) None (Some (fading_howl "intro"))
  [[howl "a1"; fading_howl "a2"]] [[true; true]] false false None
  (VInt 0) (VInt 1) playing true "loop".

Lemma volume_unmuted_witness :
  muted (after_volume_event no_listeners crossfading_shuffle (3 # 2)) = false /\
  volume_post no_listeners crossfading_shuffle (3 # 2).
Proof.
split; [reflexivity|].
apply (volume_unmuted no_listeners crossfading_shuffle (3 # 2)). reflexivity.
Defined.

(** The value above the range is clamped to 1; the section at rest gets
    it, the fading Howls keep their volume of one half. *)
Example volume_crossfading :
  let s' := final_state (volume no_listeners (Some (3 # 2)) crossfading_shuffle) in
  gain s' = 1%Q /\
  option_map h_volume (deref (SectionAt 0 0) s') = Some 1%Q /\
  option_map h_volume (deref (SectionAt 0 1) s') = Some (1 # 2) /\
  option_map h_volume (deref Intro s') = Some (1 # 2).
Proof. vm_compute. repeat split. Qed.

(* ------------------------------------------------------------------ *)
(** ** Deferred objects: what every run preserves *)
(* ------------------------------------------------------------------ *)

Section Preservation.
Context {Track : Type} `{TrackOps Track}.
Variable listeners : string -> event -> list (Shuffle Track -> Shuffle Track).
Variable rnd : nat -> Q.
Variable client : nat -> Shuffle Track -> Shuffle Track.
Variable default_easing : Q -> Q.

(** The state of a deferred object and the fade lock of a piece. *)
Definition status_of (w : World Track) (d : nat) : option dstate :=
dstatus <$> heap w !! d.

Definition piece_of (w : World Track) (who : string) : option (Piece Track) :=
match lib_lookup who (_library w) with
| Some (Loaded p) => Some p
| _ => None
end.

Definition lock_of (w : World Track) (who : string) : option FadeLock :=
_fading <$> piece_of w who.

(** [w'] comes after [w]: the objects of the library are still objects,
    the deferred objects are still there, and those that were settled
    are settled the same way. *)
Definition extends (w w' : World Track) : Prop :=
(forall who, is_Some (piece_of w who) -> is_Some (piece_of w' who)) /\
(forall d, is_Some (status_of w d) -> is_Some (status_of w' d)) /\
(forall d, status_of w d = Some Resolved -> status_of w' d = Some Resolved) /\
(forall d, status_of w d = Some Rejected -> status_of w' d = Some Rejected).

Lemma extends_refl w : extends w w.
Proof. repeat split; auto. Qed.

Lemma extends_trans w1 w2 w3 : extends w1 w2 -> extends w2 w3 -> extends w1 w3.
Proof.
intros (A1 & B1 & C1 & D1) (A2 & B2 & C2 & D2). repeat split; auto.
Qed.

(** A run preserves the order when the world it leaves, returning or
    throwing, comes after the one it started from. *)
Definition preserves {A} (m : WM Track A) : Prop :=
forall w, extends w (final_state (m w)).

Lemma preserves_ret {A} (a : A) : preserves (ret a).
Proof. intros w. apply extends_refl. Qed.

Lemma preserves_get : preserves get.
Proof. intros w. apply extends_refl. Qed.

Lemma preserves_throw {A} e : preserves (throw (A := A) e).
Proof. intros w. apply extends_refl. Qed.

Lemma preserves_tell o : preserves (tell o).
Proof. intros w. apply extends_refl. Qed.

Lemma preserves_modify (f : World Track -> World Track) :
  (forall w, extends w (f w)) -> preserves (modify f).
Proof. intros Hf w. apply Hf. Qed.

Lemma preserves_bind {A B} (m : WM Track A) (k : A -> WM Track B) :
  preserves m -> (forall a, preserves (k a)) -> preserves (bind m k).
Proof.
intros Hm Hk w. unfold bind. specialize (Hm w).
destruct (m w) as [a w1 tr1|e w1 tr1]; simpl in *; [|exact Hm].
specialize (Hk a w1). destruct (k a w1); simpl in *; eapply extends_trans; eauto.
Qed.

Lemma preserves_only_if (b : bool) (m : WM Track unit) :
  preserves m -> preserves (only_if b m).
Proof. intros Hm. destruct b; [exact Hm | apply preserves_ret]. Qed.

Lemma preserves_wlift {A} (c : completion A) : preserves (wlift c).
Proof. destruct c; [apply preserves_ret | apply preserves_throw]. Qed.

(** Reading the world and then running on. *)
Lemma preserves_get_bind {A} (k : World Track -> WM Track A) :
  (forall w, extends w (final_state (k w w))) -> preserves (bind get k).
Proof.
intros Hk w. unfold bind, get. specialize (Hk w).
destruct (k w w); simpl in *; exact Hk.
Qed.

Lemma lib_lookup_update key who v (lib : list (string * lib_entry Track)) :
  lib_lookup key (lib_update who v lib)
  = match lib_lookup key lib with
    | Some old => if String.eqb key who then Some v else Some old
    | None => None
    end.
Proof.
induction lib as [|[k v0] rest IH]; simpl; [reflexivity|].
destruct (String.eqb_spec k who) as [->|Hkw]; simpl.
- destruct (String.eqb_spec who key) as [->|Hne].
  + now rewrite String.eqb_refl.
  + destruct (lib_lookup key rest); [|reflexivity].
    destruct (String.eqb_spec key who); [congruence | reflexivity].
- destruct (String.eqb_spec k key) as [->|Hne].
  + destruct (String.eqb_spec key who); [congruence | reflexivity].
  + exact IH.
Qed.

Lemma piece_of_update w who key (p : Piece Track) :
  piece_of (set_library (lib_update who (Loaded p) (_library w)) w) key
  = match lib_lookup key (_library w) with
    | Some old =>
        if String.eqb key who then Some p
        else match old with Loaded q => Some q | Thunk _ => None end
    | None => None
    end.
Proof.
unfold piece_of. simpl. rewrite lib_lookup_update.
destruct (lib_lookup key (_library w)) as [old|]; [|reflexivity].
destruct (String.eqb key who); reflexivity.
Qed.

Lemma extends_update_piece w who (p : Piece Track) :
  extends w (set_library (lib_update who (Loaded p) (_library w)) w).
Proof.
split; [|repeat split; auto].
intros key [q Hq]. rewrite piece_of_update.
unfold piece_of in Hq.
destruct (lib_lookup key (_library w)) as [[|q']|]; try discriminate.
destruct (String.eqb key who); eauto.
Qed.

Lemma extends_same w w' :
  _library w' = _library w -> heap w' = heap w -> extends w w'.
Proof.
intros Hl Hh. unfold extends, piece_of, status_of. rewrite Hl, Hh.
repeat split; auto.
Qed.

Lemma extends_alloc w (fresh : list Deferred) :
  extends w (set_heap (heap w ++ fresh) w).
Proof.
unfold extends, status_of. simpl. split; [auto|].
split; [|split]; intros d.
- intros [st Hst]. destruct (heap w !! d) as [df|] eqn:Hd; [|discriminate].
  rewrite (lookup_app_l_Some _ _ _ _ Hd). eauto.
- destruct (heap w !! d) as [df|] eqn:Hd; [|discriminate].
  now rewrite (lookup_app_l_Some _ _ _ _ Hd).
- destruct (heap w !! d) as [df|] eqn:Hd; [|discriminate].
  now rewrite (lookup_app_l_Some _ _ _ _ Hd).
Qed.

(** Rewriting a pending object, or keeping the state of a settled one. *)
Lemma extends_store w d df df' :
  heap w !! d = Some df ->
  (dstatus df = Pending \/ dstatus df' = dstatus df) ->
  extends w (set_heap (<[d := df']> (heap w)) w).
Proof.
intros Hd Hst. unfold extends, status_of. simpl. split; [auto|].
assert (Hlt : (d < length (heap w))%nat) by (eapply lookup_lt_Some; eauto).
split; [|split]; intros d'.
- destruct (Nat.eq_dec d d') as [<-|Hne].
  + rewrite list_lookup_insert_eq by assumption. eauto.
  + now rewrite list_lookup_insert_ne.
- destruct (Nat.eq_dec d d') as [<-|Hne].
  + rewrite list_lookup_insert_eq by assumption. rewrite Hd. simpl.
    intros [= Hr]. destruct Hst as [Hp|Hs]; congruence.
  + now rewrite list_lookup_insert_ne.
- destruct (Nat.eq_dec d d') as [<-|Hne].
  + rewrite list_lookup_insert_eq by assumption. rewrite Hd. simpl.
    intros [= Hr]. destruct Hst as [Hp|Hs]; congruence.
  + now rewrite list_lookup_insert_ne.
Qed.

(** *** The operations on pieces *)

Lemma preserves_the_piece who : preserves (the_piece (Track := Track) who).
Proof.
intros w. unfold the_piece, bind, get.
destruct (lib_lookup who (_library w)) as [[|p]|]; simpl; apply extends_refl.
Qed.

Lemma preserves_modify_lock who f : preserves (modify_lock (Track := Track) who f).
Proof.
apply preserves_bind; [apply preserves_the_piece|]. intros p.
apply preserves_modify. intros w. apply extends_update_piece.
Qed.

Lemma preserves_on_shuffle {A} who (m : M (Shuffle Track) observation js_error A) :
  preserves (on_shuffle who m).
Proof.
intros w. unfold on_shuffle.
destruct (lib_lookup who (_library w)) as [[|p]|]; simpl; try apply extends_refl.
destruct (m (shuffle p)); simpl; apply extends_update_piece.
Qed.

Lemma preserves_shuffle_play who : preserves (shuffle_play listeners rnd who).
Proof.
apply preserves_get_bind. intros w.
set (k := bind _ _).
assert (Hk : preserves k).
{ apply preserves_bind.
  - apply preserves_modify. intros w'. now apply extends_same.
  - intros _. apply preserves_on_shuffle. }
apply Hk.
Qed.

Lemma preserves_mutevol who v : preserves (mutevol (Track := Track) who v).
Proof.
apply preserves_bind; [apply preserves_the_piece|]. intros p. apply preserves_ret.
Qed.

Lemma preserves_fade_volume who v : preserves (fade_volume listeners who v).
Proof.
destruct v as [v|]; [apply preserves_on_shuffle | apply preserves_throw].
Qed.

Lemma preserves_jq_Deferred : preserves (jq_Deferred (Track := Track)).
Proof. intros w. unfold jq_Deferred, bind, get, put, ret. simpl. apply extends_alloc. Qed.

Lemma preserves_setInterval st : preserves (setInterval (Track := Track) st).
Proof.
intros w. unfold setInterval, bind, get, put, ret. simpl. now apply extends_same.
Qed.

Lemma preserves_clearInterval i : preserves (clearInterval (Track := Track) i).
Proof. apply preserves_modify. intros w. now apply extends_same. Qed.

(** *** The operations that run attached functions *)

Section WithRun.
Variable run : closure -> WM Track unit.
Hypothesis run_preserves : forall c, preserves (run c).

Lemma preserves_run_each cs : preserves (run_each run cs).
Proof.
induction cs as [|c cs IH]; simpl; [apply preserves_ret|].
apply preserves_bind; [apply run_preserves | intros _; exact IH].
Qed.

Lemma preserves_settle how d : how <> Pending -> preserves (settle run how d).
Proof.
intros Hhow. apply preserves_get_bind. intros w.
destruct (heap w !! d) as [df|] eqn:Hd; [|apply extends_refl].
destruct (dstatus df) eqn:Hst; try apply extends_refl.
unfold bind at 1. unfold put at 1.
set (w1 := set_heap _ w).
assert (H1 : extends w w1).
{ eapply extends_store; eauto. }
pose proof (preserves_run_each
  (match how with Resolved => done_list df | _ => fail_list df end) w1) as H2.
destruct (run_each run _ w1); simpl in *; eapply extends_trans; eauto.
Qed.

Lemma preserves_dfd_resolve d : preserves (dfd_resolve run d).
Proof. apply preserves_settle. discriminate. Qed.

Lemma preserves_dfd_reject d : preserves (dfd_reject run d).
Proof. apply preserves_settle. discriminate. Qed.

Lemma preserves_dfd_done d c : preserves (dfd_done run d c).
Proof.
apply preserves_get_bind. intros w.
destruct (heap w !! d) as [df|] eqn:Hd; [|apply extends_refl].
destruct (dstatus df) eqn:Hst.
- simpl. eapply extends_store; eauto.
- apply run_preserves.
- apply extends_refl.
Qed.

Lemma preserves_dfd_fail d c : preserves (dfd_fail run d c).
Proof.
apply preserves_get_bind. intros w.
destruct (heap w !! d) as [df|] eqn:Hd; [|apply extends_refl].
destruct (dstatus df) eqn:Hst.
- simpl. eapply extends_store; eauto.
- apply extends_refl.
- apply run_preserves.
Qed.

Lemma preserves_dfd_always d c : preserves (dfd_always run d c).
Proof.
apply preserves_bind; [apply preserves_dfd_done | intros _; apply preserves_dfd_fail].
Qed.

Lemma preserves_when_attach master ds : preserves (when_attach run master ds).
Proof.
induction ds as [|d ds IH]; simpl; [apply preserves_ret|].
apply preserves_bind; [apply preserves_dfd_done | intros _].
apply preserves_bind; [apply preserves_dfd_fail | intros _; exact IH].
Qed.

Lemma preserves_jq_when ds : preserves (jq_when run ds).
Proof.
destruct ds as [|d [|d' ds]].
- apply preserves_bind; [apply preserves_jq_Deferred | intros d].
  apply preserves_bind; [apply preserves_dfd_resolve | intros _; apply preserves_ret].
- apply preserves_ret.
- apply preserves_get_bind. intros w.
  unfold bind at 1, put at 1.
  set (w1 := set_heap _ w).
  assert (H1 : extends w w1) by apply extends_alloc.
  assert (H2 : preserves (bind (when_attach run (length (heap w)) (d :: d' :: ds))
                            (fun _ => ret (length (heap w))))).
  { apply preserves_bind; [apply preserves_when_attach | intros _; apply preserves_ret]. }
  specialize (H2 w1).
  destruct (bind _ _ w1); simpl in *; eapply extends_trans; eauto.
Qed.

Lemma preserves_fade_arbitrate who priority :
  preserves (fade_arbitrate run who priority).
Proof.
apply preserves_bind; [apply preserves_the_piece | intros p].
apply preserves_bind.
- destruct (lock_promise (_fading p)) as [inflight|]; [|apply preserves_ret].
  destruct (match lock_priority (_fading p) with
            | Some held => priority <? held
            | None => false
            end).
  + apply preserves_bind; [apply preserves_jq_Deferred | intros d].
    apply preserves_bind; [apply preserves_dfd_reject | intros _; apply preserves_ret].
  + apply preserves_bind; [apply preserves_dfd_reject | intros _; apply preserves_ret].
- intros [d|]; [apply preserves_ret|].
  apply preserves_bind; [apply preserves_modify_lock | intros _; apply preserves_ret].
Qed.

Lemma preserves_fade_start who from to msec normalizer easing :
  preserves (fade_start listeners run who from to msec normalizer easing).
Proof.
apply preserves_bind; [apply preserves_jq_Deferred | intros promise].
apply preserves_bind; [apply preserves_dfd_done | intros _].
apply preserves_bind; [apply preserves_dfd_always | intros _].
apply preserves_bind; [apply preserves_the_piece | intros p].
destruct (fade_is_over _ _ _).
- apply preserves_bind; [apply preserves_mutevol | intros v].
  apply preserves_bind; [apply preserves_fade_volume | intros _].
  apply preserves_bind; [apply preserves_dfd_resolve | intros _; apply preserves_ret].
- apply preserves_bind; [apply preserves_on_shuffle | intros _].
  apply preserves_get_bind. intros w.
  set (k := bind _ _).
  assert (Hk : preserves k).
  { apply preserves_bind; [apply preserves_setInterval | intros stepper].
    apply preserves_bind; [apply preserves_modify_lock | intros _].
    apply preserves_bind; [apply preserves_dfd_always | intros _; apply preserves_ret]. }
  apply Hk.
Qed.

Lemma preserves_fade who args :
  preserves (fade listeners default_easing run who args).
Proof.
apply preserves_bind; [apply preserves_the_piece | intros p].
apply preserves_bind; [apply preserves_wlift | intros to].
apply preserves_bind; [apply preserves_wlift | intros msec].
apply preserves_bind; [apply preserves_fade_arbitrate | intros [d|]].
- apply preserves_ret.
- apply preserves_fade_start.
Qed.

Lemma preserves_cancelFade who priority : preserves (cancelFade run who priority).
Proof.
apply preserves_bind; [apply preserves_the_piece | intros p].
destruct (lock_promise (_fading p)) as [inflight|]; [|apply preserves_ret].
destruct (lock_priority (_fading p)) as [held|]; [|apply preserves_ret].
destruct (held <=? _); [apply preserves_dfd_reject | apply preserves_ret].
Qed.

(** *** Music.js *)

Lemma preserves_load piece : preserves (Music.load listeners piece).
Proof.
apply preserves_get_bind. intros w.
destruct (lib_lookup piece (_library w)) as [[fresh|p]|]; try apply extends_refl;
  [|destruct (inherited piece); apply extends_refl].
unfold bind at 1, modify at 1.
set (w1 := set_library _ w).
assert (H1 : extends w w1) by apply extends_update_piece.
match goal with
| |- extends w (final_state match ?m w1 with _ => _ end) =>
    assert (H2 : preserves m)
end.
{ apply preserves_bind; [apply preserves_on_shuffle | intros _].
  apply preserves_bind; [|intros _; apply preserves_ret].
  apply preserves_only_if, preserves_on_shuffle. }
specialize (H2 w1).
match goal with
| |- extends w (final_state match ?m w1 with _ => _ end) =>
    destruct (m w1); simpl in *; eapply extends_trans; eauto
end.
Qed.

Lemma preserves_stop_each except keys :
  preserves (Music.stop_each listeners default_easing run except keys).
Proof.
induction keys as [|track rest IH]; simpl; [apply preserves_ret|].
apply preserves_get_bind. intros w.
set (k := bind _ _).
assert (Hk : preserves k); [|apply Hk].
apply preserves_bind.
- destruct (lib_lookup track (_library w)) as [[|p]|]; try apply preserves_ret.
  destruct (_ || _); [apply preserves_ret|].
  apply preserves_bind; [apply preserves_fade | intros promise].
  apply preserves_bind; [apply preserves_dfd_always | intros _; apply preserves_ret].
- intros mine. apply preserves_bind; [exact IH | intros others; apply preserves_ret].
Qed.

Lemma preserves_stopNonPlayingTracks except :
  preserves (Music.stopNonPlayingTracks listeners default_easing run except).
Proof.
apply preserves_get_bind. intros w.
set (k := bind _ _).
assert (Hk : preserves k); [|apply Hk].
apply preserves_bind; [apply preserves_stop_each | intros promises].
apply preserves_jq_when.
Qed.

Lemma preserves_Music_stop except :
  preserves (Music.stop listeners default_easing run except).
Proof.
apply preserves_get_bind. intros w.
set (k := bind _ _).
assert (Hk : preserves k); [|apply Hk].
apply preserves_bind.
- destruct (_nowplaying_audio w) as [m|]; [|apply preserves_ret].
  destruct (negb _); [|apply preserves_ret].
  apply preserves_bind; [apply preserves_fade | intros promise].
  apply preserves_bind; [apply preserves_dfd_always | intros _; apply preserves_ret].
- intros nowplaying_promise.
  apply preserves_bind; [apply preserves_stopNonPlayingTracks | intros others].
  apply preserves_bind.
  + destruct nowplaying_promise as [d|]; [apply preserves_ret|].
    apply preserves_bind; [apply preserves_jq_Deferred | intros d].
    apply preserves_bind; [apply preserves_dfd_resolve | intros _; apply preserves_ret].
  + intros d. apply preserves_bind.
    * apply preserves_modify. intros w'. now apply extends_same.
    * intros _. apply preserves_jq_when.
Qed.

Lemma preserves_Music_play piece :
  preserves (Music.play listeners default_easing run piece).
Proof.
apply preserves_get_bind. intros w.
destruct (_ && _).
- set (k := bind _ _). assert (Hk : preserves k); [|apply Hk].
  apply preserves_bind; [apply preserves_jq_Deferred | intros d].
  apply preserves_bind; [apply preserves_dfd_resolve | intros _; apply preserves_ret].
- set (k := bind _ _). assert (Hk : preserves k); [|apply Hk].
  apply preserves_bind; [apply preserves_load | intros music].
  apply preserves_get_bind. intros w1.
  set (k1 := bind _ _). assert (Hk1 : preserves k1); [|apply Hk1].
  apply preserves_bind.
  { destruct (_stopping_promise w1); [apply preserves_dfd_reject | apply preserves_ret]. }
  intros _. apply preserves_bind; [apply preserves_jq_Deferred | intros d].
  apply preserves_bind.
  { apply preserves_modify. intros w'. now apply extends_same. }
  intros _. apply preserves_bind; [apply preserves_Music_stop | intros stopping].
  apply preserves_bind; [apply preserves_dfd_done | intros _].
  apply preserves_bind.
  { destruct music.
    - apply preserves_get_bind. intros w2.
      set (k2 := bind _ _). assert (Hk2 : preserves k2); [|apply Hk2].
      apply preserves_bind.
      + destruct (_stopping_promise w2); [apply preserves_dfd_done | apply preserves_throw].
      + intros _. apply preserves_modify. intros w'. now apply extends_same.
    - apply preserves_tell. }
  intros _. apply preserves_get_bind. intros w2.
  destruct (_stopping_promise w2); apply extends_refl.
Qed.

Lemma preserves_run_closure_body c :
  preserves (Music.run_closure_body listeners rnd client default_easing run c).
Proof.
destruct c; simpl.
- apply preserves_bind; [apply preserves_mutevol | intros v; apply preserves_fade_volume].
- apply preserves_modify_lock.
- apply preserves_clearInterval.
- apply preserves_on_shuffle.
- apply preserves_get_bind. intros w.
  destruct (bool_decide _); [apply extends_refl | apply preserves_on_shuffle].
- apply preserves_get_bind. intros w.
  destruct (heap w !! master) as [df|] eqn:Hd; [|apply extends_refl].
  unfold bind at 1, put at 1.
  set (w1 := set_heap _ w).
  assert (H1 : extends w w1).
  { eapply extends_store; eauto. }
  pose proof (preserves_only_if (pred (remaining df) =? 0)%nat _
                (preserves_dfd_resolve master) w1) as H2.
  destruct (only_if _ _ w1); simpl in *; eapply extends_trans; eauto.
- apply preserves_dfd_reject.
- apply preserves_get_bind. intros w.
  destruct (_stopping_promise w); [apply preserves_dfd_resolve | apply extends_refl].
- apply preserves_bind.
  { apply preserves_modify. intros w'. now apply extends_same. }
  intros _. apply preserves_bind; [apply preserves_stopNonPlayingTracks | intros _].
  apply preserves_bind; [apply preserves_cancelFade | intros _].
  apply preserves_bind; [apply preserves_on_shuffle | intros _].
  apply preserves_shuffle_play.
- apply preserves_on_shuffle.
Qed.

End WithRun.

(** The interpreter preserves the order, whatever the bound. *)
Lemma preserves_run_closure fuel c :
  preserves (Music.run_closure listeners rnd client default_easing fuel c).
Proof.
revert c. induction fuel as [|fuel IH]; intros c; simpl.
- apply preserves_throw.
- apply preserves_run_closure_body. exact IH.
Qed.

End Preservation.

(* ------------------------------------------------------------------ *)
(** ** The fade lock: [fade] and [cancelFade] *)
(* ------------------------------------------------------------------ *)

Section FadeLock.
Context {Track : Type} `{TrackOps Track}.
Variable listeners : string -> event -> list (Shuffle Track -> Shuffle Track).
Variable rnd : nat -> Q.
Variable client : nat -> Shuffle Track -> Shuffle Track.
Variable default_easing : Q -> Q.

(** The world with the object of a piece replaced. *)
Definition put_piece (who : string) (p : Piece Track) (w : World Track) : World Track :=
set_library (lib_update who (Loaded p) (_library w)) w.

Lemma piece_of_put_same w who (p0 p : Piece Track) :
  piece_of w who = Some p0 -> piece_of (put_piece who p w) who = Some p.
Proof.
intros Hp. unfold put_piece. rewrite piece_of_update.
unfold piece_of in Hp.
destruct (lib_lookup who (_library w)) as [[|q]|]; try discriminate.
now rewrite String.eqb_refl.
Qed.

Lemma piece_of_put_other w who key (p : Piece Track) :
  key <> who -> piece_of (put_piece who p w) key = piece_of w key.
Proof.
intros Hne. unfold put_piece. rewrite piece_of_update. unfold piece_of.
destruct (lib_lookup key (_library w)) as [[|q]|]; try reflexivity;
  destruct (String.eqb_spec key who); congruence.
Qed.

Lemma lib_update_same who (p : Piece Track) (lib : list (string * lib_entry Track)) :
  lib_lookup who lib = Some (Loaded p) -> lib_update who (Loaded p) lib = lib.
Proof.
induction lib as [|[k v] rest IH]; simpl; [reflexivity|].
destruct (String.eqb_spec k who) as [->|Hne].
- now intros [= ->].
- intros Hl. now rewrite IH.
Qed.

Lemma the_piece_ok w who (p : Piece Track) :
  piece_of w who = Some p -> the_piece who w = Ok p w [].
Proof.
unfold piece_of, the_piece, bind, get. intros Hp.
destruct (lib_lookup who (_library w)) as [[|q]|]; try discriminate.
now injection Hp as ->.
Qed.

Lemma modify_lock_ok w who (p : Piece Track) f :
  piece_of w who = Some p ->
  modify_lock who f w = Ok tt (put_piece who (mkPiece (shuffle p) (f (_fading p))) w) [].
Proof.
intros Hp. unfold modify_lock.
rewrite (bind_Ok_silent _ _ w p w) by now apply the_piece_ok.
reflexivity.
Qed.

Lemma mutevol_ok w who (p : Piece Track) v :
  piece_of w who = Some p ->
  mutevol who v w = Ok (if muted (shuffle p) then Some 0%Q else v) w [].
Proof.
intros Hp. unfold mutevol.
rewrite (bind_Ok_silent _ _ w p w) by now apply the_piece_ok.
reflexivity.
Qed.

(** The volume that [fade] sets when it is a number. *)
Lemma fade_volume_number who (b : bool) (x y : Q) (w : World Track) :
  fade_volume listeners who (if b then Some x else Some y) w
  = on_shuffle who (volume_set (listeners who) (if b then x else y)) w.
Proof. now destruct b. Qed.

(** The setter of the volume always returns. *)
Lemma volume_set_returns l v (s : Shuffle Track) :
  exists s' tr, volume_set l v s = Ok tt s' tr.
Proof.
unfold volume_set, bind, modify, get, trigger, tell, mute, forEachSection. simpl.
destruct (muted _); simpl; eauto.
Qed.

Lemma on_shuffle_volume_ok w who (p : Piece Track) v :
  piece_of w who = Some p ->
  exists s' tr,
    on_shuffle who (volume_set (listeners who) v) w
    = Ok tt (put_piece who (mkPiece s' (_fading p)) w) tr.
Proof.
intros Hp. unfold on_shuffle, piece_of in *.
destruct (lib_lookup who (_library w)) as [[|q]|]; try discriminate.
injection Hp as ->.
destruct (volume_set_returns (listeners who) v (shuffle p)) as [s' [tr Hv]].
rewrite Hv. eauto.
Qed.

Lemma status_of_put (w : World Track) who (p : Piece Track) d :
  status_of (put_piece who p w) d = status_of w d.
Proof. reflexivity. Qed.

Lemma status_of_fresh (w : World Track) (df : Deferred) :
  status_of (set_heap (heap w ++ [df]) w) (length (heap w)) = Some (dstatus df).
Proof.
unfold status_of. simpl.
rewrite lookup_app_r by lia. now rewrite Nat.sub_diag.
Qed.

Lemma status_of_alloc_old (w : World Track) (df : Deferred) d st :
  status_of w d = Some st -> status_of (set_heap (heap w ++ [df]) w) d = Some st.
Proof.
unfold status_of. simpl. intros Hd.
destruct (heap w !! d) as [df0|] eqn:E; [|discriminate].
now rewrite (lookup_app_l_Some _ _ _ _ E).
Qed.

Lemma insert_fresh {A} (l : list A) (x y : A) :
  <[length l := y]> (l ++ [x]) = l ++ [y].
Proof.
induction l as [|a l IH]; simpl; [reflexivity|]. now rewrite IH.
Qed.

(** A fade of priority [p] is in flight on the piece: the lock holds the
    deferred object [d], which is pending, and the priority [p]. *)
Definition in_flight (w : World Track) (who : string) (d : nat) (p : Z) : Prop :=
exists pc,
  piece_of w who = Some pc /\
  _fading pc = mkLock (Some d) (Some p) /\
  status_of w d = Some Pending.

Section WithRun.
Variable run : closure -> WM Track unit.

Lemma jq_Deferred_run (w : World Track) :
  jq_Deferred w
  = Ok (length (heap w)) (set_heap (heap w ++ [mkDeferred Pending [] [] 0]) w) [].
Proof. reflexivity. Qed.

(** Settling a pending object: its state changes, then the functions
    waiting for that outcome run. *)
Lemma settle_pending (w : World Track) how d df :
  heap w !! d = Some df -> dstatus df = Pending ->
  settle run how d w
  = run_each run (match how with Resolved => done_list df | _ => fail_list df end)
      (set_heap (<[d := mkDeferred how [] [] (remaining df)]> (heap w)) w).
Proof.
intros Hd Hst. unfold settle.
rewrite (bind_Ok_silent _ _ w w w) by reflexivity.
rewrite Hd, Hst.
now rewrite (bind_Ok_silent _ _ w tt _) by reflexivity.
Qed.


(** A request below the priority of the fade in flight: the call
    returns a fresh deferred object, already rejected and without any
    function attached; nothing else changes. *)
Lemma fade_refused w who d p args to msec :
  in_flight w who d p ->
  fa_to args = Some to -> fa_msec args = Some msec ->
  SonicUtils.nvl (fa_priority args) 0 < p ->
  fade listeners default_easing run who args w
  = Ok (length (heap w))
      (set_heap (heap w ++ [mkDeferred Rejected [] [] 0]) w) [].
Proof.
intros (pc & Hpc & Hlock & Hd) Hto Hmsec Hlt.
unfold fade.
rewrite (bind_Ok_silent _ _ w pc w) by now apply the_piece_ok.
rewrite Hto, Hmsec. cbn [wlift SonicUtils.assertDefined SonicUtils.field].
rewrite (bind_Ok_silent _ _ w (SonicUtils.Given to) w) by reflexivity.
rewrite (bind_Ok_silent _ _ w (SonicUtils.Given msec) w) by reflexivity.
cbn [SonicUtils.number_of].
set (q := SonicUtils.nvl (fa_priority args) 0) in *.
assert (Harb : fade_arbitrate run who q w
  = Ok (Some (length (heap w)))
      (set_heap (heap w ++ [mkDeferred Rejected [] [] 0]) w) []).
{ unfold fade_arbitrate.
  rewrite (bind_Ok_silent _ _ w pc w) by now apply the_piece_ok.
  rewrite Hlock. cbn [lock_promise lock_priority].
  destruct (Z.ltb_spec q p) as [_|?]; [|lia].
  rewrite (bind_Ok_silent _ _ w (Some (length (heap w)))
             (set_heap (heap w ++ [mkDeferred Rejected [] [] 0]) w)); [reflexivity|].
  rewrite (bind_Ok_silent _ _ w _ _ (jq_Deferred_run w)).
  rewrite (bind_Ok_silent _ _ _ tt
             (set_heap (heap w ++ [mkDeferred Rejected [] [] 0]) w)); [reflexivity|].
  unfold dfd_reject.
  rewrite (settle_pending _ Rejected _ (mkDeferred Pending [] [] 0)); simpl.
  - now rewrite insert_fresh.
  - rewrite lookup_app_r by lia. now rewrite Nat.sub_diag.
  - reflexivity. }
rewrite (bind_Ok_silent _ _ _ _ _ Harb). reflexivity.
Qed.

Lemma dfd_done_pending (w : World Track) d df c :
  heap w !! d = Some df -> dstatus df = Pending ->
  dfd_done run d c w
  = Ok tt (set_heap
             (<[d := mkDeferred Pending (done_list df ++ [c]) (fail_list df) (remaining df)]>
                (heap w)) w) [].
Proof.
intros Hd Hst. unfold dfd_done.
rewrite (bind_Ok_silent _ _ w w w) by reflexivity.
now rewrite Hd, Hst.
Qed.

Lemma dfd_fail_pending (w : World Track) d df c :
  heap w !! d = Some df -> dstatus df = Pending ->
  dfd_fail run d c w
  = Ok tt (set_heap
             (<[d := mkDeferred Pending (done_list df) (fail_list df ++ [c]) (remaining df)]>
                (heap w)) w) [].
Proof.
intros Hd Hst. unfold dfd_fail.
rewrite (bind_Ok_silent _ _ w w w) by reflexivity.
now rewrite Hd, Hst.
Qed.

(** On the object created last. *)
Lemma dfd_done_last (w : World Track) df c :
  dstatus df = Pending ->
  dfd_done run (length (heap w)) c (set_heap (heap w ++ [df]) w)
  = Ok tt (set_heap
             (heap w ++ [mkDeferred Pending (done_list df ++ [c]) (fail_list df)
                           (remaining df)]) w) [].
Proof.
intros Hst. rewrite (dfd_done_pending _ _ df); simpl; auto.
- now rewrite insert_fresh.
- rewrite lookup_app_r by lia. now rewrite Nat.sub_diag.
Qed.

Lemma dfd_always_last (w : World Track) df c :
  dstatus df = Pending ->
  dfd_always run (length (heap w)) c (set_heap (heap w ++ [df]) w)
  = Ok tt (set_heap
             (heap w ++ [mkDeferred Pending (done_list df ++ [c]) (fail_list df ++ [c])
                           (remaining df)]) w) [].
Proof.
intros Hst. unfold dfd_always.
rewrite (bind_Ok_silent _ _ _ tt _ (dfd_done_last w df c Hst)).
set (df1 := mkDeferred Pending (done_list df ++ [c]) (fail_list df) (remaining df)).
rewrite (dfd_fail_pending _ _ df1); simpl; auto.
- now rewrite insert_fresh.
- rewrite lookup_app_r by lia. now rewrite Nat.sub_diag.
Qed.

Lemma settle_last (w : World Track) how df :
  dstatus df = Pending ->
  settle run how (length (heap w)) (set_heap (heap w ++ [df]) w)
  = run_each run (match how with Resolved => done_list df | _ => fail_list df end)
      (set_heap (heap w ++ [mkDeferred how [] [] (remaining df)]) w).
Proof.
intros Hst. rewrite (settle_pending _ _ _ df); simpl; auto.
- now rewrite insert_fresh.
- rewrite lookup_app_r by lia. now rewrite Nat.sub_diag.
Qed.

End WithRun.

(** The interpreter of attached functions with the handlers, draws and
    client functions of this section. *)
Definition interp (fuel : nat) : closure -> WM Track unit :=
Music.run_closure listeners rnd client default_easing fuel.

Lemma interp_preserves fuel c : preserves (interp fuel c).
Proof. apply preserves_run_closure. Qed.

(** The fade in flight is replaced: once the functions waiting on its
    deferred object have run, that object is rejected and the priority of
    the request is in the lock. *)
Lemma fade_arbitrate_takes_over fuel w who d p q w1 tr1 :
  in_flight w who d p -> p <= q ->
  dfd_reject (interp fuel) d w = Ok tt w1 tr1 ->
  exists pc1,
    piece_of w1 who = Some pc1 /\
    status_of w1 d = Some Rejected /\
    fade_arbitrate (interp fuel) who q w
    = Ok None
        (put_piece who (mkPiece (shuffle pc1)
                          (mkLock (lock_promise (_fading pc1)) (Some q))) w1)
        tr1.
Proof.
intros (pc & Hpc & Hlock & Hd) Hle Hrej.
(* the world after the rejection *)
assert (Hext : extends w w1).
{ pose proof (preserves_dfd_reject (interp fuel) (interp_preserves fuel) d w) as He.
  now rewrite Hrej in He. }
assert (Hrejected : status_of w1 d = Some Rejected).
{ unfold status_of in Hd.
  destruct (heap w !! d) as [df|] eqn:Hdf; [|discriminate].
  injection Hd as Hst.
  unfold dfd_reject in Hrej. rewrite (settle_pending _ _ _ _ df Hdf Hst) in Hrej.
  set (w0 := set_heap _ w) in Hrej.
  pose proof (preserves_run_each (interp fuel) (interp_preserves fuel)
                (fail_list df) w0) as He.
  rewrite Hrej in He. simpl in He.
  destruct He as (_ & _ & _ & Hkeep). apply Hkeep.
  unfold status_of, w0. simpl.
  rewrite list_lookup_insert_eq by (eapply lookup_lt_Some; eauto). reflexivity. }
destruct Hext as (Hpieces & _).
destruct (Hpieces who) as [pc1 Hpc1]; [rewrite Hpc; eauto|].
exists pc1. split; [exact Hpc1|]. split; [exact Hrejected|].
unfold fade_arbitrate.
rewrite (bind_Ok_silent _ _ w pc w) by now apply the_piece_ok.
rewrite Hlock. cbn [lock_promise lock_priority].
destruct (Z.ltb_spec q p) as [?|_]; [lia|].
rewrite (bind_Ok _ _ w None w1 tr1).
2:{ rewrite (bind_Ok _ _ w tt w1 tr1 Hrej). simpl. now rewrite app_nil_r. }
rewrite (bind_Ok_silent _ _ w1 tt _ (modify_lock_ok w1 who pc1 _ Hpc1)).
simpl. now rewrite app_nil_r.
Qed.

(** Whether [fade] ends at once: the gain is already at the target, or
    the duration is zero. *)
Definition nothing_to_do (to msec current : Q) : bool :=
negb (Qle_bool (1 # 100000) (Qabs (to - current))) || Qeq_bool msec 0.

(** The new fade, started on a piece: it returns a fresh deferred
    object.  When there is nothing to do the object is resolved and the
    lock is empty; otherwise the object is pending and the lock holds it,
    with the priority recorded before. *)
Lemma fade_start_run fuel w who pc from to msec normalizer easing :
  piece_of w who = Some pc ->
  exists w' tr,
    fade_start listeners (interp (S fuel)) who from (Some to) (Some msec) normalizer easing w
    = Ok (length (heap w)) w' tr /\
    if nothing_to_do to msec (gain (shuffle pc))
    then lock_of w' who = Some no_lock /\
         status_of w' (length (heap w)) = Some Resolved
    else lock_of w' who = Some (mkLock (Some (length (heap w))) (lock_priority (_fading pc))) /\
         status_of w' (length (heap w)) = Some Pending.
Proof.
intros Hpc.
unfold fade_start.
rewrite (bind_Ok_silent _ _ w _ _ (jq_Deferred_run w)).
rewrite (bind_Ok_silent _ _ _ tt
           (set_heap (heap w ++ [mkDeferred Pending
                        [FadeFinalVolume who (Some to) normalizer] [] 0]) w)).
2:{ now rewrite dfd_done_last. }
rewrite (bind_Ok_silent _ _ _ tt
           (set_heap (heap w ++ [mkDeferred Pending
                        [FadeFinalVolume who (Some to) normalizer; FadeRelease who]
                        [FadeRelease who] 0]) w)).
2:{ now rewrite dfd_always_last. }
set (w3 := set_heap _ w).
assert (Hpc3 : piece_of w3 who = Some pc) by exact Hpc.
rewrite (bind_Ok_silent _ _ w3 pc w3 (the_piece_ok _ _ _ Hpc3)).
change (fade_is_over (Some to) (Some msec) (gain (shuffle pc)))
  with (nothing_to_do to msec (gain (shuffle pc))).
destruct (nothing_to_do to msec (gain (shuffle pc))).
- (* nothing to do *)
  cbn [option_map].
  rewrite (bind_Ok_silent _ _ w3 _ w3 (mutevol_ok _ _ _ _ Hpc3)).
  destruct (on_shuffle_volume_ok w3 who pc
              (if muted (shuffle pc) then 0%Q else (to * normalizer)%Q) Hpc3)
    as [s4 [tr4 Hv4]].
  rewrite <- fade_volume_number in Hv4.
  rewrite (bind_Ok _ _ w3 tt _ tr4 Hv4).
  set (w4 := put_piece who _ w3).
  (* the deferred object is resolved and its two functions run *)
  assert (Hh4 : heap w4 !! length (heap w)
            = Some (mkDeferred Pending
                      [FadeFinalVolume who (Some to) normalizer; FadeRelease who]
                      [FadeRelease who] 0)).
  { simpl. rewrite lookup_app_r by lia. now rewrite Nat.sub_diag. }
  assert (Hpc4 : piece_of w4 who = Some (mkPiece s4 (_fading pc))).
  { eapply piece_of_put_same. exact Hpc3. }
  assert (Hres : exists w7 tr6,
    dfd_resolve (interp (S fuel)) (length (heap w)) w4 = Ok tt w7 tr6 /\
    lock_of w7 who = Some no_lock /\
    status_of w7 (length (heap w)) = Some Resolved).
  { unfold dfd_resolve.
    rewrite (settle_pending _ w4 Resolved _ _ Hh4 eq_refl).
    cbn [done_list remaining run_each].
    set (w5 := set_heap _ w4).
    assert (Hpc5 : piece_of w5 who = Some (mkPiece s4 (_fading pc))) by exact Hpc4.
    assert (Hffv : exists s6 tr6,
      interp (S fuel) (FadeFinalVolume who (Some to) normalizer) w5
      = Ok tt (put_piece who (mkPiece s6 (_fading pc)) w5) tr6).
    { unfold interp. cbn [Music.run_closure Music.run_closure_body option_map].
      rewrite (bind_Ok_silent _ _ w5 _ w5 (mutevol_ok _ _ _ _ Hpc5)).
      destruct (on_shuffle_volume_ok w5 who _
                  (if muted s4 then 0%Q else (to * normalizer)%Q) Hpc5)
        as [s6 [tr6 Hv6]].
      exists s6, tr6. cbn [shuffle]. rewrite fade_volume_number. exact Hv6. }
    destruct Hffv as [s6 [tr6 Hffv]].
    rewrite (bind_Ok _ _ w5 tt _ tr6 Hffv).
    set (w6 := put_piece who _ w5).
    assert (Hpc6 : piece_of w6 who = Some (mkPiece s6 (_fading pc))).
    { eapply piece_of_put_same. exact Hpc5. }
    assert (Hfr : interp (S fuel) (FadeRelease who) w6
                  = Ok tt (put_piece who (mkPiece s6 no_lock) w6) []).
    { unfold interp. cbn [Music.run_closure Music.run_closure_body].
      exact (modify_lock_ok w6 who _ (fun _ => no_lock) Hpc6). }
    rewrite (bind_Ok_silent _ _ w6 tt _ Hfr).
    eexists _, _. split; [reflexivity|]. split.
    - unfold lock_of. erewrite piece_of_put_same by exact Hpc6. reflexivity.
    - unfold status_of. simpl.
      rewrite list_lookup_insert_eq; [reflexivity|].
      rewrite length_app. simpl. lia. }
  destruct Hres as [w7 [tr6 [Hres [Hlock7 Hst7]]]].
  rewrite (bind_Ok _ _ w4 tt _ tr6 Hres).
  cbn [ret].
  eexists _, _. split; [reflexivity|].
  split; assumption.
- (* the timer is started *)
  destruct (on_shuffle_volume_ok w3 who pc (from * normalizer)%Q Hpc3)
    as [s4 [tr4 Hv4]].
  rewrite (bind_Ok _ _ w3 tt _ tr4 Hv4).
  set (w4 := put_piece who _ w3).
  rewrite (bind_Ok_silent _ _ w4 w4 w4) by reflexivity.
  unfold setInterval.
  rewrite (bind_Ok_silent _ _ w4 (length (intervals w4))
             (set_intervals (intervals w4 ++
                [Some (mkStepper who from (Some (to - from)%Q) (Some msec) (clock w4) (length (heap w))
                         normalizer easing)]) w4)) by reflexivity.
  set (w5 := set_intervals _ w4).
  assert (Hpc5 : piece_of w5 who = Some (mkPiece s4 (_fading pc))).
  { apply (piece_of_put_same w3 who pc). exact Hpc3. }
  rewrite (bind_Ok_silent _ _ w5 tt _ (modify_lock_ok w5 who _ _ Hpc5)).
  set (w6 := put_piece who _ w5).
  assert (Hheap6 : heap w6 !! length (heap w)
            = Some (mkDeferred Pending
                      [FadeFinalVolume who (Some to) normalizer; FadeRelease who]
                      [FadeRelease who] 0)).
  { simpl. rewrite lookup_app_r by lia. now rewrite Nat.sub_diag. }
  assert (Halways : exists w7,
    dfd_always (interp (S fuel)) (length (heap w)) (FadeClearInterval (length (intervals w4))) w6
    = Ok tt w7 [] /\
    piece_of w7 who = piece_of w6 who /\
    status_of w7 (length (heap w)) = Some Pending).
  { unfold dfd_always.
    rewrite (bind_Ok_silent _ _ w6 tt _
               (dfd_done_pending _ w6 _ _ _ Hheap6 eq_refl)).
    set (w6' := set_heap _ w6).
    assert (Hheap6' : heap w6' !! length (heap w)
              = Some (mkDeferred Pending
                        ([FadeFinalVolume who (Some to) normalizer; FadeRelease who]
                         ++ [FadeClearInterval (length (intervals w4))])
                        [FadeRelease who] 0)).
    { unfold w6'. simpl. rewrite list_lookup_insert_eq; [reflexivity|].
      rewrite length_app. simpl. lia. }
    rewrite (dfd_fail_pending _ w6' _ _ _ Hheap6' eq_refl).
    eexists. split; [reflexivity|]. split; [reflexivity|].
    unfold status_of. simpl. rewrite list_lookup_insert_eq; [reflexivity|].
    rewrite length_insert, length_app. simpl. lia. }
  destruct Halways as [w7 [Hal [Hp7 Hs7]]].
  rewrite (bind_Ok_silent _ _ w6 tt w7 Hal).
  cbn [ret].
  eexists _, _. split; [reflexivity|].
  split; [|exact Hs7].
  unfold lock_of. rewrite Hp7.
  unfold w6. erewrite piece_of_put_same by exact Hpc5. reflexivity.
Qed.

Lemma fade_start_returns fuel w who pc from to msec normalizer easing :
  piece_of w who = Some pc ->
  exists w' tr,
    fade_start listeners (interp (S fuel)) who from (Some to) (Some msec) normalizer easing w
    = Ok (length (heap w)) w' tr /\
    extends w w' /\
    if nothing_to_do to msec (gain (shuffle pc))
    then lock_of w' who = Some no_lock /\
         status_of w' (length (heap w)) = Some Resolved
    else lock_of w' who = Some (mkLock (Some (length (heap w))) (lock_priority (_fading pc))) /\
         status_of w' (length (heap w)) = Some Pending.
Proof.
intros Hpc.
destruct (fade_start_run fuel w who pc from to msec normalizer easing Hpc)
  as [w' [tr [Hrun Hpost]]].
exists w', tr. split; [exact Hrun|]. split; [|exact Hpost].
pose proof (preserves_fade_start listeners (interp (S fuel)) (interp_preserves (S fuel))
              who from (Some to) (Some msec) normalizer easing w) as Hext.
now rewrite Hrun in Hext.
Qed.

(** The functions that [fade] itself attaches for a rejection, run on a
    piece: the lock is emptied and the timer cleared. *)
Lemma reject_own_functions fuel w who pc d dl stepper r :
  piece_of w who = Some pc ->
  heap w !! d = Some (mkDeferred Pending dl [FadeRelease who; FadeClearInterval stepper] r) ->
  exists w1,
    dfd_reject (interp (S fuel)) d w = Ok tt w1 [] /\
    lock_of w1 who = Some no_lock /\
    status_of w1 d = Some Rejected /\
    intervals w1 = <[stepper := None]> (intervals w).
Proof.
intros Hpc Hd. unfold dfd_reject.
rewrite (settle_pending _ w Rejected d _ Hd eq_refl).
cbn [fail_list remaining run_each].
set (w0 := set_heap _ w).
assert (Hpc0 : piece_of w0 who = Some pc) by exact Hpc.
assert (Hfr : interp (S fuel) (FadeRelease who) w0
              = Ok tt (put_piece who (mkPiece (shuffle pc) no_lock) w0) []).
{ unfold interp. cbn [Music.run_closure Music.run_closure_body].
  exact (modify_lock_ok w0 who _ (fun _ => no_lock) Hpc0). }
rewrite (bind_Ok_silent _ _ w0 tt _ Hfr).
set (w1 := put_piece who _ w0).
assert (Hci : interp (S fuel) (FadeClearInterval stepper) w1
              = Ok tt (set_intervals (<[stepper := None]> (intervals w1)) w1) []).
{ reflexivity. }
rewrite (bind_Ok_silent _ _ w1 tt _ Hci).
eexists. split; [reflexivity|]. split; [|split].
- unfold lock_of.
  change (piece_of (set_intervals (<[stepper:=None]> (intervals w1)) w1) who)
    with (piece_of w1 who).
  unfold w1. erewrite piece_of_put_same by exact Hpc0. reflexivity.
- unfold status_of. simpl.
  rewrite list_lookup_insert_eq by (eapply lookup_lt_Some; eauto). reflexivity.
- reflexivity.
Qed.

(** [cancelFade(q')] on a piece with a fade of priority [p] in flight. *)
Lemma cancelFade_rejects run w who d p q' :
  in_flight w who d p -> p <= q' ->
  cancelFade run who (Some q') w = dfd_reject run d w.
Proof.
intros (pc & Hpc & Hlock & Hd) Hle. unfold cancelFade.
rewrite (bind_Ok_silent _ _ w pc w) by now apply the_piece_ok.
rewrite Hlock. cbn [lock_promise lock_priority SonicUtils.nvl].
destruct (Z.leb_spec p q'); [reflexivity | lia].
Qed.

Lemma cancelFade_ignored run w who d p q' :
  in_flight w who d p -> q' < p ->
  cancelFade run who (Some q') w = Ok tt w [].
Proof.
intros (pc & Hpc & Hlock & Hd) Hlt. unfold cancelFade.
rewrite (bind_Ok_silent _ _ w pc w) by now apply the_piece_ok.
rewrite Hlock. cbn [lock_promise lock_priority SonicUtils.nvl].
destruct (Z.leb_spec p q'); [lia | reflexivity].
Qed.

(** The rejection of the fade in flight, once the functions waiting on
    it have run, leaves its deferred object rejected. *)
Lemma rejected_after fuel w who d p w1 tr1 :
  in_flight w who d p ->
  dfd_reject (interp fuel) d w = Ok tt w1 tr1 ->
  status_of w1 d = Some Rejected.
Proof.
intros Hin Hrej.
destruct (fade_arbitrate_takes_over fuel w who d p p w1 tr1 Hin (Z.le_refl p) Hrej)
  as (pc1 & _ & Hst & _).
exact Hst.
Qed.

(** What C5 says of a piece with a fade of priority [p] in flight on the
    deferred object [d], for a request [args] of priority [q] and for
    [cancelFade(q')]. *)
Definition priority_lock (fuel : nat) (w : World Track) (who : string) (d : nat) (p : Z)
  (args : fade_args) (to msec : Q) (q' : Z) : Prop :=
let q := SonicUtils.nvl (fa_priority args) 0 in
let run := interp (S fuel) in
(* a request of lower priority *)
(q < p ->
   exists w',
     fade listeners default_easing run who args w = Ok (length (heap w)) w' [] /\
     status_of w (length (heap w)) = None /\
     status_of w' (length (heap w)) = Some Rejected /\
     _library w' = _library w /\
     intervals w' = intervals w /\
     (forall d0, (d0 < length (heap w))%nat -> heap w' !! d0 = heap w !! d0)) /\
(* a request of the same priority or above, when the functions waiting
   on the fade in flight run to their end *)
(p <= q -> forall w1 tr1, dfd_reject run d w = Ok tt w1 tr1 ->
   (exists w2,
      fade_arbitrate run who q w = Ok None w2 tr1 /\
      status_of w2 d = Some Rejected /\
      lock_priority <$> lock_of w2 who = Some (Some q)) /\
   (exists pc1 d' w' tr,
      piece_of w1 who = Some pc1 /\
      fade listeners default_easing run who args w = Ok d' w' tr /\
      status_of w d' = None /\
      status_of w' d = Some Rejected /\
      if nothing_to_do to msec (gain (shuffle pc1))
      then lock_of w' who = Some no_lock /\ status_of w' d' = Some Resolved
      else lock_of w' who = Some (mkLock (Some d') (Some q)) /\
           status_of w' d' = Some Pending)) /\
(* cancelFade *)
(p <= q' ->
   cancelFade run who (Some q') w = dfd_reject run d w /\
   forall w1 tr1, dfd_reject run d w = Ok tt w1 tr1 -> status_of w1 d = Some Rejected) /\
(q' < p -> cancelFade run who (Some q') w = Ok tt w []).

(** C5: with a fade of priority [p] in flight, a request of priority
    [q < p] returns a fresh, already rejected deferred object and leaves
    the fade in flight, the lock and the timers as they are; a request of
    priority [q >= p] rejects the deferred object of the fade in flight
    and records [q] in the lock, after which the new fade holds the lock
    until it ends; [cancelFade(q')] rejects the fade in flight when
    [p <= q'] and does nothing otherwise.  A refusal is a returned
    object, never a thrown error. *)
Theorem fade_priority_lock fuel w who d p args to msec q' :
  in_flight w who d p ->
  fa_to args = Some to -> fa_msec args = Some msec ->
  priority_lock fuel w who d p args to msec q'.
Proof.
intros Hin Hto Hmsec. unfold priority_lock.
set (q := SonicUtils.nvl (fa_priority args) 0).
split; [|split; [|split]].
- intros Hlt. eexists. split.
  + exact (fade_refused _ w who d p args to msec Hin Hto Hmsec Hlt).
  + destruct Hin as (pc & Hpc & Hlock & Hd).
    split; [|split; [|split; [|split]]].
    * unfold status_of. now rewrite (lookup_ge_None_2 (heap w) (length (heap w))).
    * apply status_of_fresh.
    * reflexivity.
    * reflexivity.
    * intros d0 Hd0. simpl. now rewrite lookup_app_l.
- intros Hle w1 tr1 Hrej.
  destruct (fade_arbitrate_takes_over (S fuel) w who d p q w1 tr1 Hin Hle Hrej)
    as (pc1 & Hpc1 & Hst1 & Harb).
  set (pc2 := mkPiece (shuffle pc1) (mkLock (lock_promise (_fading pc1)) (Some q))) in *.
  set (w2 := put_piece who pc2 w1) in *.
  assert (Hpc2 : piece_of w2 who = Some pc2).
  { eapply piece_of_put_same. exact Hpc1. }
  split.
  + exists w2. split; [exact Harb|]. split; [exact Hst1|].
    unfold lock_of. now rewrite Hpc2.
  + destruct Hin as (pc & Hpc & Hlock & Hd).
    set (from := SonicUtils.nvl (fa_from args) (gain (shuffle pc))).
    destruct (fade_start_returns fuel w2 who pc2 from to msec
                (SonicUtils.nvl (fa_normalizer args) 1%Q)
                (SonicUtils.nvl (fa_easing args) default_easing) Hpc2)
      as (w' & tr & Hrun & Hext & Hpost).
    exists pc1, (length (heap w2)), w', (tr1 ++ tr).
    split; [exact Hpc1|]. split; [|split; [|split]].
    * unfold fade.
      rewrite (bind_Ok_silent _ _ w pc w) by now apply the_piece_ok.
      rewrite Hto, Hmsec. cbn [wlift SonicUtils.assertDefined SonicUtils.field].
      rewrite (bind_Ok_silent _ _ w (SonicUtils.Given to) w) by reflexivity.
      rewrite (bind_Ok_silent _ _ w (SonicUtils.Given msec) w) by reflexivity.
      cbn [SonicUtils.number_of].
      fold q. rewrite (bind_Ok _ _ w None w2 tr1 Harb).
      fold from. now rewrite Hrun.
    * (* the new object did not exist before *)
      assert (Hgrow : (length (heap w) <= length (heap w1))%nat).
      { pose proof (preserves_dfd_reject (interp (S fuel)) (interp_preserves (S fuel)) d w)
          as He.
        rewrite Hrej in He. simpl in He. destruct He as (_ & Hkeep & _).
        destruct (le_lt_dec (length (heap w)) (length (heap w1))) as [?|Hlt]; [assumption|].
        exfalso.
        destruct (lookup_lt_is_Some_2 (heap w) (length (heap w1)) Hlt) as [df Hdf].
        destruct (Hkeep (length (heap w1))) as [st Hst'].
        { unfold status_of. rewrite Hdf. eauto. }
        unfold status_of in Hst'.
        rewrite (lookup_ge_None_2 (heap w1) (length (heap w1))) in Hst' by lia.
        discriminate. }
      unfold status_of.
      rewrite (lookup_ge_None_2 (heap w) (length (heap w2))); [reflexivity|].
      change (heap w2) with (heap w1). lia.
    * destruct Hext as (_ & _ & _ & Hkeep). apply Hkeep. exact Hst1.
    * change (gain (shuffle pc2)) with (gain (shuffle pc1)) in Hpost.
      exact Hpost.
- intros Hle. split.
  + exact (cancelFade_rejects _ w who d p q' Hin Hle).
  + intros w1 tr1 Hrej. exact (rejected_after (S fuel) w who d p w1 tr1 Hin Hrej).
- intros Hlt. exact (cancelFade_ignored _ w who d p q' Hin Hlt).
Qed.

(** [play()] on a Shuffle without sections: a message on the console,
    unless the Shuffle is marked as playing, and nothing changed. *)
Lemma play_without_sections (l : event -> list (Shuffle Track -> Shuffle Track))
    (s : Shuffle Track) (draw : Q) :
  sections s = [] ->
  SonicShuffle_play l draw s
  = Ok tt s
      (if bool_decide (state s = playing) then []
       else [ConsoleLog
               "There are no sections included in this sonic shuffle. Unable to initiate play."]).
Proof.
intros Hempty. unfold SonicShuffle_play, play.
rewrite (bind_Ok_silent _ _ s s s) by reflexivity.
destruct (bool_decide (state s = playing)); [reflexivity|].
rewrite Hempty. reflexivity.
Qed.

(** [assertDefined] on a field of the request, missing or not. *)
Lemma assertDefined_field {A} (x : option A) (w : World Track) :
  wlift (SonicUtils.assertDefined (SonicUtils.field x) None) w
  = Ok (SonicUtils.field x) w [].
Proof. now destruct x. Qed.

Lemma number_of_field (x : option Q) : SonicUtils.number_of (SonicUtils.field x) = x.
Proof. now destruct x. Qed.

(** The setter of the volume triggers events and logs nothing. *)
Lemma on_shuffle_volume_heard w who (p : Piece Track) v :
  piece_of w who = Some p ->
  exists s' tr,
    on_shuffle who (volume_set (listeners who) v) w
    = Ok tt (put_piece who (mkPiece s' (_fading p)) w) tr /\
    forall o, In o tr -> exists e, o = Heard who (Triggered e).
Proof.
intros Hp. unfold on_shuffle, piece_of in *.
destruct (lib_lookup who (_library w)) as [[|q]|]; try discriminate.
injection Hp as ->.
unfold volume_set, bind, modify, get, trigger, tell, mute, forEachSection. simpl.
destruct (muted _); simpl; eexists _, _; (split; [reflexivity|]);
  intros o Ho; simpl in Ho; intuition (subst; eauto).
Qed.

(** A fade that does not end at once, on a piece that is not fading,
    whether the request has a target and a duration or not: the gain is
    set from [from], a timer is started and the lock holds the new
    deferred object. *)
Lemma fade_start_timer fuel w who pc from to msec normalizer easing :
  piece_of w who = Some pc ->
  fade_is_over to msec (gain (shuffle pc)) = false ->
  exists w' tr,
    fade_start listeners (interp (S fuel)) who from to msec normalizer easing w
    = Ok (length (heap w)) w' tr /\
    (forall o, In o tr -> exists e, o = Heard who (Triggered e)) /\
    lock_of w' who
    = Some (mkLock (Some (length (heap w))) (lock_priority (_fading pc))) /\
    status_of w' (length (heap w)) = Some Pending /\
    intervals w'
    = intervals w ++ [Some (mkStepper who from (option_map (fun to => to - from)%Q to) msec
                              (clock w) (length (heap w)) normalizer easing)].
Proof.
intros Hpc Hwork.
unfold fade_start.
rewrite (bind_Ok_silent _ _ w _ _ (jq_Deferred_run w)).
rewrite (bind_Ok_silent _ _ _ tt
           (set_heap (heap w ++ [mkDeferred Pending
                        [FadeFinalVolume who to normalizer] [] 0]) w)).
2:{ now rewrite dfd_done_last. }
rewrite (bind_Ok_silent _ _ _ tt
           (set_heap (heap w ++ [mkDeferred Pending
                        [FadeFinalVolume who to normalizer; FadeRelease who]
                        [FadeRelease who] 0]) w)).
2:{ now rewrite dfd_always_last. }
set (w3 := set_heap _ w).
assert (Hpc3 : piece_of w3 who = Some pc) by exact Hpc.
rewrite (bind_Ok_silent _ _ w3 pc w3 (the_piece_ok _ _ _ Hpc3)).
rewrite Hwork.
destruct (on_shuffle_volume_heard w3 who pc (from * normalizer)%Q Hpc3)
  as (s4 & tr4 & Hv4 & Hheard).
rewrite (bind_Ok _ _ w3 tt _ tr4 Hv4).
set (w4 := put_piece who _ w3).
rewrite (bind_Ok_silent _ _ w4 w4 w4) by reflexivity.
unfold setInterval.
rewrite (bind_Ok_silent _ _ w4 (length (intervals w4))
           (set_intervals (intervals w4 ++
              [Some (mkStepper who from (option_map (fun to => to - from)%Q to) msec
                       (clock w4) (length (heap w)) normalizer easing)]) w4))
  by reflexivity.
set (w5 := set_intervals _ w4).
assert (Hpc5 : piece_of w5 who = Some (mkPiece s4 (_fading pc))).
{ apply (piece_of_put_same w3 who pc). exact Hpc3. }
rewrite (bind_Ok_silent _ _ w5 tt _ (modify_lock_ok w5 who _ _ Hpc5)).
set (w6 := put_piece who _ w5).
assert (Hheap6 : heap w6 !! length (heap w)
          = Some (mkDeferred Pending
                    [FadeFinalVolume who to normalizer; FadeRelease who]
                    [FadeRelease who] 0)).
{ simpl. rewrite lookup_app_r by lia. now rewrite Nat.sub_diag. }
assert (Halways : exists w7,
  dfd_always (interp (S fuel)) (length (heap w)) (FadeClearInterval (length (intervals w4))) w6
  = Ok tt w7 [] /\
  piece_of w7 who = piece_of w6 who /\
  status_of w7 (length (heap w)) = Some Pending /\
  intervals w7 = intervals w6).
{ unfold dfd_always.
  rewrite (bind_Ok_silent _ _ w6 tt _
             (dfd_done_pending _ w6 _ _ _ Hheap6 eq_refl)).
  set (w6' := set_heap _ w6).
  assert (Hheap6' : heap w6' !! length (heap w)
            = Some (mkDeferred Pending
                      ([FadeFinalVolume who to normalizer; FadeRelease who]
                       ++ [FadeClearInterval (length (intervals w4))])
                      [FadeRelease who] 0)).
  { unfold w6'. simpl. rewrite list_lookup_insert_eq; [reflexivity|].
    rewrite length_app. simpl. lia. }
  rewrite (dfd_fail_pending _ w6' _ _ _ Hheap6' eq_refl).
  eexists. split; [reflexivity|]. split; [reflexivity|]. split; [|reflexivity].
  unfold status_of. simpl. rewrite list_lookup_insert_eq; [reflexivity|].
  rewrite length_insert, length_app. simpl. lia. }
destruct Halways as (w7 & Hal & Hp7 & Hs7 & Hi7).
rewrite (bind_Ok_silent _ _ w6 tt w7 Hal).
cbn [ret]. rewrite app_nil_r.
eexists _, _. split; [reflexivity|].
split; [exact Hheard|]. split; [|split; [exact Hs7|]].
- unfold lock_of. rewrite Hp7.
  unfold w6. erewrite piece_of_put_same by exact Hpc5. reflexivity.
- rewrite Hi7. reflexivity.
Qed.

(** C7 on [fade], as the spec has it: a request without [to] or
    without [msec] comes back as a failed result, and the piece with
    its lock and the timers are as before. *)
Definition fade_reports (run : closure -> WM Track unit) (w : World Track)
  (who : string) (args : fade_args) : Prop :=
fa_to args = None \/ fa_msec args = None ->
exists d w' tr,
  fade listeners default_easing run who args w = Ok d w' tr /\
  status_of w' d = Some Rejected /\
  _library w' = _library w /\
  intervals w' = intervals w.

(** What the code does with such a request on a piece that is not
    fading: the fade starts as any other.  The call returns a new
    deferred object, which is pending; it logs nothing; the lock of the
    piece holds that object with the priority of the request, and a
    timer runs, with [NaN] for a step when [to] is missing and without
    a duration when [msec] is. *)
Definition fade_goes_on (fuel : nat) (w : World Track) (who : string)
  (args : fade_args) (from : Q) : Prop :=
let d := length (heap w) in
let delta := option_map (fun to => to - from)%Q (fa_to args) in
exists w' tr,
  fade listeners default_easing (interp (S fuel)) who args w = Ok d w' tr /\
  (forall o, In o tr -> exists e, o = Heard who (Triggered e)) /\
  status_of w d = None /\
  status_of w' d = Some Pending /\
  lock_of w' who = Some (mkLock (Some d) (Some (SonicUtils.nvl (fa_priority args) 0))) /\
  intervals w'
  = intervals w ++ [Some (mkStepper who from delta (fa_msec args) (clock w) d
                            (SonicUtils.nvl (fa_normalizer args) 1%Q)
                            (SonicUtils.nvl (fa_easing args) default_easing))].

(** C7, the divergence: [assertDefined] compares its argument with the
    jQuery function, so a [to] or an [msec] that is missing passes it.
    On a piece that is not fading, a request with [from] and without
    [to] or without [msec] that is not over at once (the duration, when
    there is one, is not 0; the target, when there is one, is not the
    gain) is neither thrown back nor refused: it starts a fade, takes
    the lock and a timer.  This is not the failed result that leaves
    the state unchanged. *)
Theorem fade_without_to_or_msec_goes_on fuel w who pc args from :
  piece_of w who = Some pc ->
  lock_promise (_fading pc) = None ->
  fa_from args = Some from ->
  fa_to args = None \/ fa_msec args = None ->
  fade_is_over (fa_to args) (fa_msec args) (gain (shuffle pc)) = false ->
  fade_goes_on fuel w who args from /\
  ~ fade_reports (interp (S fuel)) w who args.
Proof.
intros Hpc Hfree Hfrom Hmissing Hwork.
set (priority := SonicUtils.nvl (fa_priority args) 0).
set (pc0 := mkPiece (shuffle pc) (mkLock (lock_promise (_fading pc)) (Some priority))).
set (w0 := put_piece who pc0 w).
assert (Hpc0 : piece_of w0 who = Some pc0).
{ eapply piece_of_put_same. exact Hpc. }
destruct (fade_start_timer fuel w0 who pc0 from (fa_to args) (fa_msec args)
            (SonicUtils.nvl (fa_normalizer args) 1%Q)
            (SonicUtils.nvl (fa_easing args) default_easing) Hpc0 Hwork)
  as (w' & tr & Hstart & Hheard & Hlock & Hstatus & Htimers).
assert (Hrun : fade listeners default_easing (interp (S fuel)) who args w
               = Ok (length (heap w)) w' tr).
{ unfold fade.
  rewrite (bind_Ok_silent _ _ w pc w) by now apply the_piece_ok.
  rewrite (bind_Ok_silent _ _ w _ w (assertDefined_field (fa_to args) w)).
  rewrite (bind_Ok_silent _ _ w _ w (assertDefined_field (fa_msec args) w)).
  rewrite !number_of_field. rewrite Hfrom. cbn [SonicUtils.nvl].
  fold priority.
  assert (Harb : fade_arbitrate (interp (S fuel)) who priority w = Ok None w0 []).
  { unfold fade_arbitrate.
    rewrite (bind_Ok_silent _ _ w pc w) by now apply the_piece_ok.
    rewrite Hfree.
    rewrite (bind_Ok_silent _ _ w None w) by reflexivity.
    rewrite (bind_Ok_silent _ _ w tt w0); [reflexivity|].
    exact (modify_lock_ok w who pc _ Hpc). }
  rewrite (bind_Ok_silent _ _ w None w0 Harb).
  exact Hstart. }
split.
- exists w', tr. split; [exact Hrun|]. split; [exact Hheard|].
  split; [|split; [exact Hstatus|split; [|exact Htimers]]].
  + unfold status_of. now rewrite (lookup_ge_None_2 (heap w) (length (heap w))).
  + rewrite Hlock. unfold pc0. cbn [_fading lock_priority]. reflexivity.
- intros Hclaim.
  destruct (Hclaim Hmissing) as (d & w'' & tr'' & Hrun' & Hrejected & _).
  rewrite Hrun in Hrun'. injection Hrun' as <- <- <-.
  change (status_of w' (length (heap w0))) with (status_of w' (length (heap w))) in Hstatus.
  rewrite Hstatus in Hrejected. discriminate.
Qed.

End FadeLock.

(** *** Examples and counterexamples for the fades *)

(** No handlers, draws at 0, client functions that do nothing, and a
    linear easing in the place of the default one. *)
Definition quiet : string -> event -> list (Shuffle Howl -> Shuffle Howl) :=
fun _ _ => [].

Definition run_quiet (fuel : nat) : closure -> WM Howl unit :=
interp quiet (fun _ => 0%Q) (fun _ s => s) (fun t => t) fuel.

Definition fade_quiet (who : string) (args : fade_args) : WM Howl nat :=
fade quiet (fun t => t) (run_quiet 3) who args.

(** A piece [x] that is playing at full volume, alone in the library. *)
Definition piece_x : Shuffle Howl :=
mkShuffle 1 (Some "x"%string) None [[howl "a1"; howl "a2"]; [howl "b1"]]
  [[false; true]; [true]] false false None (VInt 0) (VInt 0) playing false "cycle".

Definition studio : World Howl :=
mkWorld [("x"%string, Loaded (mkPiece piece_x no_lock))]
  (Some "x"%string) (Some "x"%string) 1 playing false None [] [] 0 0.

(** [{from: null, to: 0, msec: 2500, priority: priority}]: a fade to
    silence from the gain that the piece has. *)
Definition request (priority : Z) : fade_args :=
mkFadeArgs None (Some 0%Q) (Some 2500%Q) (Some priority) None None.

Definition fading_studio : World Howl :=
final_state (fade_quiet "x" (request 2) studio).

Example fading_studio_in_flight : in_flight fading_studio "x" 0 2.
Proof.
eexists. split; [reflexivity|]. split; reflexivity.
Qed.

Lemma fade_priority_lock_witness :
  in_flight fading_studio "x" 0 2 /\
  fa_to (request 1) = Some 0%Q /\ fa_msec (request 1) = Some 2500%Q /\
  priority_lock quiet (fun _ => 0%Q) (fun _ s => s) (fun t => t)
    2 fading_studio "x" 0 2 (request 1) 0 2500 2.
Proof.
split; [exact fading_studio_in_flight|]. split; [reflexivity|]. split; [reflexivity|].
apply (fade_priority_lock quiet (fun _ => 0%Q) (fun _ s => s) (fun t => t)
         2 fading_studio "x" 0 2 (request 1) 0 2500 2).
- exact fading_studio_in_flight.
- reflexivity.
- reflexivity.
Defined.

(** A fade of priority 2 is not interrupted by a request of priority 1,
    which comes back rejected, and is interrupted by requests of
    priority 2 and 3. *)
Example fade_priority_scenario :
  let after q := fade_quiet "x" (request q) fading_studio in
  (returned (after 1) = Some 1%nat /\
   status_of (final_state (after 1)) 1 = Some Rejected /\
   status_of (final_state (after 1)) 0 = Some Pending /\
   lock_of (final_state (after 1)) "x" = Some (mkLock (Some 0%nat) (Some 2))) /\
  (returned (after 2) = Some 1%nat /\
   status_of (final_state (after 2)) 0 = Some Rejected /\
   status_of (final_state (after 2)) 1 = Some Pending /\
   lock_of (final_state (after 2)) "x" = Some (mkLock (Some 1%nat) (Some 2))) /\
  (returned (after 3) = Some 1%nat /\
   status_of (final_state (after 3)) 0 = Some Rejected /\
   lock_of (final_state (after 3)) "x" = Some (mkLock (Some 1%nat) (Some 3))).
Proof. vm_compute. repeat split. Qed.

(** [cancelFade(2)] cancels a fade of priority 2; [cancelFade(1)] does
    not. *)
Example cancelFade_scenario :
  status_of (final_state (cancelFade (run_quiet 3) "x" (Some 2) fading_studio)) 0
  = Some Rejected /\
  cancelFade (run_quiet 3) "x" (Some 1) fading_studio = Ok tt fading_studio [].
Proof. vm_compute. split; reflexivity. Qed.

(** [x.fade({from: 1, msec: 2500})]: a request without [to]. *)
Definition request_without_to : fade_args :=
mkFadeArgs (Some 1%Q) None (Some 2500%Q) None None None.

(** [x.fade({from: 1, to: 0})]: a request without [msec]. *)
Definition request_without_msec : fade_args :=
mkFadeArgs (Some 1%Q) (Some 0%Q) None None None None.

Lemma fade_without_to_or_msec_goes_on_witness :
  fade_goes_on quiet (fun _ => 0%Q) (fun _ s => s) (fun t => t) 2 studio "x"
    request_without_to 1 /\
  ~ fade_reports quiet (fun t => t) (run_quiet 3) studio "x" request_without_to.
Proof.
apply (fade_without_to_or_msec_goes_on quiet (fun _ => 0%Q) (fun _ s => s) (fun t => t)
         2 studio "x" (mkPiece piece_x no_lock) request_without_to 1).
- reflexivity.
- reflexivity.
- reflexivity.
- left. reflexivity.
- reflexivity.
Defined.

(** The two requests on the piece [x]: each returns the deferred
    object 0, pending, with the lock taken at priority 0 and the timer 0
    started.  When the timer fires, the volume that the code computes is
    [NaN]: the run leaves the model. *)
Example fade_without_to_scenario :
  let w1 := final_state (fade_quiet "x" request_without_to studio) in
  let w2 := final_state (fade_quiet "x" request_without_msec studio) in
  returned (fade_quiet "x" request_without_to studio) = Some 0%nat /\
  status_of w1 0 = Some Pending /\
  lock_of w1 "x" = Some (mkLock (Some 0%nat) (Some 0)) /\
  lock_of studio "x" = Some no_lock /\
  length (intervals w1) = 1%nat /\
  tick quiet (run_quiet 3) 0 1000 w1 = Exn NotANumber (set_clock 1000 w1) [] /\
  returned (fade_quiet "x" request_without_msec studio) = Some 0%nat /\
  status_of w2 0 = Some Pending /\
  lock_of w2 "x" = Some (mkLock (Some 0%nat) (Some 0)) /\
  tick quiet (run_quiet 3) 0 1000 w2 = Exn NotANumber (set_clock 1000 w2) [].
Proof. vm_compute. repeat split. Qed.

(** A Shuffle built without sections, and [play()] on it. *)
Definition empty_shuffle : Shuffle Howl := fresh_shuffle [] "fullcycle".

Example play_on_empty_shuffle :
  SonicShuffle_play no_listeners 0 empty_shuffle
  = Ok tt empty_shuffle
      [ConsoleLog
         "There are no sections included in this sonic shuffle. Unable to initiate play."].
Proof. reflexivity. Qed.

(* ------------------------------------------------------------------ *)
(** ** [play] on a Shuffle without handlers *)
(* ------------------------------------------------------------------ *)

Section QuietShuffle.
Context {Track : Type} `{TrackOps Track}.
Variable listeners : event -> list (Shuffle Track -> Shuffle Track).
Hypothesis no_handlers : forall e, listeners e = [].

















(** Without handlers, [volume(v)] returns and changes neither the play
    state nor the mute flag. *)
Lemma volume_set_quiet v (s : Shuffle Track) :
  exists s' tr,
    volume_set listeners v s = Ok tt s' tr /\
    state s' = state s /\ muted s' = muted s.
Proof.
unfold volume_set, mute, trigger, forEachSection, bind, modify, get, tell.
rewrite !no_handlers. simpl.
destruct (muted s) eqn:Hm; simpl; rewrite ?no_handlers; simpl; eauto.
Qed.

End QuietShuffle.

(* ------------------------------------------------------------------ *)
(** ** Music.js: two switches in a row *)
(* ------------------------------------------------------------------ *)

Section Switching.
Context {Track : Type} `{TrackOps Track}.
Variable listeners : string -> event -> list (Shuffle Track -> Shuffle Track).
Variable rnd : nat -> Q.
Variable client : nat -> Shuffle Track -> Shuffle Track.
Variable default_easing : Q -> Q.

(** [Music.play] with the interpreter of attached functions. *)
Definition switch_to (fuel : nat) (piece : string) : WM Track nat :=
Music.play listeners default_easing (interp listeners rnd client default_easing fuel) piece.

(** A timer of a fade fires. *)
Definition timer_fires (fuel : nat) (stepper : nat) (now : Q) : WM Track unit :=
tick listeners (interp listeners rnd client default_easing fuel) stepper now.




(** The world after a series of timer firings, each given by its timer
    and the time on the clock.  An error thrown by one firing ends that
    firing only. *)
Fixpoint after_firings (fuel : nat) (firings : list (nat * Q)) (w : World Track)
  : World Track :=
match firings with
| [] => w
| (stepper, now) :: rest =>
    after_firings fuel rest (final_state (timer_fires fuel stepper now w))
end.





(** What the timer of a fade does when it fires. *)
Lemma tick_unfold run stepper now (w : World Track) :
  tick listeners run stepper now w
  = match intervals w !! stepper with
    | Some (Some st) =>
        match st_msec st with
        | Some msec =>
            if Qle_bool 1 ((now - st_start st) / msec)
            then dfd_resolve run (st_promise st) (set_clock now w)
            else
              (let! v := mutevol (st_who st)
                           (option_map
                              (fun delta =>
                                 ((st_from st
                                   + delta * st_easing st ((now - st_start st) / msec))
                                  * st_normalizer st)%Q)
                              (st_delta st)) in
               fade_volume listeners (st_who st) v)
                (set_clock now w)
        | None => Exn NotANumber (set_clock now w) []
        end
    | _ => Ok tt (set_clock now w) []
    end.
Proof.
unfold tick.
rewrite (bind_Ok_silent _ _ w tt (set_clock now w)) by reflexivity.
rewrite (bind_Ok_silent _ _ _ (set_clock now w) (set_clock now w)) by reflexivity.
change (intervals (set_clock now w)) with (intervals w).
destruct (intervals w !! stepper) as [[st|]|]; try reflexivity.
destruct (st_msec st) as [msec|]; [|reflexivity].
cbv zeta. destruct (Qle_bool 1 _); reflexivity.
Qed.

Lemma heap_on_shuffle {A} who (m : M (Shuffle Track) observation js_error A)
    (w : World Track) :
  heap (final_state (on_shuffle who m w)) = heap w.
Proof.
unfold on_shuffle.
destruct (lib_lookup who (_library w)) as [[|p]|]; try reflexivity.
destruct (m (shuffle p)); reflexivity.
Qed.

Lemma heap_bind {A B} (m : WM Track A) (k : A -> WM Track B) (w : World Track) :
  (forall w0, heap (final_state (m w0)) = heap w0) ->
  (forall a w0, heap (final_state (k a w0)) = heap w0) ->
  heap (final_state (bind m k w)) = heap w.
Proof.
intros Hm Hk. unfold bind. specialize (Hm w).
destruct (m w) as [a w1 tr1|e w1 tr1]; simpl in *; [|exact Hm].
specialize (Hk a w1). destruct (k a w1); simpl in *; congruence.
Qed.

Lemma heap_mutevol who v (w : World Track) :
  heap (final_state (mutevol who v w)) = heap w.
Proof.
unfold mutevol, the_piece, bind, get.
destruct (lib_lookup who (_library w)) as [[|p]|]; reflexivity.
Qed.

Lemma heap_fade_volume who v (w : World Track) :
  heap (final_state (fade_volume listeners who v w)) = heap w.
Proof.
destruct v as [v|]; [apply heap_on_shuffle | reflexivity].
Qed.

(** A timer that has not run its time changes no deferred object. *)
Lemma tick_early_heap run stepper now st msec (w : World Track) :
  intervals w !! stepper = Some (Some st) ->
  st_msec st = Some msec ->
  Qle_bool 1 ((now - st_start st) / msec) = false ->
  heap (final_state (tick listeners run stepper now w)) = heap w.
Proof.
intros Hst Hmsec Hearly. rewrite tick_unfold, Hst, Hmsec, Hearly.
change (heap w) with (heap (set_clock now w)).
apply heap_bind.
- intros w0. apply heap_mutevol.
- intros v w0. apply heap_fade_volume.
Qed.






End Switching.

(* ------------------------------------------------------------------ *)
(** ** Music.js: the request of A, then of B, while X plays *)
(* ------------------------------------------------------------------ *)

Section ThreePieces.
Context {Track : Type} `{TrackOps Track}.


(** A session at full volume in which the piece [X] is playing, without
    any fade or switch in flight, and the pieces [A] and [B] have not
    been used yet. *)
Definition three_pieces (X A B : Shuffle Track) : World Track :=
mkWorld
  [("X"%string, Loaded (mkPiece X no_lock)); ("A"%string, Thunk A); ("B"%string, Thunk B)]
  (Some "X"%string) (Some "X"%string) 1 playing false None [] [] 0 0.

End ThreePieces.

(** *** Examples and counterexamples for the switches *)

(** Two pieces that have not been used yet. *)
Definition piece_a : Shuffle Howl :=
fresh_shuffle [[howl "a1"; howl "a2"]; [howl "a3"]] "cycle".

Definition piece_b : Shuffle Howl :=
fresh_shuffle [[howl "b1"]; [howl "b2"]] "cycle".

(** The session in which [piece_x] is playing and [A] and [B] wait in
    the library. *)
Definition session : World Howl := three_pieces piece_x piece_a piece_b.

Definition request_piece (piece : string) : WM Howl nat :=
switch_to quiet (fun _ => 0%Q) (fun _ s => s) (fun t => t) 6 piece.

Definition fire (stepper : nat) (now : Q) : WM Howl unit :=
timer_fires quiet (fun _ => 0%Q) (fun _ s => s) (fun t => t) 6 stepper now.

(** What is heard of a session: the piece recorded as playing, the
    states of the deferred objects and the play state of each piece
    that has been loaded. *)
Definition survey (w : World Howl) : option string * list dstate * list (string * option play_state) :=
(_nowplaying_piece w, map dstatus (heap w),
 map (fun '(key, e) =>
        (key, match e with
              | Loaded p => Some (state (shuffle p))
              | Thunk _ => None
              end)) (_library w)).

(** [Music.play('A')], [Music.play('B')], and the timer of the second
    fade after 2500 ms: the deferred object of the first request (0) is
    rejected, the one of the second (4) is resolved, and B plays alone. *)
Example switch_scenario :
  let w1 := final_state (request_piece "A" session) in
  let w2 := final_state (request_piece "B" w1) in
  let w3 := final_state (fire 1 2500 w2) in
  returned (request_piece "A" session) = Some 0%nat /\
  returned (request_piece "B" w1) = Some 4%nat /\
  status_of w1 0 = Some Pending /\
  status_of w2 0 = Some Rejected /\ status_of w2 4 = Some Pending /\
  status_of w3 0 = Some Rejected /\ status_of w3 4 = Some Resolved /\
  fst (fst (survey w3)) = Some "B"%string /\
  snd (survey w3)
  = [("X"%string, Some stopped); ("A"%string, Some stopped); ("B"%string, Some playing)].
Proof. vm_compute. repeat split. Qed.

(** Half-way through the second fade the gain of X is one half and the
    deferred object of the second request is still pending; a firing of
    the cleared timer of the first fade changes nothing. *)
Example switch_midway :
  let w1 := final_state (request_piece "A" session) in
  let w2 := final_state (request_piece "B" w1) in
  let w3 := after_firings quiet (fun _ => 0%Q) (fun _ s => s) (fun t => t) 6
              [(0%nat, 3000%Q); (1%nat, 1250%Q)] w2 in
  status_of w3 4 = Some Pending /\
  fst (fst (survey w3)) = Some "X"%string /\
  option_map (fun p => Qeq_bool (gain (shuffle p)) (1 # 2)) (piece_of w3 "X") = Some true.
Proof. vm_compute. repeat split. Qed.



(* ================================================================== *)
(** * The rest of the code *)
(* ================================================================== *)

(* ------------------------------------------------------------------ *)
(** * SonicUtils.js: the helpers on numbers *)
(* ------------------------------------------------------------------ *)

Module SonicUtilsNumbers.

(** [a % b] on integers: the remainder has the sign of the dividend,
    and [a % 0] is [NaN] ([None]).  The remainder of two doubles is
    exact. *)
Definition js_mod (a b : Z) : option Z :=
  if b =? 0 then None else Some (Z.rem a b).

(** The double nearest to an integer, ties to the even significand:
    what an addition of integer doubles returns for the exact sum [z].
    An integer below [2^53] in absolute value is a double; a larger one
    keeps its 53 leading bits.  (No sum here reaches the largest
    double.) *)
Definition double_of (z : Z) : Z :=
  let m := Z.abs z in
  if m <? 2 ^ 53 then z
  else
    let e := Z.log2 m - 52 in
    let q := m / 2 ^ e in
    let r := m mod 2 ^ e in
    let half := 2 ^ (e - 1) in
    let up := if r <? half then false else if half <? r then true else Z.odd q in
    Z.sgn z * ((if up then q + 1 else q) * 2 ^ e).

(** The operands that are doubles and whose sum [(a % b) + b], which is
    below [2 * |b|] in absolute value, is a double too. *)
Definition exact_operands (a b : Z) : Prop :=
  (Z.abs a <= 2 ^ 53 /\ Z.abs b <= 2 ^ 52)%Z.

(** [modulo(a, b) = ((a % b) + b) % b] on integers that are doubles;
    [NaN + b] and [NaN % b] are [NaN]. *)
Definition modulo (a b : Z) : option Z :=
  match js_mod a b with
  | None => None
  | Some r => js_mod (double_of (r + b)) b
  end.

(** [truncate(n)]: [Math.floor] of a positive number, [Math.ceil] of any
    other. *)
Definition truncate (n : Q) : Z :=
  if Qlt_le_dec 0 n then Qfloor n else Qceiling n.

Local Open Scope Q_scope.



End SonicUtilsNumbers.

Section NumberHelpers.
Import SonicUtilsNumbers.

Lemma double_of_small (z : Z) : (Z.abs z < 2 ^ 53)%Z -> double_of z = z.
Proof.
intros Hz. unfold double_of.
destruct (Z.ltb_spec (Z.abs z) (2 ^ 53)) as [_|?]; [reflexivity | lia].
Qed.

(** X1: on integers that double arithmetic handles without rounding
    ([|a| <= 2^53] and [|b| <= 2^52]), [modulo(a, b)] is the remainder
    of the floored division for every divisor but 0: it is 0 or has the
    sign of [b], is smaller than [b] in absolute value, and differs
    from [a] by a multiple of [b].  [modulo(a, 0)] is [NaN]. *)
Theorem modulo_floored (a b : Z) :
  exact_operands a b ->
  modulo a b = (if b =? 0 then None else Some (a mod b)%Z) /\
  (forall r, modulo a b = Some r <->
     b <> 0%Z /\ ((0 <= r < b)%Z \/ (b < r <= 0)%Z) /\ exists k, (a = k * b + r)%Z).
Proof.
intros [_ Hexact].
assert (Hrun : modulo a b = (if b =? 0 then None else Some (a mod b)%Z)).
{ unfold modulo, js_mod. destruct (Z.eqb_spec b 0) as [->|Hb]; [reflexivity|].
  rewrite double_of_small
    by (pose proof (Z.rem_bound_abs a b Hb); change (2 ^ 52)%Z with 4503599627370496%Z in Hexact;
        change (2 ^ 53)%Z with 9007199254740992%Z; lia).
  f_equal.
  set (s := (Z.rem a b + b)%Z).
  pose proof (Z.rem_bound_abs a b Hb) as Habs.
  pose proof (Z.rem_bound_abs s b Hb) as Hsabs.
  pose proof (Z.quot_rem' a b) as Ha.
  pose proof (Z.quot_rem' s b) as Hs.
  apply (Z.mod_unique a b (a ÷ b - 1 + s ÷ b)%Z).
  - destruct (Z.lt_total b 0) as [Hneg|[?|Hpos]]; [|contradiction|].
    + right. pose proof (Z.rem_nonpos s b Hb) as Hsign. unfold s in *. lia.
    + left. pose proof (Z.rem_nonneg s b Hb) as Hsign. unfold s in *. lia.
  - unfold s in *. lia. }
split; [exact Hrun|].
intros r. rewrite Hrun. destruct (Z.eqb_spec b 0) as [Hz|Hb].
- split; [discriminate | intros [Hb _]; congruence].
- split.
  + intros [= <-]. split; [exact Hb|]. split.
    * destruct (Z.lt_total b 0) as [Hneg|[?|Hpos]]; [|contradiction|].
      -- right. apply Z.mod_neg_bound. exact Hneg.
      -- left. apply Z.mod_pos_bound. exact Hpos.
    * exists (a / b)%Z. pose proof (Z.div_mod a b Hb). lia.
  + intros (_ & Hbound & k & Hk). f_equal. symmetry.
    apply (Z.mod_unique a b k r Hbound). lia.
Qed.

(** X2: [truncate(n)] drops the fraction: it is the quotient of the
    numerator by the denominator rounded towards zero, so that
    [truncate(-n) = -truncate(n)], and it is never further from zero
    than [n]. *)
Theorem truncate_towards_zero (n : Q) :
  truncate n = (Qnum n ÷ Zpos (Qden n))%Z /\
  truncate (- n) = (- truncate n)%Z /\
  (Qabs (inject_Z (truncate n)) <= Qabs n)%Q.
Proof.
assert (Hquot : forall m : Q, truncate m = (Qnum m ÷ Zpos (Qden m))%Z).
{ intros [p q]. unfold truncate. cbn [Qnum Qden].
  destruct (Qlt_le_dec 0 (p # q)) as [Hpos|Hneg].
  - unfold Qlt in Hpos. cbn in Hpos.
    unfold Qfloor. rewrite Z.quot_div_nonneg by lia. reflexivity.
  - unfold Qle in Hneg. cbn in Hneg.
    unfold Qceiling, Qfloor. cbn [Qopp Qnum Qden].
    rewrite <- (Z.opp_involutive p) at 2. rewrite Z.quot_opp_l by lia.
    rewrite Z.quot_div_nonneg by lia. reflexivity. }
split; [apply Hquot|]. split.
- rewrite !Hquot. destruct n as [p q]. cbn [Qopp Qnum Qden].
  apply Z.quot_opp_l. lia.
- unfold truncate. destruct (Qlt_le_dec 0 n) as [Hpos|Hneg].
  + assert (H0 : (0 <= Qfloor n)%Z).
    { rewrite <- (Qfloor_Z 0). apply Qfloor_resp_le. now apply Qlt_le_weak. }
    rewrite Qabs_pos by (change 0%Q with (inject_Z 0); now rewrite <- Zle_Qle).
    rewrite Qabs_pos by now apply Qlt_le_weak.
    apply Qfloor_le.
  + assert (H0 : (Qceiling n <= 0)%Z).
    { rewrite <- (Qceiling_Z 0). now apply Qceiling_resp_le. }
    rewrite Qabs_neg by (change 0%Q with (inject_Z 0); now rewrite <- Zle_Qle).
    rewrite Qabs_neg by exact Hneg.
    apply Qopp_le_compat. apply Qle_ceiling.
Qed.

Local Open Scope Q_scope.



Local Close Scope Q_scope.

(** [clamp] returns a value that lies between the bounds as it is. *)
Lemma clamp_within (v lo hi : Q) :
  (lo <= v)%Q -> (v <= hi)%Q -> SonicUtils.clamp v lo hi = v.
Proof.
intros Hlo Hhi. unfold SonicUtils.clamp. cbn [Math_max Math_min Q_MinMax].
unfold Qmin, Qmax, GenericMinMax.gmin, GenericMinMax.gmax.
destruct (Qcompare_spec v hi) as [_|_|Hgt]; [| |lra].
- destruct (Qcompare_spec v lo) as [_|Hlt|_]; [reflexivity|lra|reflexivity].
- destruct (Qcompare_spec v lo) as [_|Hlt|_]; [reflexivity|lra|reflexivity].
Qed.

Lemma clamp_clamp (v : Q) :
  SonicUtils.clamp (SonicUtils.clamp v 0%Q 1%Q) 0%Q 1%Q = SonicUtils.clamp v 0%Q 1%Q.
Proof.
apply clamp_within; unfold SonicUtils.clamp; cbn [Math_max Math_min Q_MinMax].
- apply Q.le_max_r.
- apply Q.max_lub; [apply Q.le_min_r | lra].
Qed.

(** X4: [clamp(value, min, max)] lies between the bounds when they are in
    order and is [value] itself when [value] lies between them, so that
    clamping twice is clamping once; with the bounds out of order it
    returns [min], whatever the value. *)
Theorem clamp_in_bounds (value lo hi : Q) :
  ((lo <= hi)%Q ->
   (lo <= SonicUtils.clamp value lo hi)%Q /\ (SonicUtils.clamp value lo hi <= hi)%Q) /\
  ((lo <= value)%Q -> (value <= hi)%Q -> SonicUtils.clamp value lo hi = value) /\
  ((hi < lo)%Q -> SonicUtils.clamp value lo hi = lo) /\
  SonicUtils.clamp (SonicUtils.clamp value lo hi) lo hi = SonicUtils.clamp value lo hi.
Proof.
assert (Hswapped : forall v, (hi < lo)%Q -> SonicUtils.clamp v lo hi = lo).
{ intros v Hlt. unfold SonicUtils.clamp. cbn [Math_max Math_min Q_MinMax].
  pose proof (Q.le_min_r v hi) as Hmin.
  unfold Qmax, GenericMinMax.gmax.
  destruct (Qcompare_spec (Qmin v hi) lo) as [Heq|_|Hgt]; [|reflexivity|].
  - rewrite Heq in Hmin. lra.
  - lra. }
assert (Hbounds : (lo <= hi)%Q ->
          (lo <= SonicUtils.clamp value lo hi)%Q /\ (SonicUtils.clamp value lo hi <= hi)%Q).
{ intros Hord. unfold SonicUtils.clamp. cbn [Math_max Math_min Q_MinMax]. split.
  - apply Q.le_max_r.
  - apply Q.max_lub; [apply Q.le_min_r | exact Hord]. }
split; [exact Hbounds|]. split; [apply clamp_within|]. split; [apply Hswapped|].
destruct (Qlt_le_dec hi lo) as [Hlt|Hord].
- now rewrite !Hswapped.
- destruct (Hbounds Hord) as [Hlo Hhi]. now apply clamp_within.
Qed.

End NumberHelpers.

(** *** Examples for [modulo] *)

Lemma modulo_floored_witness :
  SonicUtilsNumbers.modulo (-7) 3 = (if 3 =? 0 then None else Some ((-7) mod 3)%Z) /\
  (forall r, SonicUtilsNumbers.modulo (-7) 3 = Some r <->
     3 <> 0%Z /\ ((0 <= r < 3)%Z \/ (3 < r <= 0)%Z) /\ exists k, (-7 = k * 3 + r)%Z).
Proof.
apply (modulo_floored (-7) 3).
split; vm_compute; intros Hgt; discriminate Hgt.
Defined.

(** [modulo(-7, 3)] is 2 and [modulo(7, -3)] is -2.  Beyond the exact
    operands the sum is rounded: with [b = 2^53 + 2], [-1 + b] becomes
    [2^53] and [modulo(-1, b)] is [2^53], not the remainder [2^53 + 1]
    of the floored division. *)
Example modulo_values :
  SonicUtilsNumbers.modulo (-7) 3 = Some 2 /\
  SonicUtilsNumbers.modulo 7 (-3) = Some (-2) /\
  SonicUtilsNumbers.modulo 7 0 = None /\
  SonicUtilsNumbers.modulo (-1) 9007199254740994 = Some 9007199254740992 /\
  ((-1) mod 9007199254740994 = 9007199254740993)%Z.
Proof. vm_compute. repeat split. Qed.

(* ------------------------------------------------------------------ *)
(** * SonicUtils.js: the helpers on arrays, objects and functions *)
(* ------------------------------------------------------------------ *)

Module SonicUtilsData.

(** The values these helpers are given.  Functions, objects and arrays
    have an identity; an array also has its items.  Arrays that contain
    themselves are left out. *)
#[warnings="-register-all"]
Inductive jsv : Type :=
| JUndefined
| JNull
| JBool (b : bool)
| JNum (q : Q)
| JNaN
| JStr (s : string)
| JFun (ref : nat)
| JObj (ref : nat)
| JArr (ref : nat) (items : list jsv).

(** [x === y]: numbers by value, [NaN] equal to nothing, functions,
    objects and arrays by identity. *)
Definition strict_eq (x y : jsv) : bool :=
  match x, y with
  | JUndefined, JUndefined => true
  | JNull, JNull => true
  | JBool a, JBool b => Bool.eqb a b
  | JNum a, JNum b => Qeq_bool a b
  | JStr a, JStr b => String.eqb a b
  | JFun a, JFun b => Nat.eqb a b
  | JObj a, JObj b => Nat.eqb a b
  | JArr a _, JArr b _ => Nat.eqb a b
  | _, _ => false
  end.

(** [typeof x]. *)
Definition js_typeof (x : jsv) : string :=
  match x with
  | JUndefined => "undefined"
  | JNull => "object"
  | JBool _ => "boolean"
  | JNum _ | JNaN => "number"
  | JStr _ => "string"
  | JFun _ => "function"
  | JObj _ | JArr _ _ => "object"
  end.

(** The value of [x] as a condition. *)
Definition truthy (x : jsv) : bool :=
  match x with
  | JUndefined | JNull | JNaN => false
  | JBool b => b
  | JNum q => negb (Qeq_bool q 0)
  | JStr s => negb (String.eqb s "")
  | JFun _ | JObj _ | JArr _ _ => true
  end.

(** [Array.isArray(x)]. *)
Definition isArray (x : jsv) : bool :=
  match x with
  | JArr _ _ => true
  | _ => false
  end.

(** The loop of [findCallback], over the arguments from the last one to
    the first: the test is [typeof(args[i] === 'function')]. *)
Fixpoint findCallback_loop (downwards : list jsv) : jsv :=
  match downwards with
  | [] => JNull
  | item :: rest =>
      if truthy (JStr (js_typeof (JBool (strict_eq item (JStr "function")))))
      then item
      else findCallback_loop rest
  end.

(** [findCallback(args)]. *)
Definition findCallback (args : list jsv) : jsv := findCallback_loop (rev args).

(** What the loop of [flatten] adds to [flat] for one item: the items
    of [flatten(item)] for an array, the item itself otherwise. *)
Fixpoint flatten_item (item : jsv) : list jsv :=
  match item with
  | JArr _ items => fold_left (fun flat sub => flat ++ flatten_item sub) items []
  | _ => [item]
  end.

(** [flatten(array)] on an array or an [arguments] object. *)
Definition flatten (array : list jsv) : list jsv :=
  fold_left (fun flat item => flat ++ flatten_item item) array [].

(** The loop of [listeq]: [a[i] !== b[i]] for the indices of [a]. *)
Fixpoint listeq_loop (a b : list jsv) : bool :=
  match a with
  | [] => true
  | x :: a' =>
      let y := match b with [] => JUndefined | y :: _ => y end in
      if negb (strict_eq x y) then false else listeq_loop a' (tl b)
  end.

(** [listeq(a, b)]. *)
Definition listeq (a b : jsv) : bool :=
  match a, b with
  | JArr _ xs, JArr _ ys =>
      if negb (length xs =? length ys)%nat then false else listeq_loop xs ys
  | _, _ => false
  end.

(** An object that is not an array: its own enumerable properties in
    the order of [Object.keys]. *)
Definition jsobj : Type := list (string * jsv).

Definition Object_keys (o : jsobj) : list string := map fst o.

(** [o[key]] for a key of the object. *)
Definition prop (o : jsobj) (key : string) : jsv :=
  match find (fun kv => String.eqb (fst kv) key) o with
  | Some kv => snd kv
  | None => JUndefined
  end.

(** [hasheq(a, b)]; the arrays of keys are fresh arrays. *)
Definition hasheq (a b : jsobj) : bool :=
  let akeys := Object_keys a in
  if negb (listeq (JArr 0 (map JStr akeys)) (JArr 1 (map JStr (Object_keys b))))
  then false
  else forallb (fun key => strict_eq (prop a key) (prop b key)) akeys.

Section Unique.
Context {A : Type}.

(** The property key of an item ([obj[item]] converts it to a string),
    and the names [obj = {}] inherits: under such a name [obj[item]] is a
    function or the prototype itself, which counts as true. *)
Variable key_of : A -> string.
Variable inherited : string -> bool.

(** [obj[key]] as a condition. *)
Definition seen (obj : gmap string bool) (key : string) : bool :=
  match obj !! key with
  | Some v => v
  | None => inherited key
  end.

(** The function given to [forEach] in [unique]. *)
Definition unique_step (st : gmap string bool * list A) (item : A)
  : gmap string bool * list A :=
  let '(obj, order) := st in
  let order := if negb (seen obj (key_of item)) then order ++ [item] else order in
  (<[key_of item := true]> obj, order).

(** [unique(list)]. *)
Definition unique (items : list A) : list A :=
  snd (fold_left unique_step items (∅, [])).

End Unique.

(** What [median] returns. *)
Inductive number_or_not : Type :=
| NNull
| NUndefined
| NNaN
| NNum (q : Q).

Section Median.

(** [Array.prototype.sort] without a comparison function, on numbers. *)
Variable js_sort : list Q -> list Q.

(** [median(list)]. *)
Definition median (numbers : list Q) : number_or_not :=
  let sorted := js_sort numbers in
  if (length sorted =? 0)%nat then NNull
  else
    let middle := Z.to_nat (Qceiling (inject_Z (Z.of_nat (length sorted)) / 2)) in
    if (length sorted mod 2 =? 0)%nat then
      match sorted !! middle, sorted !! (middle - 1)%nat with
      | Some x, Some y => NNum ((x + y) / 2)
      | _, _ => NNaN
      end
    else
      match sorted !! middle with
      | Some x => NNum x
      | None => NUndefined
      end.

End Median.

Section Functions.
Context {St Ev : Type}.

(** A call of the function [ref] with [this] and the arguments. *)
Variable call : nat -> list jsv -> M St Ev js_error jsv.

(** [fns[i].apply(this, arguments)]; anything but a function has no
    [apply] that can be called. *)
Definition apply_value (fn : jsv) (args : list jsv) : M St Ev js_error jsv :=
  match fn with
  | JFun ref => call ref args
  | _ => throw TypeError
  end.

(** The loop of the function that [compose] returns. *)
Fixpoint compose_loop (fns : list jsv) (args : list jsv) : M St Ev js_error unit :=
  match fns with
  | [] => ret tt
  | fn :: rest =>
      do! apply_value fn args in
      compose_loop rest args
  end.

(** [compose(...)], called with [args]: [arguments] of [compose] are
    flattened when [compose] is called. *)
Definition compose (arguments : list jsv) : list jsv -> M St Ev js_error unit :=
  let fns := flatten arguments in
  fun args => compose_loop fns args.

(** The function that [one(fn)] returns, called with [args]; the state
    holds the variable [fired] of the closure. *)
Definition one (fn : jsv) (args : list jsv) : M (bool * St) Ev js_error jsv :=
  fun '(fired, s) =>
    if fired then Ok JUndefined (fired, s) []
    else
      match apply_value fn args s with
      | Ok v s' tr => Ok v (true, s') tr
      | Exn e s' tr => Exn e (true, s') tr
      end.

End Functions.

End SonicUtilsData.

Section DataHelpers.
Import SonicUtilsData.

(** Induction on a value, with the items of an array. *)
Section NestedInduction.
Variable P : jsv -> Prop.
Hypothesis leaf : forall x, isArray x = false -> P x.
Hypothesis node : forall ref items, Forall P items -> P (JArr ref items).

Fixpoint jsv_nested_ind (x : jsv) : P x :=
  match x with
  | JArr ref items =>
      node ref items
        ((fix all (l : list jsv) : Forall P l :=
            match l with
            | [] => List.Forall_nil P
            | y :: rest => List.Forall_cons P y rest (jsv_nested_ind y) (all rest)
            end) items)
  | JUndefined => leaf JUndefined eq_refl
  | JNull => leaf JNull eq_refl
  | JBool b => leaf (JBool b) eq_refl
  | JNum q => leaf (JNum q) eq_refl
  | JNaN => leaf JNaN eq_refl
  | JStr s => leaf (JStr s) eq_refl
  | JFun ref => leaf (JFun ref) eq_refl
  | JObj ref => leaf (JObj ref) eq_refl
  end.
End NestedInduction.

(** X5: [findCallback] does not look at the type of what it finds: the test
    is the [typeof] of a comparison, the string ["boolean"], so the last
    argument is returned whatever it is, and [null] when there is no
    argument. *)
Theorem findCallback_returns_last (args : list jsv) (x : jsv) :
  findCallback (args ++ [x]) = x /\ findCallback [] = JNull.
Proof.
split; [|reflexivity].
unfold findCallback. rewrite rev_app_distr. cbn [rev app findCallback_loop].
destruct (strict_eq x (JStr "function")); reflexivity.
Qed.

Lemma fold_left_append {A B} (f : A -> list B) (l : list A) (acc : list B) :
  fold_left (fun flat item => flat ++ f item) l acc = acc ++ concat (map f l).
Proof.
revert acc. induction l as [|x l IH]; intros acc; cbn [fold_left map concat].
- now rewrite app_nil_r.
- rewrite IH. now rewrite <- app_assoc.
Qed.

Lemma flatten_concat (array : list jsv) :
  flatten array = concat (map flatten_item array).
Proof. unfold flatten. now rewrite fold_left_append. Qed.

Lemma flatten_item_array ref items : flatten_item (JArr ref items) = flatten items.
Proof. reflexivity. Qed.

Lemma flatten_item_leaf x : isArray x = false -> flatten_item x = [x].
Proof. destruct x; try reflexivity. discriminate. Qed.

Lemma flatten_item_flat (x : jsv) :
  Forall (fun y => isArray y = false) (flatten_item x).
Proof.
induction x as [x Hx|ref items IH] using jsv_nested_ind.
- rewrite flatten_item_leaf by exact Hx. now constructor.
- rewrite flatten_item_array, flatten_concat.
  induction IH as [|y rest Hy _ IHrest]; cbn [map concat]; [constructor|].
  apply Forall_app. split; assumption.
Qed.

Lemma flatten_of_flat (array : list jsv) :
  Forall (fun y => isArray y = false) array -> flatten array = array.
Proof.
intros Hflat. rewrite flatten_concat.
induction Hflat as [|y rest Hy _ IH]; cbn [map concat]; [reflexivity|].
rewrite flatten_item_leaf by exact Hy. cbn [app]. now rewrite IH.
Qed.

Lemma flatten_app (l1 l2 : list jsv) : flatten (l1 ++ l2) = flatten l1 ++ flatten l2.
Proof. rewrite !flatten_concat, map_app. apply concat_app. Qed.

Lemma flatten_head_array (ref : nat) (a b : list jsv) :
  flatten (JArr ref a :: b) = flatten (a ++ b).
Proof.
rewrite flatten_app, (flatten_concat (JArr ref a :: b)). cbn [map concat].
now rewrite flatten_item_array, (flatten_concat b).
Qed.

(** X6: [flatten] returns an array without arrays among its items, which
    another [flatten] leaves as it is; the array of a concatenation is
    the concatenation of the arrays, and an array met among the items
    counts for its own items. *)
Theorem flatten_flat (a b : list jsv) (ref : nat) :
  Forall (fun y => isArray y = false) (flatten a) /\
  flatten (flatten a) = flatten a /\
  flatten (a ++ b) = flatten a ++ flatten b /\
  flatten (JArr ref a :: b) = flatten (a ++ b).
Proof.
assert (Hflat : forall l, Forall (fun y => isArray y = false) (flatten l)).
{ intros l. rewrite flatten_concat.
  induction l as [|y rest IH]; cbn [map concat]; [constructor|].
  apply Forall_app. split; [apply flatten_item_flat | exact IH]. }
split; [apply Hflat|]. split; [apply flatten_of_flat, Hflat|].
split; [apply flatten_app | apply flatten_head_array].
Qed.

Section Calls.
Context {St Ev : Type}.
Variable call : nat -> list jsv -> M St Ev js_error jsv.

Lemma bind_assoc {A B C} (m : M St Ev js_error A) (f : A -> M St Ev js_error B)
    (g : B -> M St Ev js_error C) (s : St) :
  bind (bind m f) g s = bind m (fun x => bind (f x) g) s.
Proof.
unfold bind. destruct (m s) as [a s1 tr1|e s1 tr1]; [|reflexivity].
destruct (f a s1) as [b s2 tr2|e s2 tr2]; [|reflexivity].
destruct (g b s2) as [c s3 tr3|e s3 tr3]; now rewrite app_assoc.
Qed.

Lemma bind_ext {A B} (m : M St Ev js_error A) (k k' : A -> M St Ev js_error B) (s : St) :
  (forall a s', k a s' = k' a s') -> bind m k s = bind m k' s.
Proof.
intros Hk. unfold bind. destruct (m s) as [a s1 tr1|e s1 tr1]; [|reflexivity].
now rewrite Hk.
Qed.

Lemma compose_loop_app (f1 f2 : list jsv) (args : list jsv) (s : St) :
  compose_loop call (f1 ++ f2) args s
  = bind (compose_loop call f1 args) (fun _ => compose_loop call f2 args) s.
Proof.
revert s. induction f1 as [|fn f1 IH]; intros s; cbn [app compose_loop].
- unfold bind, ret. destruct (compose_loop call f2 args s); reflexivity.
- rewrite bind_assoc. apply bind_ext. intros _ s'. apply IH.
Qed.

(** X7: The function that [compose] returns runs the functions of the
    flattened arguments from left to right, each with the arguments of
    the call: composing a concatenation is running the one composition
    and then the other, and an array of functions counts for its
    functions.  Without arguments it does nothing. *)
Theorem compose_in_order (a b args : list jsv) (ref : nat) (s : St) :
  compose call (a ++ b) args s
  = bind (compose call a args) (fun _ => compose call b args) s /\
  compose call (JArr ref a :: b) args s = compose call (a ++ b) args s /\
  compose call [] args s = Ok tt s [].
Proof.
unfold compose.
split; [|split; [|reflexivity]].
- rewrite flatten_app. apply compose_loop_app.
- now rewrite flatten_head_array.
Qed.

(** The world after a series of calls of the function that [one(fn)]
    returned, each with its arguments; an error thrown by a call ends
    that call only. *)
Fixpoint after_calls (fn : jsv) (calls : list (list jsv)) (st : bool * St)
  : bool * St :=
  match calls with
  | [] => st
  | args :: rest => after_calls fn rest (final_state (one call fn args st))
  end.

(** X8: The function that [one(fn)] returns runs [fn] on its first call
    only: whatever the number of calls that follow, and whether or not
    the first call threw, the state is the one the first call left, and
    every later call returns [undefined] at once. *)
Theorem one_fires_once (fn : jsv) (args : list jsv) (calls : list (list jsv)) (s : St) :
  after_calls fn (args :: calls) (false, s)
  = (true, final_state (apply_value call fn args s)) /\
  (forall later s', one call fn later (true, s') = Ok JUndefined (true, s') []) /\
  trace_of (one call fn args (false, s)) = trace_of (apply_value call fn args s).
Proof.
assert (Hlater : forall later s', one call fn later (true, s') = Ok JUndefined (true, s') [])
  by reflexivity.
split; [|split; [exact Hlater|]].
- cbn [after_calls].
  assert (Hfirst : final_state (one call fn args (false, s))
                   = (true, final_state (apply_value call fn args s))).
  { unfold one. destruct (apply_value call fn args s); reflexivity. }
  rewrite Hfirst. generalize (final_state (apply_value call fn args s)). intros s1.
  induction calls as [|later rest IH]; [reflexivity|].
  cbn [after_calls]. rewrite Hlater. exact IH.
- unfold one. destruct (apply_value call fn args s); reflexivity.
Qed.

End Calls.

Lemma strict_eq_sym (x y : jsv) : strict_eq x y = strict_eq y x.
Proof.
destruct x, y; cbn [strict_eq]; try reflexivity.
- now destruct b, b0.
- apply eq_true_iff_eq. rewrite !Qeq_bool_iff. split; intros Hq; now symmetry.
- apply String.eqb_sym.
- apply Nat.eqb_sym.
- apply Nat.eqb_sym.
- apply Nat.eqb_sym.
Qed.

Lemma strict_eq_refl (x : jsv) : strict_eq x x = true <-> x <> JNaN.
Proof.
destruct x; cbn [strict_eq]; split; try congruence; try discriminate; intros _.
- now destruct b.
- apply Qeq_bool_iff. reflexivity.
- apply String.eqb_refl.
- apply Nat.eqb_refl.
- apply Nat.eqb_refl.
- apply Nat.eqb_refl.
Qed.

Lemma Forall2_same {A} (Q : A -> A -> Prop) (l : list A) :
  Forall2 Q l l <-> Forall (fun x => Q x x) l.
Proof.
split; [|apply Forall_Forall2_diag].
induction l as [|x l IH]; intros Hall; [constructor|].
inversion Hall; subst. constructor; [assumption | now apply IH].
Qed.

Lemma listeq_loop_spec (xs ys : list jsv) :
  length xs = length ys ->
  (listeq_loop xs ys = true <-> Forall2 (fun x y => strict_eq x y = true) xs ys).
Proof.
revert ys. induction xs as [|x xs IH]; intros [|y ys] Hlen; try discriminate.
- split; [constructor | reflexivity].
- cbn [listeq_loop tl]. injection Hlen as Hlen.
  destruct (strict_eq x y) eqn:Hxy; cbn [negb].
  + rewrite (IH ys Hlen). split.
    * intros Hrest. now constructor.
    * intros Hall. now inversion Hall.
  + split; [discriminate|]. intros Hall. inversion Hall; congruence.
Qed.

Lemma listeq_pairwise (a b : jsv) :
  listeq a b = true <->
  exists ra xa rb xb,
    a = JArr ra xa /\ b = JArr rb xb /\
    Forall2 (fun x y => strict_eq x y = true) xa xb.
Proof.
split.
- destruct a as [| | | | | | | |ra xa]; try discriminate.
  destruct b as [| | | | | | | |rb xb]; try discriminate.
  cbn [listeq]. destruct (Nat.eqb_spec (length xa) (length xb)) as [Hlen|_];
    [|discriminate].
  cbn [negb]. intros Hloop. exists ra, xa, rb, xb.
  split; [reflexivity|]. split; [reflexivity|].
  now apply listeq_loop_spec.
- intros (ra & xa & rb & xb & -> & -> & Hall). cbn [listeq].
  pose proof (Forall2_length _ _ _ Hall) as Hlen.
  rewrite Hlen, Nat.eqb_refl. cbn [negb].
  now apply listeq_loop_spec.
Qed.

(** X9: [listeq(a, b)] is true exactly for two arrays of the same length
    whose items are pairwise [===]; the order of the arguments does not
    matter; and an array is [listeq] to itself unless [NaN] is one of its
    items. *)
Theorem listeq_strict (a b : jsv) (ref : nat) (xs : list jsv) :
  (listeq a b = true <->
   exists ra xa rb xb,
     a = JArr ra xa /\ b = JArr rb xb /\
     Forall2 (fun x y => strict_eq x y = true) xa xb) /\
  listeq a b = listeq b a /\
  (listeq (JArr ref xs) (JArr ref xs) = true <-> JNaN ∉ xs).
Proof.
pose proof listeq_pairwise as Hspec.
split; [apply Hspec|]. split.
- apply eq_true_iff_eq. rewrite !Hspec. split.
  + intros (ra & xa & rb & xb & -> & -> & Hall). exists rb, xb, ra, xa.
    split; [reflexivity|]. split; [reflexivity|].
    apply Forall2_flip. eapply Forall2_impl; [exact Hall|].
    intros x y Hxy. now rewrite strict_eq_sym.
  + intros (ra & xa & rb & xb & -> & -> & Hall). exists rb, xb, ra, xa.
    split; [reflexivity|]. split; [reflexivity|].
    apply Forall2_flip. eapply Forall2_impl; [exact Hall|].
    intros x y Hxy. now rewrite strict_eq_sym.
- rewrite Hspec. split.
  + intros (ra & xa & rb & xb & [= <- <-] & [= <- <-] & Hall) Hin.
    apply Forall2_same in Hall. rewrite Forall_forall in Hall.
    apply Hall in Hin. discriminate.
  + intros Hnan. exists ref, xs, ref, xs. split; [reflexivity|]. split; [reflexivity|].
    apply Forall2_same. rewrite Forall_forall. intros x Hx.
    apply strict_eq_refl. intros ->. contradiction.
Qed.

Lemma prop_at (o : list (string * jsv)) (i : nat) (key : string) (v : jsv) :
  NoDup (Object_keys o) -> o !! i = Some (key, v) -> prop o key = v.
Proof.
unfold prop, Object_keys. revert i.
induction o as [|[k0 v0] o IH]; intros i Hnd Hi; [discriminate|].
cbn [find fst]. cbn [map fst] in Hnd.
apply NoDup_cons in Hnd. destruct Hnd as [Hnotin Hnd].
destruct i as [|i]; simpl in Hi.
- injection Hi as -> ->. now rewrite String.eqb_refl.
- destruct (String.eqb_spec k0 key) as [->|_].
  + exfalso. apply Hnotin.
    change (map fst o) with (fst <$> o).
    apply list_elem_of_lookup. exists i. now rewrite list_lookup_fmap, Hi.
  + exact (IH i Hnd Hi).
Qed.

(** X10: [hasheq(a, b)] is true exactly when the two objects list the same
    keys in the same order with pairwise [===] values: two objects with
    the same two entries in the other order are not [hasheq]. *)
Theorem hasheq_same_order (a b : list (string * jsv)) :
  NoDup (Object_keys a) -> NoDup (Object_keys b) ->
  (hasheq a b = true <->
   Forall2 (fun p q => fst p = fst q /\ strict_eq (snd p) (snd q) = true) a b) /\
  (forall k1 k2 v1 v2, k1 <> k2 ->
     hasheq [(k1, v1); (k2, v2)] [(k2, v2); (k1, v1)] = false).
Proof.
intros Hna Hnb. split.
- unfold hasheq.
  pose proof (listeq_pairwise (JArr 0 (map JStr (Object_keys a)))
                (JArr 1 (map JStr (Object_keys b)))) as Hkeys.
  assert (Hsame : listeq (JArr 0 (map JStr (Object_keys a)))
                    (JArr 1 (map JStr (Object_keys b))) = true
                  <-> Object_keys a = Object_keys b).
  { rewrite Hkeys. split.
    - intros (ra & xa & rb & xb & [= <- <-] & [= <- <-] & Hall).
      apply Forall2_fmap in Hall.
      apply list_eq_Forall2. eapply Forall2_impl; [exact Hall|].
      intros x y Hxy. cbn in Hxy. now apply String.eqb_eq.
    - intros Heq. eexists _, _, _, _. split; [reflexivity|]. split; [reflexivity|].
      rewrite Heq. apply Forall2_fmap, Forall2_same, Forall_forall.
      intros x _. cbn. apply String.eqb_refl. }
  destruct (listeq _ _) eqn:Hl; cbn [negb].
  + assert (Hk : Object_keys a = Object_keys b) by now apply Hsame.
    rewrite forallb_forall. split.
    * intros Hvals. apply Forall2_same_length_lookup. split.
      { apply (f_equal (@length string)) in Hk.
        unfold Object_keys in Hk. now rewrite !length_map in Hk. }
      intros i [k v] [k' v'] Hi Hi'. cbn [fst snd].
      assert (Hkk : k = k').
      { assert (H1 : Object_keys a !! i = Some k)
          by (unfold Object_keys; now rewrite list_lookup_fmap, Hi).
        assert (H2 : Object_keys b !! i = Some k')
          by (unfold Object_keys; now rewrite list_lookup_fmap, Hi').
        rewrite Hk in H1. congruence. }
      subst k'. split; [reflexivity|].
      rewrite <- (prop_at a i k v Hna Hi), <- (prop_at b i k v' Hnb Hi').
      apply Hvals. apply list_elem_of_In.
      apply list_elem_of_lookup. exists i.
      unfold Object_keys. now rewrite list_lookup_fmap, Hi.
    * intros Hall key Hin.
      apply list_elem_of_In, list_elem_of_lookup in Hin. destruct Hin as [i Hi].
      unfold Object_keys in Hi. rewrite list_lookup_fmap in Hi.
      destruct (a !! i) as [[k v]|] eqn:Ha; [|discriminate].
      cbn in Hi. injection Hi as ->.
      destruct (Forall2_lookup_l _ _ _ _ _ Hall Ha) as ([k' v'] & Hb & Hkk & Hvv).
      cbn in Hkk, Hvv. subst k'.
      now rewrite (prop_at a i key v Hna Ha), (prop_at b i key v' Hnb Hb).
  + split; [discriminate|]. intros Hall.
    assert (Hk : Object_keys a = Object_keys b).
    { unfold Object_keys. apply list_eq_Forall2, Forall2_fmap.
      eapply Forall2_impl; [exact Hall|]. now intros p q [Hpq _]. }
    apply Hsame in Hk. congruence.
- intros k1 k2 v1 v2 Hneq. unfold hasheq, Object_keys. cbn [map fst listeq length].
  cbn [Nat.eqb negb listeq_loop tl strict_eq].
  destruct (String.eqb_spec k1 k2) as [?|_]; [contradiction|]. reflexivity.
Qed.

Section UniqueItems.
Context {A : Type}.
Variable key_of : A -> string.
Variable inherited : string -> bool.

(** The items that the loop of [unique] pushes, for the properties
    already set in [obj]. *)
Fixpoint pushed (obj : gmap string bool) (items : list A) : list A :=
  match items with
  | [] => []
  | x :: rest =>
      (if negb (seen inherited obj (key_of x)) then [x] else [])
      ++ pushed (<[key_of x := true]> obj) rest
  end.

Lemma unique_loop (items : list A) (obj : gmap string bool) (order : list A) :
  snd (fold_left (unique_step key_of inherited) items (obj, order))
  = order ++ pushed obj items.
Proof.
revert obj order. induction items as [|x rest IH]; intros obj order.
- cbn. now rewrite app_nil_r.
- cbn [fold_left unique_step pushed]. rewrite IH.
  destruct (negb (seen inherited obj (key_of x))); [|reflexivity].
  now rewrite <- app_assoc.
Qed.

(** Every property of [obj] is [true]. *)
Definition marks (obj : gmap string bool) : Prop :=
  forall k v, obj !! k = Some v -> v = true.

Lemma marks_insert obj k : marks obj -> marks (<[k := true]> obj).
Proof.
intros Hm k' v. destruct (decide (k = k')) as [->|Hne].
- rewrite lookup_insert_eq. congruence.
- rewrite lookup_insert_ne by exact Hne. apply Hm.
Qed.

Lemma seen_false obj k :
  marks obj -> (seen inherited obj k = false <-> obj !! k = None /\ inherited k = false).
Proof.
intros Hm. unfold seen. destruct (obj !! k) as [v|] eqn:Hk.
- rewrite (Hm k v Hk). split; [discriminate | intros [? _]; discriminate].
- split; [now intros -> | now intros [_ ->]].
Qed.

Lemma pushed_fresh obj items y :
  marks obj -> y ∈ pushed obj items ->
  obj !! key_of y = None /\ inherited (key_of y) = false /\ y ∈ items.
Proof.
revert obj. induction items as [|x rest IH]; intros obj Hm Hy; cbn [pushed] in Hy.
- inversion Hy.
- apply elem_of_app in Hy. destruct Hy as [Hy|Hy].
  + destruct (seen inherited obj (key_of x)) eqn:Hs; cbn [negb] in Hy; [inversion Hy|].
    apply list_elem_of_singleton in Hy. subst y.
    apply (seen_false obj _ Hm) in Hs. destruct Hs as [Hnone Hinh].
    split; [exact Hnone|]. split; [exact Hinh | left].
  + destruct (IH _ (marks_insert obj (key_of x) Hm) Hy) as (Hnone & Hinh & Hin).
    split; [|split; [exact Hinh | now right]].
    destruct (decide (key_of x = key_of y)) as [Heq|Hne].
    * rewrite Heq, lookup_insert_eq in Hnone. discriminate.
    * now rewrite lookup_insert_ne in Hnone by exact Hne.
Qed.

Lemma pushed_keys_NoDup obj items :
  marks obj -> NoDup (map key_of (pushed obj items)).
Proof.
revert obj. induction items as [|x rest IH]; intros obj Hm; cbn [pushed].
- constructor.
- pose proof (IH _ (marks_insert obj (key_of x) Hm)) as Hrest.
  destruct (negb (seen inherited obj (key_of x))); cbn [app map]; [|exact Hrest].
  apply NoDup_cons. split; [|exact Hrest].
  intros Hin. change (map key_of ?l) with (key_of <$> l) in Hin.
  apply list_elem_of_fmap in Hin. destruct Hin as (y & Hky & Hy).
  destruct (pushed_fresh _ _ y (marks_insert obj (key_of x) Hm) Hy) as (Hnone & _).
  rewrite <- Hky, lookup_insert_eq in Hnone. discriminate.
Qed.

Lemma pushed_sublist obj items : sublist (pushed obj items) items.
Proof.
revert obj. induction items as [|x rest IH]; intros obj; cbn [pushed].
- constructor.
- destruct (negb (seen inherited obj (key_of x))); cbn [app].
  + apply sublist_skip, IH.
  + apply sublist_cons, IH.
Qed.

Lemma pushed_first obj before x after :
  marks obj ->
  obj !! key_of x = None -> inherited (key_of x) = false ->
  (forall z, z ∈ before -> key_of z <> key_of x) ->
  x ∈ pushed obj (before ++ x :: after).
Proof.
revert obj. induction before as [|z before IH]; intros obj Hm Hnone Hinh Hnew;
  cbn [app pushed].
- assert (Hs : seen inherited obj (key_of x) = false) by now apply seen_false.
  rewrite Hs. cbn [negb app]. left.
- apply elem_of_app. right. apply IH.
  + now apply marks_insert.
  + rewrite lookup_insert_ne; [exact Hnone|]. apply Hnew. left.
  + exact Hinh.
  + intros z' Hz'. apply Hnew. now right.
Qed.

Lemma pushed_fixed obj items :
  marks obj -> NoDup (map key_of items) ->
  (forall x, x ∈ items -> obj !! key_of x = None /\ inherited (key_of x) = false) ->
  pushed obj items = items.
Proof.
revert obj. induction items as [|x rest IH]; intros obj Hm Hnd Hfresh; [reflexivity|].
cbn [pushed]. cbn [map] in Hnd. apply NoDup_cons in Hnd. destruct Hnd as [Hnotin Hnd].
destruct (Hfresh x ltac:(left)) as [Hnone Hinh].
assert (Hs : seen inherited obj (key_of x) = false) by now apply seen_false.
rewrite Hs. cbn [negb app]. f_equal.
apply IH; [now apply marks_insert | exact Hnd |].
intros y Hy. destruct (Hfresh y ltac:(now right)) as [Hnone' Hinh'].
split; [|exact Hinh'].
rewrite lookup_insert_ne; [exact Hnone'|].
intros Heq. apply Hnotin. rewrite Heq.
change (map key_of rest) with (key_of <$> rest). now apply list_elem_of_fmap_2.
Qed.

(** X11: [unique(list)] keeps items of [list] in their order, no two with the
    same property key, and never an item whose key names a member that
    every object inherits; it keeps the first item of each other key;
    and [unique] of the result is the result. *)
Theorem unique_first_occurrences (items : list A) :
  sublist (unique key_of inherited items) items /\
  NoDup (map key_of (unique key_of inherited items)) /\
  (forall y, y ∈ unique key_of inherited items -> inherited (key_of y) = false) /\
  (forall before x after,
     items = before ++ x :: after -> inherited (key_of x) = false ->
     (forall z, z ∈ before -> key_of z <> key_of x) ->
     x ∈ unique key_of inherited items) /\
  unique key_of inherited (unique key_of inherited items)
  = unique key_of inherited items.
Proof.
assert (Hm : marks ∅) by (intros k v Hk; rewrite lookup_empty in Hk; discriminate).
assert (Hu : forall l, unique key_of inherited l = pushed ∅ l).
{ intros l. unfold unique. now rewrite unique_loop. }
rewrite !Hu.
split; [apply pushed_sublist|]. split; [now apply pushed_keys_NoDup|].
split; [intros y Hy; now apply (pushed_fresh ∅ items y Hm Hy)|].
split.
- intros before x after -> Hinh Hnew.
  apply pushed_first; [exact Hm | apply lookup_empty | exact Hinh | exact Hnew].
- apply pushed_fixed; [exact Hm | now apply pushed_keys_NoDup |].
  intros x Hx. split; [apply lookup_empty|].
  now apply (pushed_fresh ∅ items x Hm Hx).
Qed.

End UniqueItems.

Lemma ceiling_half (n : nat) :
  Z.to_nat (Qceiling (inject_Z (Z.of_nat n) / 2)) = ((n + 1) / 2)%nat.
Proof.
unfold Qceiling, Qfloor, Qdiv, Qmult, Qinv, Qopp, inject_Z. cbn [Qnum Qden].
rewrite Z.mul_1_r. change (Z.pos (1 * 2)) with 2%Z.
assert (Hz : (- (- Z.of_nat n / 2) = Z.of_nat ((n + 1) / 2))%Z).
{ rewrite Nat2Z.inj_div, Nat2Z.inj_add. change (Z.of_nat 1) with 1%Z.
  change (Z.of_nat 2) with 2%Z.
  Z.to_euclidean_division_equations. lia. }
rewrite Hz. apply Nat2Z.id.
Qed.

(** X12: [median(list)]: [null] for the empty array and [undefined] for an
    array of one number; for [2m + 3] numbers the element at the index
    [m + 2] of the sorted array, the one after the middle; for [2m + 2]
    numbers the mean of the two in the middle.  The sorted array is the
    one [list.sort()] leaves, whatever its order. *)
Theorem median_by_length (js_sort : list Q -> list Q) (numbers : list Q) (m : nat) :
  (forall l, length (js_sort l) = length l) ->
  (length numbers = 0%nat -> median js_sort numbers = NNull) /\
  (length numbers = 1%nat -> median js_sort numbers = NUndefined) /\
  (length numbers = (2 * m + 3)%nat ->
   exists x, js_sort numbers !! (m + 2)%nat = Some x /\
             median js_sort numbers = NNum x) /\
  (length numbers = (2 * m + 2)%nat ->
   exists x y, js_sort numbers !! (m + 1)%nat = Some x /\
               js_sort numbers !! m = Some y /\
               median js_sort numbers = NNum ((x + y) / 2)).
Proof.
intros Hsort. unfold median. rewrite ceiling_half, Hsort.
split; [intros ->; reflexivity|]. split.
- intros Hone. rewrite Hone. cbn.
  rewrite lookup_ge_None_2; [reflexivity|]. rewrite Hsort. lia.
- split; intros Hlen; rewrite Hlen.
  + destruct (Nat.eqb_spec (2 * m + 3) 0) as [?|_]; [lia|].
    replace ((2 * m + 3) mod 2)%nat with 1%nat
      by (rewrite (Nat.Div0.add_mod (2 * m) 3 2), Nat.mul_comm, Nat.Div0.mod_mul; reflexivity).
    cbn [Nat.eqb].
    replace ((2 * m + 3 + 1) / 2)%nat with (m + 2)%nat
      by (replace (2 * m + 3 + 1)%nat with ((m + 2) * 2)%nat by lia;
          now rewrite Nat.div_mul).
    destruct (lookup_lt_is_Some_2 (js_sort numbers) (m + 2)) as [x Hx];
      [rewrite Hsort; lia|].
    exists x. now rewrite Hx.
  + destruct (Nat.eqb_spec (2 * m + 2) 0) as [?|_]; [lia|].
    replace ((2 * m + 2) mod 2)%nat with 0%nat
      by (replace (2 * m + 2)%nat with ((m + 1) * 2)%nat by lia;
          now rewrite Nat.Div0.mod_mul).
    cbn [Nat.eqb].
    replace ((2 * m + 2 + 1) / 2)%nat with (m + 1)%nat
      by (replace (2 * m + 2 + 1)%nat with (1 + (m + 1) * 2)%nat by lia;
          now rewrite Nat.div_add).
    replace (m + 1 - 1)%nat with m by lia.
    destruct (lookup_lt_is_Some_2 (js_sort numbers) (m + 1)) as [x Hx];
      [rewrite Hsort; lia|].
    destruct (lookup_lt_is_Some_2 (js_sort numbers) m) as [y Hy];
      [rewrite Hsort; lia|].
    exists x, y. now rewrite Hx, Hy.
Qed.

End DataHelpers.

(** *** Examples for the helpers on arrays and objects *)

(** Two objects with the keys [x] and [y], in that order. *)
Definition point_a : SonicUtilsData.jsobj :=
[("x"%string, SonicUtilsData.JNum 1); ("y"%string, SonicUtilsData.JNum 2)].

Definition point_b : SonicUtilsData.jsobj :=
[("x"%string, SonicUtilsData.JNum (2 # 2)); ("y"%string, SonicUtilsData.JNum 2)].

Lemma hasheq_same_order_witness :
  (SonicUtilsData.hasheq point_a point_b = true <->
   Forall2 (fun p q => fst p = fst q /\
                       SonicUtilsData.strict_eq (snd p) (snd q) = true) point_a point_b) /\
  (forall k1 k2 v1 v2, k1 <> k2 ->
     SonicUtilsData.hasheq [(k1, v1); (k2, v2)] [(k2, v2); (k1, v1)] = false).
Proof.
apply (hasheq_same_order point_a point_b).
- apply (bool_decide_unpack _). vm_compute. exact I.
- apply (bool_decide_unpack _). vm_compute. exact I.
Defined.

Example hasheq_points :
  SonicUtilsData.hasheq point_a point_b = true /\
  SonicUtilsData.hasheq point_a (rev point_a) = false /\
  SonicUtilsData.hasheq [("x"%string, SonicUtilsData.JNaN)]
                        [("x"%string, SonicUtilsData.JNaN)] = false.
Proof. vm_compute. repeat split. Qed.

Lemma median_by_length_witness :
  (length [3%Q; 1%Q; 2%Q] = 0%nat ->
   SonicUtilsData.median (@rev Q) [3%Q; 1%Q; 2%Q] = SonicUtilsData.NNull) /\
  (length [3%Q; 1%Q; 2%Q] = 1%nat ->
   SonicUtilsData.median (@rev Q) [3%Q; 1%Q; 2%Q] = SonicUtilsData.NUndefined) /\
  (length [3%Q; 1%Q; 2%Q] = (2 * 0 + 3)%nat ->
   exists x, @rev Q [3%Q; 1%Q; 2%Q] !! (0 + 2)%nat = Some x /\
             SonicUtilsData.median (@rev Q) [3%Q; 1%Q; 2%Q] = SonicUtilsData.NNum x) /\
  (length [3%Q; 1%Q; 2%Q] = (2 * 0 + 2)%nat ->
   exists x y, @rev Q [3%Q; 1%Q; 2%Q] !! (0 + 1)%nat = Some x /\
               @rev Q [3%Q; 1%Q; 2%Q] !! 0%nat = Some y /\
               SonicUtilsData.median (@rev Q) [3%Q; 1%Q; 2%Q]
               = SonicUtilsData.NNum ((x + y) / 2)).
Proof.
apply (median_by_length (@rev Q) [3%Q; 1%Q; 2%Q] 0).
intros l. apply length_rev.
Defined.

(** On an array that [sort] leaves as [[1, 2, 3]], [median] returns 3;
    on [[7]] it returns [undefined]. *)
Example median_of_three :
  SonicUtilsData.median (fun _ => [1%Q; 2%Q; 3%Q]) [3%Q; 1%Q; 2%Q] = SonicUtilsData.NNum 3 /\
  SonicUtilsData.median (fun l => l) [7%Q] = SonicUtilsData.NUndefined /\
  SonicUtilsData.median (fun l => l) [1%Q; 2%Q; 3%Q; 4%Q] = SonicUtilsData.NNum ((3 + 2) / 2).
Proof. vm_compute. repeat split. Qed.

(* ------------------------------------------------------------------ *)
(** * SonicUtils.js and SFX.js: the callers of the weighted choice *)
(* ------------------------------------------------------------------ *)

Module SonicUtilsChoice.

(** [biased_random_choice(array, property)].  [property] is the name of
    a property of the items, given here by the function that reads it,
    and [None] when the argument is missing.  The test
    [property !== undefined] compares with the jQuery function and
    holds in both cases: the weights are always [x[property]].  Without
    [property] they are [x[undefined]], the value undefined for numbers
    and for objects without a property of that name: the total and the
    running totals are [NaN], no comparison holds, the loop of
    [biased_random_index] runs to its end and [random_index] picks with
    the second draw.  [rnd] and [rnd'] are the values of
    [Math.random()] as in [biased_random_index]; [None] is the value
    returned under the name [undefined]. *)
Definition biased_random_choice {A} (array : list A) (property : option (A -> Q))
    (rnd rnd' : Q) : option A :=
  if (length array =? 0)%nat then None
  else
    let index :=
      match property with
      | Some weight => SonicUtils.biased_random_index (map weight array) rnd rnd'
      | None => SonicUtils.random_index (length array) rnd'
      end in
    match index with
    | Some index => js_index array (VInt index)
    | None => None
    end.

End SonicUtilsChoice.

Module SFX.

(** [obj.next()] of [randomSFX], by indices: [tracks] is the number of
    tracks, [playing] the index of [this.playing] among them when it is
    one of them ([indexOf] gives [-1] otherwise).  The result is the
    index of the track returned; [None] is [undefined]. *)
Definition next (tracks : nat) (playing : option nat) (repeat_multiplier : Q)
    (rnd rnd' : Q) : option Z :=
  let freqs := replicate tracks 1%Q in
  let freqs :=
    match playing with
    | Some repeat_idx => alter (fun f => (f * repeat_multiplier)%Q) repeat_idx freqs
    | None => freqs
    end in
  match SonicUtils.biased_random_index freqs rnd rnd' with
  | Some next_index => if (next_index <? Z.of_nat tracks)%Z then Some next_index else None
  | None => None
  end.

End SFX.

Section WeightedCallers.
Import SonicUtils SonicUtilsChoice.
Local Open Scope Q_scope.

Lemma accumulated_step (weights : list Q) (k : nat) (w : Q) :
  weights !! S k = Some w ->
  accumulated weights (S k) == accumulated weights k + w.
Proof.
intros Hw. unfold accumulated.
change (firstn (S (S k)) weights) with (take (S (S k)) weights).
rewrite (take_S_r weights (S k) w Hw), fold_Qplus_app. cbn [fold_left].
ring.
Qed.

Lemma accumulated_first (weights : list Q) (w : Q) :
  weights !! 0%nat = Some w -> accumulated weights 0 == w.
Proof.
intros Hw. destruct weights as [|w0 rest]; [discriminate|].
injection Hw as ->. unfold accumulated. cbn [firstn fold_left].
change (take 0 rest) with (@nil Q). cbn [fold_left]. lra.
Qed.

(** The cell that the loop of [biased_random_index] returns for a
    positive draw has a positive weight. *)
Lemma chosen_cell_positive (weights : list Q) (magic : Q) (i : nat) (w : Q) :
  0 < magic -> weights !! i = Some w ->
  magic <= accumulated weights i ->
  (forall k, (k < i)%nat -> ~ magic <= accumulated weights k) ->
  0 < w.
Proof.
intros Hmagic Hw Hreach Hfirst.
destruct (Qlt_le_dec 0 w) as [Hpos|Hle]; [exact Hpos|exfalso].
destruct i as [|i].
- rewrite (accumulated_first weights w Hw) in Hreach. lra.
- rewrite (accumulated_step weights i w Hw) in Hreach.
  apply (Hfirst i); [lia | lra].
Qed.

(** A weight that double arithmetic adds without rounding: a
    non-negative integer. *)
Definition whole (q : Q) : Prop := exists n : Z, (0 <= n)%Z /\ q == inject_Z n.

(** X13: [biased_random_choice(array, property)] with a property, on
    items whose weights are non-negative integers with a positive sum
    below 2^53 (double arithmetic adds them without rounding), for a
    draw strictly between 0 and 1: it returns an item of the array, and
    the weight of that item is positive: an item of weight zero is
    never returned. *)
Theorem biased_random_choice_positive {A} (array : list A) (weight : A -> Q) (rnd rnd' : Q) :
  Forall (fun x => whole (weight x)) array ->
  0 < sum (map weight array) -> sum (map weight array) < inject_Z (2 ^ 53) ->
  0 < rnd -> rnd < 1 ->
  exists i x,
    array !! i = Some x /\
    biased_random_choice array (Some weight) rnd rnd' = Some x /\
    0 < weight x.
Proof.
intros _ Hpos _ Hlo Hhi.
destruct (biased_random_index_positive (map weight array) rnd rnd' Hpos
            (Qlt_le_weak _ _ Hlo) Hhi) as (i & Hrun & Hi & Hreach & Hfirst).
rewrite length_map in Hi.
destruct (lookup_lt_is_Some_2 array i Hi) as [x Hx].
exists i, x. split; [exact Hx|].
assert (Hw : map weight array !! i = Some (weight x)).
{ change (map weight array) with (weight <$> array). now rewrite list_lookup_fmap, Hx. }
split.
- unfold biased_random_choice.
  destruct (Nat.eqb_spec (length array) 0) as [Hz|_]; [lia|].
  cbv zeta. rewrite Hrun. unfold js_index.
  destruct (Z.leb_spec 0 (Z.of_nat i)) as [_|?]; [|lia].
  now rewrite Nat2Z.id.
- apply (chosen_cell_positive (map weight array) (rnd * sum (map weight array)) i);
    [nra | exact Hw | exact Hreach | exact Hfirst].
Qed.

Lemma sum_replicate (n : nat) : sum (replicate n 1) == inject_Z (Z.of_nat n).
Proof.
rewrite sum_forward. induction n as [|n IH].
- reflexivity.
- cbn [replicate fold_left]. rewrite fold_Qplus_acc, IH.
  rewrite Nat2Z.inj_succ, <- Z.add_1_l, inject_Z_plus. change (inject_Z 1) with 1. lra.
Qed.

Lemma fold_Qplus_alter (l : list Q) (i : nat) (x : Q) (f : Q -> Q) :
  l !! i = Some x ->
  fold_left Qplus (alter f i l) 0 == fold_left Qplus l 0 - x + f x.
Proof.
revert i. induction l as [|y l IH]; intros i Hi; [discriminate|].
destruct i as [|i]; simpl in Hi.
- injection Hi as ->. cbn [alter list_alter fold_left].
  rewrite (fold_Qplus_acc l (0 + f x)), (fold_Qplus_acc l (0 + x)). lra.
- cbn [alter list_alter fold_left].
  change (list_alter f i l) with (alter f i l).
  rewrite (fold_Qplus_acc (alter f i l) (0 + y)), (fold_Qplus_acc l (0 + y)).
  rewrite (IH i Hi). lra.
Qed.

(** X14: [next()] of a random sound effect with at least two tracks, for a
    multiplier that is not negative and a draw strictly between 0 and 1:
    it returns one of the tracks, and with the multiplier 0 it never
    returns the track that is playing. *)
Theorem next_avoids_repeat (tracks : nat) (playing : option nat)
    (repeat_multiplier rnd rnd' : Q) :
  (2 <= tracks)%nat -> 0 <= repeat_multiplier -> 0 < rnd -> rnd < 1 ->
  exists i,
    SFX.next tracks playing repeat_multiplier rnd rnd' = Some (Z.of_nat i) /\
    (i < tracks)%nat /\
    (repeat_multiplier == 0 -> playing <> Some i).
Proof.
intros Htracks Hmult Hlo Hhi. unfold SFX.next.
set (freqs := match playing with
              | Some repeat_idx =>
                  alter (fun f => f * repeat_multiplier) repeat_idx (replicate tracks 1)
              | None => replicate tracks 1
              end).
assert (Hlen : length freqs = tracks).
{ unfold freqs. destruct playing; [rewrite length_alter|]; apply length_replicate. }
assert (Hcell : forall k w, freqs !! k = Some w ->
          w = 1 \/ (playing = Some k /\ w = 1 * repeat_multiplier)).
{ intros k w Hk. unfold freqs in Hk. destruct playing as [idx|].
  - destruct (Nat.eq_dec idx k) as [->|Hne].
    + rewrite list_lookup_alter_eq in Hk.
      destruct (replicate tracks 1 !! k) as [v|] eqn:Hv; [|discriminate].
      apply lookup_replicate in Hv. destruct Hv as [-> _].
      cbn in Hk. injection Hk as <-. right. now split.
    + rewrite list_lookup_alter_ne in Hk by exact Hne.
      apply lookup_replicate in Hk. left. apply Hk.
  - apply lookup_replicate in Hk. left. apply Hk. }
assert (Hsum : 0 < sum freqs).
{ rewrite sum_forward. unfold freqs. destruct playing as [idx|].
  - destruct (replicate tracks 1 !! idx) as [v|] eqn:Hv.
    + rewrite (fold_Qplus_alter _ idx v _ Hv).
      apply lookup_replicate in Hv. destruct Hv as [-> _].
      rewrite <- sum_forward, sum_replicate.
      assert (Hn : 2 <= inject_Z (Z.of_nat tracks)).
      { change 2 with (inject_Z 2). rewrite <- Zle_Qle. lia. }
      nra.
    + apply lookup_ge_None in Hv.
      assert (Hsame : alter (fun f => f * repeat_multiplier) idx (replicate tracks 1)
                      = replicate tracks 1).
      { apply list_eq. intros k. destruct (Nat.eq_dec idx k) as [->|Hne].
        - rewrite list_lookup_alter_eq. now rewrite (lookup_ge_None_2 _ k Hv).
        - now rewrite list_lookup_alter_ne by exact Hne. }
      rewrite Hsame, <- sum_forward, sum_replicate.
      assert (Hn : 2 <= inject_Z (Z.of_nat tracks)).
      { change 2 with (inject_Z 2). rewrite <- Zle_Qle. lia. }
      lra.
  - rewrite <- sum_forward, sum_replicate.
    assert (Hn : 2 <= inject_Z (Z.of_nat tracks)).
    { change 2 with (inject_Z 2). rewrite <- Zle_Qle. lia. }
    lra. }
destruct (biased_random_index_positive freqs rnd rnd' Hsum (Qlt_le_weak _ _ Hlo) Hhi)
  as (i & Hrun & Hi & Hreach & Hfirst).
rewrite Hlen in Hi. rewrite Hrun.
destruct (Z.ltb_spec (Z.of_nat i) (Z.of_nat tracks)) as [_|?]; [|lia].
exists i. split; [reflexivity|]. split; [exact Hi|].
intros Hzero Hplaying.
destruct (lookup_lt_is_Some_2 freqs i) as [w Hw]; [now rewrite Hlen|].
assert (Hwpos : 0 < w).
{ apply (chosen_cell_positive freqs (rnd * sum freqs) i w);
    [nra | exact Hw | exact Hreach | exact Hfirst]. }
unfold freqs in Hw. rewrite Hplaying, list_lookup_alter_eq in Hw.
destruct (replicate tracks 1 !! i) as [v|] eqn:Hv; [|discriminate].
apply lookup_replicate in Hv. destruct Hv as [-> _].
cbn in Hw. injection Hw as <-. rewrite Hzero in Hwpos. lra.
Qed.

End WeightedCallers.

(** *** Examples for the weighted choice *)

(** Items with a weight. *)
Definition weighted : list (string * Q) :=
  [("a"%string, 1%Q); ("b"%string, 0%Q); ("c"%string, 3%Q)].

Lemma biased_random_choice_positive_witness :
  exists i x,
    weighted !! i = Some x /\
    SonicUtilsChoice.biased_random_choice weighted (Some snd) (1 # 4) 0 = Some x /\
    (0 < snd x)%Q.
Proof.
apply (biased_random_choice_positive weighted snd (1 # 4) 0).
- repeat constructor.
  + exists 1%Z. split; [lia | reflexivity].
  + exists 0%Z. split; [lia | reflexivity].
  + exists 3%Z. split; [lia | reflexivity].
- vm_compute. reflexivity.
- vm_compute. reflexivity.
- vm_compute. reflexivity.
- vm_compute. reflexivity.
Defined.

(** With the weights 1, 0 and 3 read from the items, the draws up to a
    quarter give the first item and the later ones the third; the
    second is never returned.  Without [property] the weights play no
    part: the second draw picks, and it can pick the item of weight
    zero. *)
Example biased_random_choice_draws :
  map (fun rnd => SonicUtilsChoice.biased_random_choice weighted (Some snd) rnd 0)
      [1 # 8; 1 # 4; 3 # 8; 1 # 2; 7 # 8]%Q
  = [Some ("a"%string, 1%Q); Some ("a"%string, 1%Q); Some ("c"%string, 3%Q);
     Some ("c"%string, 3%Q); Some ("c"%string, 3%Q)] /\
  SonicUtilsChoice.biased_random_choice [1%Q; 0%Q; 3%Q] None (1 # 4) (1 # 2) = Some 0%Q /\
  SonicUtilsChoice.biased_random_choice [1%Q; 0%Q; 3%Q] None (1 # 4) 0 = Some 1%Q.
Proof. vm_compute. repeat split. Qed.

Lemma next_avoids_repeat_witness :
  exists i,
    SFX.next 3 (Some 1%nat) 0 (1 # 2) 0 = Some (Z.of_nat i) /\
    (i < 3)%nat /\
    ((0 == 0)%Q -> Some 1%nat <> Some i).
Proof.
apply (next_avoids_repeat 3 (Some 1%nat) 0 (1 # 2) 0).
- lia.
- vm_compute. discriminate.
- vm_compute. reflexivity.
- vm_compute. reflexivity.
Defined.

(** Three tracks, the second one playing: with the multiplier [0.1] of
    [randomSFXFactory] the second track comes back only for the draws
    between 10/21 and 11/21. *)
Example next_with_factory_multiplier :
  map (fun rnd => SFX.next 3 (Some 1%nat) (1 # 10) rnd 0)
      [1 # 4; 10 # 21; 1 # 2; 11 # 21; 3 # 4]%Q
  = [Some 0; Some 0; Some 1; Some 1; Some 2].
Proof. vm_compute. reflexivity. Qed.

(* ------------------------------------------------------------------ *)
(** * SonicShuffle.js: pausing, muting and the first [play] *)
(* ------------------------------------------------------------------ *)

Section ShuffleRoundTrips.
Context {Track : Type} `{TrackOps Track}.
Variable listeners : event -> list (Shuffle Track -> Shuffle Track).

(** The Shuffle after a method has been called on one of its Howls. *)
Definition with_track (r : track_ref) (f : Track -> Track) (s : Shuffle Track)
  : Shuffle Track :=
final_state (update_track (Track := Track) r f s).

(** A grid of sections without an empty set. *)
Definition no_empty_set {T} (grid : list (list T)) : bool :=
forallb (fun sectionset => negb (length sectionset =? 0)%nat) grid.

Lemma reset_all_true_fold {T} (grid : list (list T)) :
  no_empty_set grid = true ->
  fold_left cycle_step (resetSectionsPlayed grid) (Normal true) = Normal true.
Proof.
induction grid as [|row grid IH]; intros Hne; [reflexivity|].
cbn [no_empty_set forallb] in Hne. apply andb_prop in Hne. destruct Hne as [Hrow Hrest].
cbn [resetSectionsPlayed map fold_left cycle_step cbind].
destruct row as [|t row]; [discriminate|].
rewrite reduce1_or_spec by discriminate. cbn [map existsb orb].
exact (IH Hrest).
Qed.

(** X15: On the grid that [resetSectionsPlayed] builds, [cycleExists] returns
    [true] when no section set is empty and throws a [TypeError] when
    one is. *)
Theorem cycleExists_after_reset {T} (grid : list (list T)) :
  cycleExists (resetSectionsPlayed grid)
  = if no_empty_set grid then Normal true else Throw TypeError.
Proof.
rewrite cycleExists_unfold.
destruct (no_empty_set grid) eqn:Hne; [now apply reset_all_true_fold|].
induction grid as [|row grid IH]; [discriminate|].
cbn [no_empty_set forallb] in Hne.
cbn [resetSectionsPlayed map fold_left cycle_step cbind].
destruct row as [|t row].
- cbn [map reduce1]. apply cycle_fold_throw.
- rewrite reduce1_or_spec by discriminate. cbn [map existsb orb].
  apply IH. exact Hne.
Qed.

Lemma reset_empty_set_throws {T} (grid : list (list T)) :
  no_empty_set grid = false -> cycleExists (resetSectionsPlayed grid) = Throw TypeError.
Proof.
rewrite cycleExists_unfold.
induction grid as [|row grid IH]; intros Hne; [discriminate|].
cbn [no_empty_set forallb] in Hne.
cbn [resetSectionsPlayed map fold_left cycle_step cbind].
destruct row as [|t row].
- cbn [map reduce1]. apply cycle_fold_throw.
- rewrite reduce1_or_spec by discriminate. cbn [map existsb orb].
  apply IH. exact Hne.
Qed.

Lemma isLastSection_at_null (s : Shuffle Track) :
  section_set s = VNull ->
  exists finished, isLastSection (Track := Track) s = Ok finished s [].
Proof.
intros Hnull. unfold isLastSection.
rewrite (bind_Ok_silent _ _ s s s) by reflexivity. cbv zeta.
rewrite Hnull. cbn [strict_eq_int].
destruct (String.eqb (end_ s) "section"); [now eexists|].
destruct (String.eqb (end_ s) "cycle"); [now eexists|].
destruct (String.eqb (end_ s) "fullcycle"); now eexists.
Qed.

(** X16: The first [play()] of a Shuffle built without intro from a grid of
    sections with an empty set, when no handler of [play] is attached:
    the Shuffle is marked as playing, [play] is triggered, and the call
    throws the [TypeError] of [cycleExists], at the first set. *)
Theorem play_with_empty_set_throws (grid : list (list Track)) (scope : string) (rnd : Q) :
  grid <> [] -> no_empty_set grid = false -> listeners EvPlay = [] ->
  play listeners rnd (fresh_shuffle grid scope)
  = Exn TypeError
      (set_section_set (VInt 0) (set_state playing (fresh_shuffle grid scope)))
      [Triggered EvPlay].
Proof.
intros Hne Hempty Hquiet.
set (s := fresh_shuffle grid scope).
assert (Hlen : (0 < length grid)%nat) by (destruct grid; [congruence | simpl; lia]).
unfold play.
rewrite (bind_Ok_silent _ _ s s s) by reflexivity.
change (state s) with stopped. change (sections s) with grid. change (intro s) with (@None Track).
destruct (bool_decide (stopped = playing)) eqn:E1;
  [apply bool_decide_eq_true in E1; discriminate|].
destruct (Nat.eqb_spec (length grid) 0) as [?|_]; [lia|].
destruct (bool_decide (stopped = paused)) eqn:E2;
  [apply bool_decide_eq_true in E2; discriminate|].
destruct (bool_decide (is_Some (@None Track))) eqn:E3;
  [apply bool_decide_eq_true in E3; destruct E3; discriminate|].
rewrite andb_false_r.
rewrite (bind_Ok_silent _ _ s tt (set_state playing s)) by reflexivity.
set (s1 := set_state playing s).
rewrite (bind_Ok _ _ s1 tt s1 [Triggered EvPlay]).
2:{ rewrite trigger_run. unfold heard. now rewrite Hquiet. }
(* the local function [next] *)
assert (Hnext : next listeners rnd s1
                = Exn TypeError (set_section_set (VInt 0) s1) []).
{ unfold next.
  destruct (isLastSection_at_null s1 eq_refl) as [finished Hlast].
  rewrite (bind_Ok_silent _ _ s1 finished s1 Hlast).
  set (s2 := set_section_set (VInt (Z.of_nat (length grid) - 1)) s1).
  rewrite (bind_Ok_silent _ _ s1 tt s2) by reflexivity.
  assert (Hmove : moveToSucessorState listeners rnd s2
                  = Exn TypeError (set_section_set (VInt 0) s1) []).
  { unfold moveToSucessorState.
    rewrite (bind_Ok_silent _ _ s2 tt (set_section_set (VInt 0) s1)).
    2:{ unfold modify. cbn [js_succ js_rem section_set set_section_set s2 sections].
        change (sections s1) with grid.
        destruct (Z.eqb_spec (Z.of_nat (length grid)) 0) as [?|_]; [lia|].
        replace (Z.of_nat (length grid) - 1 + 1) with (Z.of_nat (length grid)) by lia.
        rewrite Z.rem_same by lia. reflexivity. }
    set (s3 := set_section_set (VInt 0) s1).
    rewrite (bind_Ok_silent _ _ s3 s3 s3) by reflexivity.
    change (section_set s3) with (VInt 0). cbn [strict_eq_int Z.eqb].
    change (section_states s3) with (resetSectionsPlayed grid).
    rewrite (reset_empty_set_throws grid Hempty). reflexivity. }
  unfold bind at 1. now rewrite Hmove. }
now rewrite Hnext.
Qed.

(** [nowPlaying] reads the position and owns nothing: it returns on the
    Shuffle it was given. *)
Lemma nowPlaying_same (s s' : Shuffle Track) (r : track_ref) :
  section_set s' = section_set s -> section s' = section s ->
  (forall r0, is_Some (deref r0 s') <-> is_Some (deref r0 s)) ->
  nowPlaying s = Ok (RObj r) s [] -> nowPlaying s' = Ok (RObj r) s' [].
Proof.
intros Hset Hsec Hown. unfold nowPlaying.
rewrite (bind_Ok_silent _ _ s s s) by reflexivity.
rewrite (bind_Ok_silent _ _ s' s' s') by reflexivity.
rewrite Hset, Hsec.
destruct (is_null (section_set s) || is_null (section s)); [discriminate|].
destruct (strict_eq_int (section_set s) (-1)).
- pose proof (Hown Intro) as Hi. cbn [deref] in Hi.
  destruct (intro s) as [t|]; [|discriminate].
  intros [= <-]. destruct (intro s') as [t'|]; [reflexivity|].
  exfalso. destruct Hi as [_ Hi]. destruct (Hi ltac:(eauto)); discriminate.
- destruct (section_set s) as [| | |i] eqn:Ei; cbn [js_index]; try discriminate.
  destruct (0 <=? i) eqn:Hi0; [|discriminate].
  destruct (sections s !! Z.to_nat i) as [row|] eqn:Hrow; [|discriminate].
  destruct (section s) as [| | |j] eqn:Ej; cbn [js_index].
  1-3: discriminate.
  destruct (0 <=? j) eqn:Hj0; [|discriminate].
  destruct (row !! Z.to_nat j) as [t|] eqn:Ht; [|discriminate].
  intros [= <-].
  pose proof (Hown (SectionAt (Z.to_nat i) (Z.to_nat j))) as [_ Hij].
  cbn [deref] in Hij. rewrite Hrow in Hij. cbn [mbind option_bind] in Hij.
  rewrite Ht in Hij. destruct (Hij ltac:(eauto)) as [t' Ht'].
  destruct (sections s' !! Z.to_nat i) as [row'|]; [|discriminate].
  cbn [mbind option_bind] in Ht'. now rewrite Ht'.
Qed.

Lemma deref_with_track (r r0 : track_ref) (f : Track -> Track) (s : Shuffle Track) :
  is_Some (deref r0 (with_track r f s)) <-> is_Some (deref r0 s).
Proof.
unfold with_track, update_track, modify. cbn [final_state].
destruct r as [|i j]; destruct r0 as [|i0 j0]; cbn [deref set_intro set_sections intro sections].
- destruct (intro s); cbn; split; intros [x Hx]; eauto; discriminate.
- reflexivity.
- reflexivity.
- destruct (Nat.eq_dec i i0) as [->|Hi].
  + rewrite list_lookup_alter_eq.
    destruct (sections s !! i0) as [row|]; cbn; [|reflexivity].
    destruct (Nat.eq_dec j j0) as [->|Hj].
    * rewrite list_lookup_alter_eq.
      destruct (row !! j0); cbn; split; intros [x Hx]; eauto; discriminate.
    * now rewrite list_lookup_alter_ne by exact Hj.
  + now rewrite list_lookup_alter_ne by exact Hi.
Qed.

(** X17: [pause()] and then [play()], on a Shuffle that is playing the Howl
    [r], when no handler of [pause] is attached: [pause] marks the
    Shuffle as paused, pauses that Howl and triggers [pause]; [play]
    then resumes the same Howl and marks the Shuffle as playing, without
    any event, any draw or any move of the automaton.  The position,
    the visitation grid and the gain are the ones before the pause. *)
Theorem pause_then_play_resumes (s : Shuffle Track) (r : track_ref) (rnd : Q) :
  state s = playing -> sections s <> [] -> listeners EvPause = [] ->
  nowPlaying s = Ok (RObj r) s [] ->
  let s1 := with_track r howl_pause (set_state paused s) in
  let s2 := set_state playing (with_track r howl_play s1) in
  pause listeners s = Ok tt s1 [Triggered EvPause] /\
  play listeners rnd s1 = Ok tt s2 [] /\
  section_set s2 = section_set s /\ section s2 = section s /\
  section_states s2 = section_states s /\ gain s2 = gain s /\
  deref r s2 = option_map (fun t => howl_play (howl_pause t)) (deref r s).
Proof.
intros Hplay Hne Hquiet Hnow s1 s2.
assert (Hnow0 : nowPlaying (set_state paused s)
                = Ok (RObj r) (set_state paused s) []).
{ apply (nowPlaying_same s); [reflexivity | reflexivity | | exact Hnow].
  intros r0. destruct r0; reflexivity. }
assert (Hnow1 : nowPlaying s1 = Ok (RObj r) s1 []).
{ apply (nowPlaying_same s); [| | |exact Hnow].
  - unfold s1, with_track, update_track, modify. destruct r; reflexivity.
  - unfold s1, with_track, update_track, modify. destruct r; reflexivity.
  - intros r0. unfold s1. rewrite deref_with_track. destruct r0; reflexivity. }
split; [|split].
- unfold pause.
  rewrite (bind_Ok_silent _ _ s (RObj r) s Hnow).
  rewrite (bind_Ok_silent _ _ s s s) by reflexivity.
  rewrite Hplay. rewrite bool_decide_eq_true_2 by reflexivity. cbn [negb].
  rewrite (bind_Ok_silent _ _ s tt (set_state paused s)) by reflexivity.
  rewrite (bind_Ok_silent _ _ _ (RObj r) _ Hnow0).
  rewrite (bind_Ok_silent _ _ _ tt s1) by reflexivity.
  rewrite trigger_run. unfold heard. now rewrite Hquiet.
- unfold play.
  rewrite (bind_Ok_silent _ _ s1 s1 s1) by reflexivity.
  assert (Hst : state s1 = paused).
  { unfold s1, with_track, update_track, modify. destruct r; reflexivity. }
  assert (Hsec : sections s1 <> []).
  { unfold s1, with_track, update_track, modify. destruct r as [|i j]; [exact Hne|].
    cbn [final_state sections set_sections set_state].
    intros Hnil. apply (f_equal (@length _)) in Hnil.
    rewrite length_alter in Hnil. destruct (sections s); [congruence | discriminate]. }
  rewrite Hst.
  destruct (bool_decide (paused = playing)) eqn:E1;
    [apply bool_decide_eq_true in E1; discriminate|].
  destruct (Nat.eqb_spec (length (sections s1)) 0) as [Hz|_].
  { destruct (sections s1); [congruence | discriminate]. }
  rewrite bool_decide_eq_true_2 by reflexivity.
  rewrite (bind_Ok_silent _ _ _ (RObj r) _ Hnow1).
  rewrite (bind_Ok_silent _ _ _ tt (with_track r howl_play s1)) by reflexivity.
  reflexivity.
- unfold s2, s1, with_track, update_track, modify.
  destruct r as [|i j]; cbn [final_state]; repeat split; try reflexivity.
  + cbn [deref set_state set_intro intro]. now destruct (intro s).
  + cbn [deref set_state set_sections sections].
    rewrite !list_lookup_alter_eq.
    destruct (sections s !! i) as [row|]; cbn; [|reflexivity].
    rewrite !list_lookup_alter_eq.
    now destruct (row !! j).
Qed.

(** X18: [mute()] and then [unmute()], when no handler is attached: the
    Shuffle ends unmuted with its gain clamped to [0, 1], and every Howl
    it owns has been muted, unmuted and, unless it is fading, given that
    gain; [unmute] triggers [volume] and then [mute].  The play state,
    the position and the visitation grid are untouched, and a gain
    between 0 and 1 is the gain before. *)
Theorem mute_then_unmute (s : Shuffle Track) :
  (forall e, listeners e = []) ->
  let vol := SonicUtils.clamp (gain s) 0%Q 1%Q in
  let s1 := each_track howl_mute (set_muted true s) in
  let s2 :=
    each_track (fun t => if howl_isFading t then t else howl_volume vol t)
      (set_gain vol (each_track howl_unmute (set_muted false s1))) in
  mute listeners s = Ok tt s1 [Triggered (EvMute true)] /\
  unmute listeners s1 = Ok tt s2 [Triggered (EvVolume vol); Triggered (EvMute false)] /\
  muted s2 = false /\ state s2 = state s /\
  section_set s2 = section_set s /\ section s2 = section s /\
  section_states s2 = section_states s /\
  ((0 <= gain s)%Q -> (gain s <= 1)%Q -> gain s2 = gain s) /\
  forall r,
    deref r s2
    = option_map (fun t => let t' := howl_unmute (howl_mute t) in
                           if howl_isFading t' then t' else howl_volume vol t')
        (deref r s).
Proof.
intros Hquiet vol s1 s2.
split; [|split].
- unfold mute, bind, modify, forEachSection, trigger, tell. rewrite Hquiet. reflexivity.
- unfold unmute.
  rewrite (bind_Ok_silent _ _ s1 tt (set_muted false s1)) by reflexivity.
  rewrite (bind_Ok_silent _ _ _ tt (each_track howl_unmute (set_muted false s1)))
    by reflexivity.
  set (s1' := each_track howl_unmute (set_muted false s1)).
  rewrite (bind_Ok_silent _ _ s1' (gain s) s1') by reflexivity.
  rewrite (bind_Ok _ _ s1' tt s2 [Triggered (EvVolume vol)]).
  2:{ unfold volume_set. fold vol.
      rewrite (bind_Ok_silent _ _ s1' tt (set_gain vol s1')) by reflexivity.
      rewrite (bind_Ok _ _ _ tt (set_gain vol s1') [Triggered (EvVolume vol)]).
      2:{ rewrite trigger_run. unfold heard. now rewrite Hquiet. }
      rewrite (bind_Ok_silent _ _ _ (set_gain vol s1') (set_gain vol s1')) by reflexivity.
      reflexivity. }
  rewrite trigger_run. unfold heard. now rewrite Hquiet.
- repeat split.
  + intros Hlo Hhi. unfold s2, vol. cbn [gain each_track set_sections set_intro set_gain].
    now apply clamp_within.
  + intros r. unfold s2, s1. rewrite !deref_each_track.
    change (deref r (set_gain vol (each_track howl_unmute
              (set_muted false (each_track howl_mute (set_muted true s))))))
      with (deref r (each_track howl_unmute (each_track howl_mute s))).
    rewrite !deref_each_track. now destruct (deref r s).
Qed.

End ShuffleRoundTrips.

(** *** Examples for the round trips *)

(** A grid of two section sets, the second one empty. *)
Definition grid_with_empty_set : list (list Howl) := [[howl "a1"]; []].

Lemma play_with_empty_set_throws_witness :
  play no_listeners 0 (fresh_shuffle grid_with_empty_set "loop")
  = Exn TypeError
      (set_section_set (VInt 0)
         (set_state playing (fresh_shuffle grid_with_empty_set "loop")))
      [Triggered EvPlay].
Proof.
apply (play_with_empty_set_throws no_listeners grid_with_empty_set "loop" 0).
- discriminate.
- reflexivity.
- reflexivity.
Defined.

Lemma pause_then_play_resumes_witness :
  let r := SectionAt 0 0 in
  let s1 := with_track r howl_pause (set_state paused piece_x) in
  let s2 := set_state playing (with_track r howl_play s1) in
  pause no_listeners piece_x = Ok tt s1 [Triggered EvPause] /\
  play no_listeners 0 s1 = Ok tt s2 [] /\
  section_set s2 = section_set piece_x /\ section s2 = section piece_x /\
  section_states s2 = section_states piece_x /\ gain s2 = gain piece_x /\
  deref r s2 = option_map (fun t => howl_play (howl_pause t)) (deref r piece_x).
Proof.
apply (pause_then_play_resumes no_listeners piece_x (SectionAt 0 0) 0).
- reflexivity.
- discriminate.
- reflexivity.
- reflexivity.
Defined.

Lemma mute_then_unmute_witness :
  let vol := SonicUtils.clamp (gain piece_x) 0%Q 1%Q in
  let s1 := each_track howl_mute (set_muted true piece_x) in
  let s2 :=
    each_track (fun t => if howl_isFading t then t else howl_volume vol t)
      (set_gain vol (each_track howl_unmute (set_muted false s1))) in
  mute no_listeners piece_x = Ok tt s1 [Triggered (EvMute true)] /\
  unmute no_listeners s1
  = Ok tt s2 [Triggered (EvVolume vol); Triggered (EvMute false)] /\
  muted s2 = false /\ state s2 = state piece_x /\
  section_set s2 = section_set piece_x /\ section s2 = section piece_x /\
  section_states s2 = section_states piece_x /\
  ((0 <= gain piece_x)%Q -> (gain piece_x <= 1)%Q -> gain s2 = gain piece_x) /\
  forall r,
    deref r s2
    = option_map (fun t => let t' := howl_unmute (howl_mute t) in
                           if howl_isFading t' then t' else howl_volume vol t')
        (deref r piece_x).
Proof.
apply (mute_then_unmute no_listeners piece_x).
intros e. reflexivity.
Defined.

(* ------------------------------------------------------------------ *)
(** * SonicShuffle.js: the first [play] *)
(* ------------------------------------------------------------------ *)

Section FirstPlay.
Context {Track : Type} `{TrackOps Track}.
Variable listeners : event -> list (Shuffle Track -> Shuffle Track).

Lemma reset_rows_nonempty {T} (grid : list (list T)) :
  Forall (fun set => set <> []) grid ->
  Forall (fun row => row <> []) (resetSectionsPlayed grid).
Proof.
intros Hsets. unfold resetSectionsPlayed.
induction Hsets as [|set rest Hset _ IH]; cbn [map]; constructor; [|exact IH].
destruct set; [congruence | discriminate].
Qed.

Lemma reset_has_cycle {T} (grid : list (list T)) :
  Forall (fun set => set <> []) grid ->
  cycleExists_spec (resetSectionsPlayed grid) = true.
Proof.
intros Hsets. apply cycleExists_spec_true.
apply List.Forall_forall. intros row Hin.
apply list_elem_of_In, list_elem_of_lookup in Hin. destruct Hin as [i Hi].
exact (reset_row_eligible grid i row Hsets Hi).
Qed.

(** A Shuffle at rest, without intro, overlaps or finale: stopped, with
    no position and every section eligible, as the constructor builds it
    and as [stop()] leaves it. *)
Definition at_rest (vol : Q) (name : option string) (grid : list (list Track))
    (mute_flag stops : bool) (scope : string) : Shuffle Track :=
mkShuffle vol name None grid (resetSectionsPlayed grid) mute_flag false None
  VNull VNull stopped stops scope.

Lemma fresh_at_rest (grid : list (list Track)) (scope : string) :
  fresh_shuffle grid scope = at_rest 1 None grid false true scope.
Proof. reflexivity. Qed.

Lemma stop_leaves_at_rest (s : Shuffle Track) :
  intro s = None -> has_overlaps s = false -> finale s = None ->
  listeners EvStop = [] ->
  stop listeners s
  = Ok tt (at_rest (gain s) (title s) (map (map howl_stop) (sections s)) (muted s)
             (end_stop s) (end_ s))
      [Triggered EvStop].
Proof.
intros Hintro Hover Hfinale Hquiet. unfold stop, bind, modify, forEachSection, trigger, tell.
rewrite Hquiet. cbn [fold_left app]. unfold at_rest. f_equal.
destruct s; cbn in *. now subst.
Qed.

(** What the first call of [next] does to the Howl it has picked. *)
Definition started (sectionset : jsval) (vol : Q) (t : Track) : Track :=
howl_play (howl_volume vol (howl_ion "end" (OnSectionTerminal sectionset) t)).

(** X19: [play()] on a Shuffle at rest whose section sets are not empty,
    when no handler of [play], [cycle-begin] or [section-begin] is
    attached: the Shuffle is marked as playing and the automaton enters
    the first set, where it marks one section as played.  That section
    gets the handler of [end], the gain of the Shuffle as volume (0 when
    it is muted) and [play()], after the events [play], [cycle-begin]
    and [section-begin]; but with the end scope ['section'] and
    [end_stop] the call returns before that: [play] is the only event
    and no Howl is touched. *)
Theorem first_play_enters_first_set (vol : Q) (name : option string)
    (grid : list (list Track)) (mute_flag stops : bool) (scope : string) (rnd : Q) :
  grid <> [] -> Forall (fun set => set <> []) grid ->
  listeners EvPlay = [] -> listeners EvCycleBegin = [] ->
  (forall i j, listeners (EvSectionBegin i j) = []) ->
  (0 <= rnd)%Q -> (rnd < 1)%Q ->
  let s := at_rest vol name grid mute_flag stops scope in
  exists (j : nat) (t : Track) (row : list bool) (s' : Shuffle Track),
    deref (SectionAt 0 j) s = Some t /\
    resetSectionsPlayed grid !! 0%nat = Some row /\
    state s' = playing /\ section_set s' = VInt 0 /\ section s' = VInt (Z.of_nat j) /\
    section_states s' = <[0%nat := <[j := false]> row]> (resetSectionsPlayed grid) /\
    if String.eqb scope "section" && stops
    then play listeners rnd s = Ok tt s' [Triggered EvPlay] /\
         sections s' = grid
    else play listeners rnd s
         = Ok tt s' [Triggered EvPlay; Triggered EvCycleBegin;
                     Triggered (EvSectionBegin (VInt 0) (VInt (Z.of_nat j)))] /\
         sections s'
         = alter (alter (started (VInt 0) (if mute_flag then 0%Q else vol)) j) 0%nat grid.
Proof.
intros Hne Hsets Hplay Hbegin Hsection Hlo Hhi s.
assert (Hlen : (0 < length grid)%nat) by (destruct grid; [congruence | simpl; lia]).
set (s1 := set_state playing s).
set (s2 := set_section_set (VInt (Z.of_nat (length grid) - 1)) s1).
(* the automaton enters the first set and picks *)
assert (Hrows : Forall (fun row => row <> []) (section_states s2))
  by exact (reset_rows_nonempty grid Hsets).
assert (Hvalid : valid_position s2).
{ unfold valid_position, s2. cbn [section_set set_section_set]. lia. }
assert (Hnext : next_set s2 = 0).
{ unfold next_set. cbn [section_set s2 set_section_set position_number sections set_state s1].
  change (sections s) with grid.
  replace (Z.of_nat (length grid) - 1 + 1) with (Z.of_nat (length grid)) by lia.
  apply Z.mod_same. lia. }
assert (Hwraps : wraps s2 = false).
{ unfold wraps. rewrite Hnext.
  change (section_states s2) with (resetSectionsPlayed grid).
  now rewrite (reset_has_cycle grid Hsets). }
assert (Hbefore : before_pick listeners s2 = set_section_set (VInt 0) s2).
{ unfold before_pick. rewrite Hwraps. unfold entered. now rewrite Hnext. }
set (s3 := set_section_set (VInt 0) s2) in *.
assert (Hgrid3 : grid_matches s3) by exact (resetSectionsPlayed_shape grid).
assert (Helig : eligible_here s3).
{ destruct (lookup_lt_is_Some_2 (resetSectionsPlayed grid) 0) as [row Hrow].
  { unfold resetSectionsPlayed. now rewrite length_map. }
  exists row. split; [exact Hrow|].
  exact (reset_row_eligible grid 0 row Hsets Hrow). }
destruct (pick_of_eligible s3 rnd Hgrid3 Helig Hlo Hhi)
  as (i & j & row & Hset & Hrow & Hj & [t Ht] & Hpick).
assert (i = 0%nat) by (cbn in Hset; injection Hset; lia). subst i.
set (s4 := set_section_states (<[0%nat := <[j := false]> row]> (section_states s3))
             (set_section (VInt (Z.of_nat j)) s3)) in *.
assert (Hmove : moveToSucessorState listeners rnd s2 = Ok (RObj (SectionAt 0 j)) s4 []).
{ rewrite (moveToSucessorState_steps listeners s2 rnd Hne Hvalid Hrows).
  rewrite Hbefore. unfold advance_trace. rewrite Hwraps.
  change (state s3) with playing. rewrite bool_decide_eq_true_2 by reflexivity.
  cbn [negb]. now rewrite Hpick. }
(* [play] up to the call of [next] *)
set (v := if mute_flag then 0%Q else vol).
exists j, t, row, (if String.eqb scope "section" && stops then s4
                   else with_track (SectionAt 0 j) (started (VInt 0) v) s4).
split; [exact Ht|]. split; [exact Hrow|].
assert (Hhead : forall o,
  next listeners rnd s1 = o ->
  play listeners rnd s
  = match o with
    | Ok b s5 tr => Ok b s5 ([Triggered EvPlay] ++ tr)
    | Exn e s5 tr => Exn e s5 ([Triggered EvPlay] ++ tr)
    end).
{ intros o <-. unfold play.
  rewrite (bind_Ok_silent _ _ s s s) by reflexivity.
  change (state s) with stopped. change (sections s) with grid.
  change (intro s) with (@None Track).
  destruct (bool_decide (stopped = playing)) eqn:E1;
    [apply bool_decide_eq_true in E1; discriminate|].
  destruct (Nat.eqb_spec (length grid) 0) as [?|_]; [lia|].
  destruct (bool_decide (stopped = paused)) eqn:E2;
    [apply bool_decide_eq_true in E2; discriminate|].
  destruct (bool_decide (is_Some (@None Track))) eqn:E3;
    [apply bool_decide_eq_true in E3; destruct E3; discriminate|].
  rewrite andb_false_r.
  rewrite (bind_Ok_silent _ _ s tt s1) by reflexivity.
  rewrite (bind_Ok _ _ s1 tt s1 [Triggered EvPlay]).
  2:{ rewrite trigger_run. unfold heard. now rewrite Hplay. }
  reflexivity. }
(* [next] up to the test of [finished] *)
assert (Hlast : isLastSection s1 = Ok (String.eqb scope "section") s1 []).
{ unfold isLastSection.
  rewrite (bind_Ok_silent _ _ s1 s1 s1) by reflexivity. cbv zeta.
  change (end_ s1) with scope. change (section_set s1) with VNull.
  cbn [strict_eq_int].
  destruct (String.eqb scope "section"); [reflexivity|].
  destruct (String.eqb scope "cycle"); [reflexivity|].
  destruct (String.eqb scope "fullcycle"); reflexivity. }
assert (Hnextrun :
  next listeners rnd s1
  = if String.eqb scope "section" && stops then Ok tt s4 []
    else Ok tt (with_track (SectionAt 0 j) (started (VInt 0) v) s4)
           [Triggered EvCycleBegin;
            Triggered (EvSectionBegin (VInt 0) (VInt (Z.of_nat j)))]).
{ unfold next.
  rewrite (bind_Ok_silent _ _ s1 _ s1 Hlast).
  rewrite (bind_Ok_silent _ _ s1 tt s2) by reflexivity.
  rewrite (bind_Ok_silent _ _ s2 _ s4 Hmove).
  rewrite (bind_Ok_silent _ _ s4 tt s4) by reflexivity.
  rewrite (bind_Ok_silent _ _ s4 s4 s4) by reflexivity.
  change (end_stop s4) with stops.
  destruct (String.eqb scope "section" && stops); [reflexivity|].
  change (section_set s4) with (VInt 0).
  set (s5 := with_track (SectionAt 0 j) (howl_ion "end" (OnSectionTerminal (VInt 0))) s4).
  rewrite (bind_Ok_silent _ _ s4 tt s5) by reflexivity.
  change (has_overlaps s4) with false. cbn [only_if].
  rewrite (bind_Ok_silent _ _ s5 tt s5) by reflexivity.
  change (state s4) with playing. rewrite bool_decide_eq_true_2 by reflexivity.
  cbn [strict_eq_int Z.eqb only_if].
  rewrite (bind_Ok _ _ s5 tt s5 [Triggered EvCycleBegin]).
  2:{ rewrite trigger_run. unfold heard. now rewrite Hbegin. }
  rewrite (bind_Ok_silent _ _ s5 s5 s5) by reflexivity.
  change (section_set s5) with (VInt 0). change (section s5) with (VInt (Z.of_nat j)).
  rewrite (bind_Ok _ _ s5 tt s5 [Triggered (EvSectionBegin (VInt 0) (VInt (Z.of_nat j)))]).
  2:{ rewrite trigger_run. unfold heard. now rewrite Hsection. }
  rewrite (bind_Ok_silent _ _ s5 s5 s5) by reflexivity.
  change (state s5) with playing. rewrite bool_decide_eq_true_2 by reflexivity.
  change (muted s5) with mute_flag. change (gain s5) with vol. fold v.
  assert (Hboth :
    alter (alter (fun t0 => howl_play (howl_volume v t0)) j) 0%nat
      (alter (alter (howl_ion "end" (OnSectionTerminal (VInt 0))) j) 0%nat (sections s4))
    = alter (alter (started (VInt 0) v) j) 0%nat (sections s4)).
  { apply list_eq. intros k. destruct (Nat.eq_dec k 0%nat) as [->|Hk].
    - rewrite !list_lookup_alter_eq. destruct (sections s4 !! 0%nat) as [set0|]; [|reflexivity].
      cbn. f_equal. apply list_eq. intros k'. destruct (Nat.eq_dec k' j) as [->|Hk'].
      + rewrite !list_lookup_alter_eq. now destruct (set0 !! j).
      + now rewrite !list_lookup_alter_ne by congruence.
    - now rewrite !list_lookup_alter_ne by congruence. }
  change (@eq (outcome (Shuffle Track) observation js_error unit)
            (Ok tt
               (set_sections
                  (alter (alter (fun t0 => howl_play (howl_volume v t0)) j) 0%nat
                     (alter (alter (howl_ion "end" (OnSectionTerminal (VInt 0))) j) 0%nat
                        (sections s4))) s4)
               [Triggered EvCycleBegin;
                Triggered (EvSectionBegin (VInt 0) (VInt (Z.of_nat j)))])
            (Ok tt
               (set_sections (alter (alter (started (VInt 0) v) j) 0%nat (sections s4)) s4)
               [Triggered EvCycleBegin;
                Triggered (EvSectionBegin (VInt 0) (VInt (Z.of_nat j)))])).
  now rewrite Hboth. }
rewrite (Hhead _ Hnextrun).
destruct (String.eqb scope "section" && stops).
- repeat split; reflexivity.
- repeat split; reflexivity.
Qed.

End FirstPlay.

(** *** Examples for the first [play] *)

Definition two_sets : list (list Howl) := [[howl "a1"; howl "a2"]; [howl "b1"]].

Lemma first_play_enters_first_set_witness :
  let s := at_rest (1 # 2) None two_sets false true "fullcycle" in
  exists (j : nat) (t : Howl) (row : list bool) (s' : Shuffle Howl),
    deref (SectionAt 0 j) s = Some t /\
    resetSectionsPlayed two_sets !! 0%nat = Some row /\
    state s' = playing /\ section_set s' = VInt 0 /\ section s' = VInt (Z.of_nat j) /\
    section_states s' = <[0%nat := <[j := false]> row]> (resetSectionsPlayed two_sets) /\
    if String.eqb "fullcycle" "section" && true
    then play no_listeners (3 # 4) s = Ok tt s' [Triggered EvPlay] /\
         sections s' = two_sets
    else play no_listeners (3 # 4) s
         = Ok tt s' [Triggered EvPlay; Triggered EvCycleBegin;
                     Triggered (EvSectionBegin (VInt 0) (VInt (Z.of_nat j)))] /\
         sections s'
         = alter (alter (started (VInt 0) (if false then 0%Q else 1 # 2)) j) 0%nat two_sets.
Proof.
apply (first_play_enters_first_set no_listeners (1 # 2) None two_sets false true
         "fullcycle" (3 # 4)).
- discriminate.
- repeat constructor; discriminate.
- reflexivity.
- reflexivity.
- intros i j. reflexivity.
- vm_compute. discriminate.
- vm_compute. reflexivity.
Defined.

(** With the draw 3/4 the second section of the first set is started;
    with the end scope ['section'] the same call starts nothing; after
    [stop()] the next [play()] starts at the first set again. *)
Example first_play_of_two_sets :
  let after scope := final_state (play no_listeners (3 # 4) (fresh_shuffle two_sets scope)) in
  (section_set (after "fullcycle"), section (after "fullcycle")) = (VInt 0, VInt 1) /\
  map (map h_state) (sections (after "fullcycle")) = [[stopped; playing]; [stopped]] /\
  (section_set (after "section"), section (after "section")) = (VInt 0, VInt 1) /\
  map (map h_state) (sections (after "section")) = [[stopped; stopped]; [stopped]] /\
  state (after "section") = playing /\
  (let again :=
     final_state (play no_listeners 0
                    (final_state (stop no_listeners (after "fullcycle")))) in
   (section_set again, section again) = (VInt 0, VInt 0) /\
   map (map h_state) (sections again) = [[playing; stopped]; [stopped]]).
Proof. vm_compute. repeat split. Qed.

(* ------------------------------------------------------------------ *)
(** * SonicShuffle.js: a run of the automaton *)
(* ------------------------------------------------------------------ *)

Section CycleRuns.
Context {Track : Type} `{TrackOps Track}.
Variable listeners : event -> list (Shuffle Track -> Shuffle Track).

(** The Shuffle after a series of calls of [moveToSucessorState], one
    for each draw; [None] when a call throws, or returns anything but a
    Howl that the Shuffle owns. *)
Fixpoint after_advances (draws : list Q) (s : Shuffle Track) : option (Shuffle Track) :=
  match draws with
  | [] => Some s
  | rnd :: rest =>
      match moveToSucessorState listeners rnd s with
      | Ok (RObj r) s' _ =>
          if bool_decide (is_Some (deref r s')) then after_advances rest s' else None
      | _ => None
      end
  end.

(** X20: Inside a cycle the automaton never stalls: on a playing Shuffle
    without handler of [fullcycle], whatever the draws, every call of
    [moveToSucessorState] returns a Howl that the Shuffle owns, and the
    automaton is inside a cycle again. *)
Theorem cycle_never_stalls (draws : list Q) (s : Shuffle Track) :
  listeners EvFullcycle = [] ->
  in_cycle s -> state s = playing ->
  Forall (fun rnd => (0 <= rnd)%Q /\ (rnd < 1)%Q) draws ->
  exists s', after_advances draws s = Some s' /\ in_cycle s' /\ state s' = playing.
Proof.
intros Hquiet Hin Hplay Hdraws. revert s Hin Hplay.
induction Hdraws as [|rnd rest [Hlo Hhi] _ IH]; intros s Hin Hplay.
- exists s. split; [reflexivity|]. split; assumption.
- destruct (in_cycle_advance listeners Hquiet s rnd Hin Hplay Hlo Hhi)
    as (r & s1 & Hrun & Hown & Hin1 & Hplay1).
  cbn [after_advances]. rewrite Hrun.
  rewrite bool_decide_eq_true_2 by exact Hown.
  exact (IH s1 Hin1 Hplay1).
Qed.

End CycleRuns.

(** A Shuffle of two section sets that has just been started: [next]
    has put the automaton at the last set. *)
Definition started_shuffle : Shuffle Howl :=
set_section_set (VInt 1)
  (set_state playing (fresh_shuffle [[howl "a1"; howl "a2"]; [howl "b1"]] "loop")).

Lemma cycle_never_stalls_witness :
  exists s',
    after_advances no_listeners [0%Q; 1 # 2; 0%Q; 3 # 4] started_shuffle = Some s' /\
    in_cycle s' /\ state s' = playing.
Proof.
apply (cycle_never_stalls no_listeners [0%Q; 1 # 2; 0%Q; 3 # 4] started_shuffle).
- reflexivity.
- apply (in_cycle_start
           (set_state playing (fresh_shuffle [[howl "a1"; howl "a2"]; [howl "b1"]] "loop"))).
  + discriminate.
  + reflexivity.
  + repeat constructor; discriminate.
- reflexivity.
- repeat constructor; discriminate.
Defined.

(** Four calls in a row on that Shuffle: the sets are entered in turn,
    and the grid is reset at the return to the first set once the second
    set has no section left. *)
Example four_advances :
  (fun s => (section_set s, section s, section_states s))
    <$> after_advances no_listeners [0%Q; 1 # 2; 0%Q; 3 # 4] started_shuffle
  = Some (VInt 1, VInt 0, [[false; true]; [false]]).
Proof. vm_compute. reflexivity. Qed.

(** * SonicShuffle.js: the registry of handlers

    [on], [ion], [one], [off] and [trigger] on [this.callbacks], the
    object the constructor creates empty.  An [Action] is a name that
    [Object.prototype] does not define, as are the names the code uses,
    so that [this.callbacks[action]] is [undefined] until a method of the
    registry has stored an array under it.  The functions a client
    passes are named by a number; they are its own (no method hands out
    a wrapper of [one]) and they do not call the registry, so that the
    array [trigger] walks is not pushed to while it walks it. *)

Module EventBus.

Section Registry.

Context {Action : Type} `{EqDecision Action} {Args : Type}.

(** The function values stored in the registry: a function of the client,
    or the [wrapperfn] that a call of [one] created; [serial] tells the
    closures of different calls apart. *)
Inductive fnval : Type :=
| Client (id : nat)
| Wrapper (serial : nat) (action : Action) (fn : nat).

(** [elem === fn] on function values: identity. *)
Definition same_function (f g : fnval) : bool :=
  match f, g with
  | Client i, Client j => Nat.eqb i j
  | Wrapper s _ _, Wrapper s' _ _ => Nat.eqb s s'
  | _, _ => false
  end.

(** The Shuffle as the registry sees it: [callbacks], the number of
    closures made so far, and the calls the client's functions have
    received, oldest first. *)
Record Bus : Type := mkBus {
  callbacks : Action -> option (list fnval);
  closures : nat;
  calls : list (nat * Args)
}.

Definition set_callbacks (action : Action) (l : list fnval) (b : Bus) : Bus :=
  mkBus (fun a => if decide (a = action) then Some l else callbacks b a)
        (closures b) (calls b).

(** [this.callbacks[action] || []]. *)
Definition handlers (b : Bus) (action : Action) : list fnval :=
  SonicUtils.nvl (callbacks b action) [].

(** [on(action, fn)]. *)
Definition on (action : Action) (fn : fnval) (b : Bus) : Bus :=
  let b := set_callbacks action (handlers b action) b in
  set_callbacks action (handlers b action ++ [fn]) b.

(** [off(action, fn)]; [None] is a call without [fn]. *)
Definition off (action : Action) (fn : option fnval) (b : Bus) : Bus :=
  match callbacks b action with
  | None => b
  | Some l =>
      match fn with
      | Some f => set_callbacks action (List.filter (fun elem => negb (same_function elem f)) l) b
      | None => set_callbacks action [] b
      end
  end.

(** [ion(action, fn)]. *)
Definition ion (action : Action) (fn : fnval) (b : Bus) : Bus :=
  on action fn (off action None b).

(** [one(action, fn)]: [wrapperfn] is a new closure. *)
Definition one (action : Action) (fn : nat) (b : Bus) : Bus :=
  let wrapperfn := Wrapper (closures b) action fn in
  on action wrapperfn (mkBus (callbacks b) (S (closures b)) (calls b)).

(** [f.apply(this, args)]. *)
Definition apply (f : fnval) (args : Args) (b : Bus) : Bus :=
  match f with
  | Client id => mkBus (callbacks b) (closures b) (calls b ++ [(id, args)])
  | Wrapper _ action fn =>
      let b := mkBus (callbacks b) (closures b) (calls b ++ [(fn, args)]) in
      off action (Some (Client fn)) b
  end.

(** [trigger(action, args...)]. *)
Definition trigger (action : Action) (args : Args) (b : Bus) : Bus :=
  let cbs := handlers b action in
  fold_left (fun b f => apply f args b) cbs b.

(** The number of calls that the client's function [fn] has received. *)
Definition calls_of (fn : nat) (log : list (nat * Args)) : nat :=
  length (List.filter (fun c => Nat.eqb (fst c) fn) log).

End Registry.

Arguments fnval : clear implicits.
Arguments Bus : clear implicits.

End EventBus.

Section RegistryFacts.

Import EventBus.

Context {Action : Type} `{EqDecision Action} {Args : Type}.

Lemma handlers_set_same (action : Action) (l : list (fnval Action)) (b : Bus Action Args) :
  handlers (set_callbacks action l b) action = l.
Proof.
unfold handlers, set_callbacks. cbn [callbacks].
destruct (decide (action = action)); [reflexivity | congruence].
Qed.

Lemma handlers_set_other (action a : Action) (l : list (fnval Action)) (b : Bus Action Args) :
  a <> action -> handlers (set_callbacks action l b) a = handlers b a.
Proof.
intros Hne. unfold handlers, set_callbacks. cbn [callbacks].
destruct (decide (a = action)); [congruence | reflexivity].
Qed.

Lemma handlers_on (action a : Action) (fn : fnval Action) (b : Bus Action Args) :
  handlers (on action fn b) a
  = if decide (a = action) then handlers b action ++ [fn] else handlers b a.
Proof.
unfold on. destruct (decide (a = action)) as [->|Hne].
- now rewrite !handlers_set_same.
- now rewrite !handlers_set_other by exact Hne.
Qed.

Lemma handlers_off_all (action a : Action) (b : Bus Action Args) :
  handlers (off action None b) a = if decide (a = action) then [] else handlers b a.
Proof.
unfold off. destruct (callbacks b action) as [l|] eqn:Hl.
- destruct (decide (a = action)) as [->|Hne].
  + now rewrite handlers_set_same.
  + now rewrite handlers_set_other by exact Hne.
- destruct (decide (a = action)) as [->|Hne]; [|reflexivity].
  unfold handlers. now rewrite Hl.
Qed.

Lemma handlers_off_one (action a : Action) (f : fnval Action) (b : Bus Action Args) :
  handlers (off action (Some f) b) a
  = if decide (a = action)
    then List.filter (fun elem => negb (same_function elem f)) (handlers b action)
    else handlers b a.
Proof.
unfold off. destruct (callbacks b action) as [l|] eqn:Hl.
- destruct (decide (a = action)) as [->|Hne].
  + rewrite handlers_set_same. unfold handlers. now rewrite Hl.
  + now rewrite handlers_set_other by exact Hne.
- destruct (decide (a = action)) as [->|Hne]; [|reflexivity].
  unfold handlers. now rewrite Hl.
Qed.

Lemma calls_off (action : Action) (f : option (fnval Action)) (b : Bus Action Args) :
  calls (off action f b) = calls b.
Proof. unfold off. destruct (callbacks b action); [destruct f|]; reflexivity. Qed.

Lemma calls_of_app (fn : nat) (l1 l2 : list (nat * Args)) :
  calls_of fn (l1 ++ l2) = (calls_of fn l1 + calls_of fn l2)%nat.
Proof. unfold calls_of. now rewrite List.filter_app, length_app. Qed.

(** A call of a stored function never takes a wrapper off, and never
    takes a call back. *)
Lemma apply_keeps (f : fnval Action) (args : Args) (b : Bus Action Args)
    (serial : nat) (action a : Action) (fn : nat) :
  In (Wrapper serial action fn) (handlers b a) ->
  In (Wrapper serial action fn) (handlers (apply f args b) a).
Proof.
intros Hin. destruct f as [id|s act g]; cbn [apply]; [exact Hin|].
rewrite handlers_off_one. destruct (decide (a = act)) as [->|_]; [|exact Hin].
apply List.filter_In. split; [exact Hin | reflexivity].
Qed.

Lemma apply_calls (f : fnval Action) (args : Args) (b : Bus Action Args) (fn : nat) :
  (calls_of fn (calls b) <= calls_of fn (calls (apply f args b)))%nat.
Proof.
destruct f as [id|s act g]; cbn [apply]; rewrite ?calls_off; cbn [calls];
  rewrite calls_of_app; lia.
Qed.

Lemma apply_wrapper_calls (serial : nat) (action : Action) (args : Args) (b : Bus Action Args) (fn : nat) :
  calls_of fn (calls (apply (Wrapper serial action fn) args b))
  = S (calls_of fn (calls b)).
Proof.
cbn [apply]. rewrite calls_off. cbn [calls]. rewrite calls_of_app.
unfold calls_of. simpl. rewrite Nat.eqb_refl. simpl. lia.
Qed.

Lemma walk_keeps (cbs : list (fnval Action)) (args : Args) (b : Bus Action Args)
    (serial : nat) (action a : Action) (fn : nat) :
  In (Wrapper serial action fn) (handlers b a) ->
  In (Wrapper serial action fn)
     (handlers (fold_left (fun b f => apply f args b) cbs b) a).
Proof.
revert b. induction cbs as [|f cbs IH]; intros b Hin; [exact Hin|].
cbn [fold_left]. apply IH. now apply apply_keeps.
Qed.

Lemma walk_calls (cbs : list (fnval Action)) (args : Args) (b : Bus Action Args) (fn : nat) :
  (calls_of fn (calls b)
   <= calls_of fn (calls (fold_left (fun b f => apply f args b) cbs b)))%nat.
Proof.
revert b. induction cbs as [|f cbs IH]; intros b; [reflexivity|].
cbn [fold_left]. etransitivity; [apply (apply_calls f args b fn) | apply IH].
Qed.

Lemma walk_fires (cbs : list (fnval Action)) (args : Args) (b : Bus Action Args)
    (serial : nat) (action : Action) (fn : nat) :
  In (Wrapper serial action fn) cbs ->
  (S (calls_of fn (calls b))
   <= calls_of fn (calls (fold_left (fun b f => apply f args b) cbs b)))%nat.
Proof.
revert b. induction cbs as [|f cbs IH]; intros b Hin; [destruct Hin|].
cbn [fold_left]. destruct Hin as [->|Hin].
- rewrite <- apply_wrapper_calls with (serial := serial) (action := action) (args := args).
  apply walk_calls.
- etransitivity; [|apply IH; exact Hin].
  apply le_n_S, apply_calls.
Qed.

(** X21: [one(action, fn)] does not detach after the first firing: the
    wrapper it attaches takes [fn] off, not itself, so that it is still
    attached after any number of [trigger(action)], and [fn] has been
    called at each of them. *)
Theorem one_stays_attached (action : Action) (fn : nat) (args : Args) (b : Bus Action Args) (n : nat) :
  let wrapperfn := Wrapper (closures b) action fn in
  let b' := Nat.iter n (trigger action args) (one action fn b) in
  In wrapperfn (handlers b' action) /\
  (calls_of fn (calls b) + n <= calls_of fn (calls b'))%nat.
Proof.
intros wrapperfn. induction n as [|n [IHin IHcalls]]; cbn zeta.
- unfold Nat.iter. cbn [nat_rect].
  split; [|unfold one, on, set_callbacks; cbn [calls]; lia].
  unfold one. rewrite handlers_on. destruct (decide (action = action)); [|congruence].
  apply in_or_app. right. now left.
- change (Nat.iter (S n) (trigger action args) (one action fn b))
    with (trigger action args (Nat.iter n (trigger action args) (one action fn b))).
  set (bn := Nat.iter n (trigger action args) (one action fn b)) in *.
  unfold trigger. split.
  + now apply walk_keeps.
  + pose proof (walk_fires (handlers bn action) args bn _ _ _ IHin). lia.
Qed.

(** X22: [ion(action, fn)] leaves [fn] as the only handler of [action],
    whatever was attached, and the handlers of the other actions as they
    were; [off(action, fn)] after [on(action, fn)] takes off every
    registration of [fn] under [action], also the earlier ones, and
    nothing else. *)
Theorem ion_replaces_off_removes_all (action : Action) (fn : fnval Action) (b : Bus Action Args) :
  handlers (ion action fn b) action = [fn] /\
  handlers (ion action fn (ion action fn b)) action = [fn] /\
  (forall a, a <> action -> handlers (ion action fn b) a = handlers b a) /\
  handlers (off action (Some fn) (on action fn b)) action
  = List.filter (fun elem => negb (same_function elem fn)) (handlers b action) /\
  (forall a, a <> action ->
     handlers (off action (Some fn) (on action fn b)) a = handlers b a).
Proof.
assert (Hsame : same_function fn fn = true).
{ destruct fn; cbn; apply Nat.eqb_refl. }
assert (Hion : forall b0 : Bus Action Args, handlers (ion action fn b0) action = [fn]).
{ intros b0. unfold ion. rewrite handlers_on, handlers_off_all.
  destruct (decide (action = action)); [reflexivity | congruence]. }
split; [apply Hion|]. split; [apply Hion|]. split; [|split].
- intros a Hne. unfold ion. rewrite handlers_on.
  destruct (decide (a = action)); [congruence|].
  rewrite handlers_off_all. destruct (decide (a = action)); [congruence | reflexivity].
- rewrite handlers_off_one, handlers_on.
  destruct (decide (action = action)); [|congruence].
  rewrite List.filter_app.
  change (List.filter (fun elem => negb (same_function elem fn)) [fn])
    with (if negb (same_function fn fn) then [fn] else []).
  rewrite Hsame. cbn [negb]. now rewrite app_nil_r.
- intros a Hne. rewrite handlers_off_one.
  destruct (decide (a = action)); [congruence|].
  rewrite handlers_on. destruct (decide (a = action)); [congruence | reflexivity].
Qed.

End RegistryFacts.

(** * SonicShuffle.js: a fade from its start to its end

    [fade] on a piece that is not fading, followed by the firing of its
    timer after the duration, or by [cancelFade]. *)

Section FadeLifeCycle.
Context {Track : Type} `{TrackOps Track}.
Variable listeners : string -> event -> list (Shuffle Track -> Shuffle Track).
Variable rnd : nat -> Q.
Variable client : nat -> Shuffle Track -> Shuffle Track.
Variable default_easing : Q -> Q.

(** Without handlers, [volume(v)] returns with the gain at [v] clamped
    and the mute flag as it was. *)
Lemma volume_set_gain (l : event -> list (Shuffle Track -> Shuffle Track))
    (v : Q) (s : Shuffle Track) :
  (forall e, l e = []) ->
  exists s' tr,
    volume_set l v s = Ok tt s' tr /\
    gain s' = SonicUtils.clamp v 0%Q 1%Q /\ muted s' = muted s.
Proof.
intros Hquiet.
unfold volume_set, mute, trigger, forEachSection, bind, modify, get, tell.
rewrite !Hquiet. simpl.
destruct (muted s) eqn:Hm; simpl; rewrite ?Hquiet; simpl;
  eexists _, _; (split; [reflexivity|]); split; reflexivity || assumption || auto.
Qed.

Lemma on_shuffle_run {A} (who : string) (m : M (Shuffle Track) observation js_error A)
    (w : World Track) (p : Piece Track) (a : A) (s : Shuffle Track) (tr : list observation) :
  piece_of w who = Some p -> m (shuffle p) = Ok a s tr ->
  on_shuffle who m w = Ok a (put_piece who (mkPiece s (_fading p)) w) (map (Heard who) tr).
Proof.
intros Hp Hm. unfold on_shuffle, piece_of in *.
destruct (lib_lookup who (_library w)) as [[|q]|]; try discriminate.
injection Hp as ->. now rewrite Hm.
Qed.

Lemma lib_update_keys (who : string) (v : lib_entry Track)
    (lib : list (string * lib_entry Track)) :
  map fst (lib_update who v lib) = map fst lib.
Proof.
induction lib as [|[k v0] rest IH]; [reflexivity|]. cbn [lib_update].
destruct (String.eqb k who); cbn [map fst]; [reflexivity|]. now rewrite IH.
Qed.

(** The world after [fade] has started a timer on a piece without
    handlers that was not fading: the object of the piece, one more
    deferred object and one more timer; the rest is as before. *)
Lemma fade_world (fuel : nat) (w : World Track) (who : string) (pc : Piece Track)
    (args : fade_args) (to msec : Q) :
  (forall e, listeners who e = []) ->
  piece_of w who = Some pc -> lock_promise (_fading pc) = None ->
  fa_to args = Some to -> fa_msec args = Some msec ->
  nothing_to_do to msec (gain (shuffle pc)) = false ->
  let from := SonicUtils.nvl (fa_from args) (gain (shuffle pc)) in
  let normalizer := SonicUtils.nvl (fa_normalizer args) 1%Q in
  let priority := SonicUtils.nvl (fa_priority args) 0 in
  let easing := SonicUtils.nvl (fa_easing args) default_easing in
  let d := length (heap w) in
  let stepper := length (intervals w) in
  exists s1 tr1 lib1,
    volume_set (listeners who) (from * normalizer)%Q (shuffle pc) = Ok tt s1 tr1 /\
    fade listeners default_easing (interp listeners rnd client default_easing (S fuel))
      who args w
    = Ok d
        (set_heap (heap w ++ [mkDeferred Pending
                                [FadeFinalVolume who (Some to) normalizer; FadeRelease who;
                                 FadeClearInterval stepper]
                                [FadeRelease who; FadeClearInterval stepper] 0])
           (set_intervals
              (intervals w ++ [Some (mkStepper who from (Some (to - from)%Q) (Some msec) (clock w) d
                                       normalizer easing)])
              (set_library lib1 w)))
        (map (Heard who) tr1) /\
    lib_lookup who lib1 = Some (Loaded (mkPiece s1 (mkLock (Some d) (Some priority)))) /\
    (forall key, key <> who -> lib_lookup key lib1 = lib_lookup key (_library w)) /\
    map fst lib1 = map fst (_library w).
Proof.
intros Hquiet Hpc Hfree Hto Hmsec Hwork from normalizer priority easing d stepper.
unfold fade.
rewrite (bind_Ok_silent _ _ w pc w) by now apply the_piece_ok.
rewrite Hto, Hmsec. cbn [wlift SonicUtils.assertDefined SonicUtils.field].
rewrite (bind_Ok_silent _ _ w (SonicUtils.Given to) w) by reflexivity.
rewrite (bind_Ok_silent _ _ w (SonicUtils.Given msec) w) by reflexivity.
cbn [SonicUtils.number_of].
fold from normalizer priority easing.
(* the priority is recorded *)
set (pc0 := mkPiece (shuffle pc) (mkLock (lock_promise (_fading pc)) (Some priority))).
set (w0 := put_piece who pc0 w).
assert (Harb : fade_arbitrate (interp listeners rnd client default_easing (S fuel))
                 who priority w = Ok None w0 []).
{ unfold fade_arbitrate.
  rewrite (bind_Ok_silent _ _ w pc w) by now apply the_piece_ok.
  rewrite Hfree.
  rewrite (bind_Ok_silent _ _ w None w) by reflexivity.
  rewrite (bind_Ok_silent _ _ w tt w0); [reflexivity|].
  exact (modify_lock_ok w who pc _ Hpc). }
rewrite (bind_Ok_silent _ _ w None w0 Harb).
assert (Hpc0 : piece_of w0 who = Some pc0).
{ eapply piece_of_put_same. exact Hpc. }
(* the deferred object and its first two functions *)
unfold fade_start.
rewrite (bind_Ok_silent _ _ w0 _ _ (jq_Deferred_run w0)).
rewrite (bind_Ok_silent _ _ _ tt
           (set_heap (heap w0 ++ [mkDeferred Pending
                        [FadeFinalVolume who (Some to) normalizer] [] 0]) w0)).
2:{ now rewrite dfd_done_last. }
rewrite (bind_Ok_silent _ _ _ tt
           (set_heap (heap w0 ++ [mkDeferred Pending
                        [FadeFinalVolume who (Some to) normalizer; FadeRelease who]
                        [FadeRelease who] 0]) w0)).
2:{ now rewrite dfd_always_last. }
set (w3 := set_heap _ w0).
assert (Hpc3 : piece_of w3 who = Some pc0) by exact Hpc0.
rewrite (bind_Ok_silent _ _ w3 pc0 w3 (the_piece_ok _ _ _ Hpc3)).
change (fade_is_over (Some to) (Some msec) (gain (shuffle pc0)))
  with (nothing_to_do to msec (gain (shuffle pc))).
rewrite Hwork. cbn [option_map].
(* the first volume, the timer, the lock *)
destruct (volume_set_gain (listeners who) (from * normalizer)%Q (shuffle pc) Hquiet)
  as (s1 & tr1 & Hvol & Hgain & Hmuted).
rewrite (bind_Ok _ _ w3 tt _ _ (on_shuffle_run who _ w3 pc0 tt s1 tr1 Hpc3 Hvol)).
set (w4 := put_piece who _ w3).
rewrite (bind_Ok_silent _ _ w4 w4 w4) by reflexivity.
unfold setInterval.
rewrite (bind_Ok_silent _ _ w4 (length (intervals w4))
           (set_intervals (intervals w4 ++
              [Some (mkStepper who from (Some (to - from)%Q) (Some msec) (clock w4) (length (heap w0))
                       normalizer easing)]) w4)) by reflexivity.
set (w5 := set_intervals _ w4).
assert (Hpc5 : piece_of w5 who = Some (mkPiece s1 (_fading pc0))).
{ apply (piece_of_put_same w3 who pc0). exact Hpc3. }
rewrite (bind_Ok_silent _ _ w5 tt _ (modify_lock_ok w5 who _ _ Hpc5)).
set (w6 := put_piece who _ w5).
assert (Hheap6 : heap w6 !! length (heap w0)
          = Some (mkDeferred Pending
                    [FadeFinalVolume who (Some to) normalizer; FadeRelease who]
                    [FadeRelease who] 0)).
{ simpl. rewrite lookup_app_r by lia. now rewrite Nat.sub_diag. }
set (w7 := set_heap (heap w ++ [mkDeferred Pending
                    [FadeFinalVolume who (Some to) normalizer; FadeRelease who;
                     FadeClearInterval stepper]
                    [FadeRelease who; FadeClearInterval stepper] 0]) w6).
assert (Halways :
  dfd_always (interp listeners rnd client default_easing (S fuel))
    (length (heap w0)) (FadeClearInterval (length (intervals w4))) w6
  = Ok tt w7 []).
{ unfold dfd_always.
  rewrite (bind_Ok_silent _ _ w6 tt _ (dfd_done_pending _ w6 _ _ _ Hheap6 eq_refl)).
  set (w6' := set_heap _ w6).
  assert (Hheap6' : heap w6' !! length (heap w0)
            = Some (mkDeferred Pending
                      ([FadeFinalVolume who (Some to) normalizer; FadeRelease who]
                       ++ [FadeClearInterval (length (intervals w4))])
                      [FadeRelease who] 0)).
  { unfold w6'. simpl. rewrite list_lookup_insert_eq; [reflexivity|].
    rewrite length_app. simpl. lia. }
  rewrite (dfd_fail_pending _ w6' _ _ _ Hheap6' eq_refl).
  unfold w7, w6'. cbn [heap set_heap done_list fail_list remaining app].
  change (heap w6) with (heap w ++ [mkDeferred Pending
                    [FadeFinalVolume who (Some to) normalizer; FadeRelease who]
                    [FadeRelease who] 0]).
  change (length (heap w0)) with (length (heap w)).
  rewrite !insert_fresh. reflexivity. }
rewrite (bind_Ok_silent _ _ w6 tt w7 Halways).
cbn [ret app]. rewrite app_nil_r.
exists s1, tr1, (_library w7). split; [exact Hvol|]. split; [reflexivity|].
assert (Hlib : lib_lookup who (_library w) = Some (Loaded pc)).
{ unfold piece_of in Hpc. destruct (lib_lookup who (_library w)) as [[|q]|]; try discriminate.
  now injection Hpc as ->. }
split; [|split].
- assert (Hp7 : piece_of w7 who = Some (mkPiece s1 (mkLock (Some d) (Some priority)))).
  { change (piece_of w7 who) with (piece_of w6 who).
    unfold w6. erewrite piece_of_put_same by exact Hpc5. reflexivity. }
  unfold piece_of in Hp7.
  destruct (lib_lookup who (_library w7)) as [[|q]|]; try discriminate.
  now injection Hp7 as ->.
- intros key Hkey. unfold w7, w6, w5, w4, w3, w0, put_piece.
  cbn [_library set_library set_heap set_intervals].
  rewrite !lib_lookup_update.
  destruct (lib_lookup key (_library w)) as [old|]; [|reflexivity].
  destruct (String.eqb_spec key who); [congruence | reflexivity].
- unfold w7, w6, w5, w4, w3, w0, put_piece.
  cbn [_library set_library set_heap set_intervals].
  now rewrite !lib_update_keys.
Qed.

Lemma fade_begins (fuel : nat) (w : World Track) (who : string) (pc : Piece Track)
    (args : fade_args) (to msec : Q) :
  (forall e, listeners who e = []) ->
  piece_of w who = Some pc -> lock_promise (_fading pc) = None ->
  fa_to args = Some to -> fa_msec args = Some msec ->
  nothing_to_do to msec (gain (shuffle pc)) = false ->
  let from := SonicUtils.nvl (fa_from args) (gain (shuffle pc)) in
  let normalizer := SonicUtils.nvl (fa_normalizer args) 1%Q in
  let priority := SonicUtils.nvl (fa_priority args) 0 in
  let easing := SonicUtils.nvl (fa_easing args) default_easing in
  let d := length (heap w) in
  let stepper := length (intervals w) in
  exists w1 tr1 s1,
    fade listeners default_easing (interp listeners rnd client default_easing (S fuel))
      who args w = Ok d w1 tr1 /\
    piece_of w1 who = Some (mkPiece s1 (mkLock (Some d) (Some priority))) /\
    gain s1 = SonicUtils.clamp (from * normalizer)%Q 0%Q 1%Q /\
    muted s1 = muted (shuffle pc) /\
    heap w1 = heap w ++ [mkDeferred Pending
                           [FadeFinalVolume who (Some to) normalizer; FadeRelease who;
                            FadeClearInterval stepper]
                           [FadeRelease who; FadeClearInterval stepper] 0] /\
    intervals w1 = intervals w ++ [Some (mkStepper who from (Some (to - from)%Q) (Some msec) (clock w) d
                                           normalizer easing)].
Proof.
intros Hquiet Hpc Hfree Hto Hmsec Hwork from normalizer priority easing d stepper.
destruct (fade_world fuel w who pc args to msec Hquiet Hpc Hfree Hto Hmsec Hwork)
  as (s1 & tr1 & lib1 & Hvol & Hfade & Hlib & _ & _).
destruct (volume_set_gain (listeners who) (from * normalizer)%Q (shuffle pc) Hquiet)
  as (s1' & tr1' & Hvol' & Hgain & Hmuted).
fold from normalizer in Hvol. rewrite Hvol in Hvol'. injection Hvol' as <- <-.
eexists _, _, s1. split; [exact Hfade|].
split; [|split; [exact Hgain|split; [exact Hmuted|split; reflexivity]]].
unfold piece_of. cbn [_library set_heap set_intervals set_library]. now rewrite Hlib.
Qed.

(** The functions that [fade] attached run on the rejection of its
    deferred object: the piece keeps its Shuffle, the lock is emptied and
    the timer is cleared. *)
Lemma rejected_fade (fuel : nat) (w : World Track) (who : string) (pc : Piece Track)
    (d : nat) (dl : list closure) (stepper r : nat) :
  piece_of w who = Some pc ->
  heap w !! d = Some (mkDeferred Pending dl [FadeRelease who; FadeClearInterval stepper] r) ->
  exists w1,
    dfd_reject (interp listeners rnd client default_easing (S fuel)) d w = Ok tt w1 [] /\
    piece_of w1 who = Some (mkPiece (shuffle pc) no_lock) /\
    status_of w1 d = Some Rejected /\
    intervals w1 = <[stepper := None]> (intervals w).
Proof.
intros Hpc Hd. unfold dfd_reject.
rewrite (settle_pending _ w Rejected d _ Hd eq_refl).
cbn [fail_list remaining run_each].
set (w0 := set_heap _ w).
assert (Hpc0 : piece_of w0 who = Some pc) by exact Hpc.
assert (Hfr : interp listeners rnd client default_easing (S fuel) (FadeRelease who) w0
              = Ok tt (put_piece who (mkPiece (shuffle pc) no_lock) w0) []).
{ unfold interp. cbn [Music.run_closure Music.run_closure_body].
  exact (modify_lock_ok w0 who _ (fun _ => no_lock) Hpc0). }
rewrite (bind_Ok_silent _ _ w0 tt _ Hfr).
set (w1 := put_piece who _ w0).
assert (Hci : interp listeners rnd client default_easing (S fuel)
                (FadeClearInterval stepper) w1
              = Ok tt (set_intervals (<[stepper := None]> (intervals w1)) w1) []).
{ reflexivity. }
rewrite (bind_Ok_silent _ _ w1 tt _ Hci).
eexists. split; [reflexivity|]. split; [|split].
- change (piece_of (set_intervals (<[stepper:=None]> (intervals w1)) w1) who)
    with (piece_of w1 who).
  unfold w1. erewrite piece_of_put_same by exact Hpc0. reflexivity.
- unfold status_of. simpl.
  rewrite list_lookup_insert_eq by (eapply lookup_lt_Some; eauto). reflexivity.
- reflexivity.
Qed.

(** The functions that [fade] attached run on the resolution of its
    deferred object, on a piece without handlers: the gain goes to the
    target, or to 0 on a muted piece, the lock is emptied and the timer is
    cleared. *)
Lemma resolved_fade (fuel : nat) (w : World Track) (who : string) (pc : Piece Track)
    (d : nat) (to normalizer : Q) (fl : list closure) (stepper r : nat) :
  (forall e, listeners who e = []) ->
  piece_of w who = Some pc ->
  heap w !! d = Some (mkDeferred Pending
                        [FadeFinalVolume who (Some to) normalizer; FadeRelease who;
                         FadeClearInterval stepper] fl r) ->
  exists w1 tr s1,
    dfd_resolve (interp listeners rnd client default_easing (S fuel)) d w = Ok tt w1 tr /\
    piece_of w1 who = Some (mkPiece s1 no_lock) /\
    gain s1 = SonicUtils.clamp (if muted (shuffle pc) then 0 else to * normalizer)%Q 0%Q 1%Q /\
    muted s1 = muted (shuffle pc) /\
    status_of w1 d = Some Resolved /\
    intervals w1 = <[stepper := None]> (intervals w) /\
    clock w1 = clock w.
Proof.
intros Hquiet Hpc Hd. unfold dfd_resolve.
rewrite (settle_pending _ w Resolved d _ Hd eq_refl).
cbn [done_list remaining run_each].
set (w0 := set_heap _ w).
assert (Hpc0 : piece_of w0 who = Some pc) by exact Hpc.
destruct (volume_set_gain (listeners who)
            (if muted (shuffle pc) then 0 else to * normalizer)%Q (shuffle pc) Hquiet)
  as (s1 & tr1 & Hvol & Hgain & Hmuted).
assert (Hffv : interp listeners rnd client default_easing (S fuel)
                 (FadeFinalVolume who (Some to) normalizer) w0
               = Ok tt (put_piece who (mkPiece s1 (_fading pc)) w0) (map (Heard who) tr1)).
{ unfold interp. cbn [Music.run_closure Music.run_closure_body option_map].
  rewrite (bind_Ok_silent _ _ w0 _ w0 (mutevol_ok _ _ _ _ Hpc0)).
  rewrite fade_volume_number.
  exact (on_shuffle_run who _ w0 pc tt s1 tr1 Hpc0 Hvol). }
rewrite (bind_Ok _ _ w0 tt _ _ Hffv).
set (w1 := put_piece who _ w0).
assert (Hpc1 : piece_of w1 who = Some (mkPiece s1 (_fading pc))).
{ eapply piece_of_put_same. exact Hpc0. }
assert (Hfr : interp listeners rnd client default_easing (S fuel) (FadeRelease who) w1
              = Ok tt (put_piece who (mkPiece s1 no_lock) w1) []).
{ unfold interp. cbn [Music.run_closure Music.run_closure_body].
  exact (modify_lock_ok w1 who _ (fun _ => no_lock) Hpc1). }
rewrite (bind_Ok_silent _ _ w1 tt _ Hfr).
set (w2 := put_piece who _ w1).
assert (Hci : interp listeners rnd client default_easing (S fuel)
                (FadeClearInterval stepper) w2
              = Ok tt (set_intervals (<[stepper := None]> (intervals w2)) w2) []).
{ reflexivity. }
rewrite (bind_Ok_silent _ _ w2 tt _ Hci).
cbn [ret].
eexists _, _, s1. split; [reflexivity|].
split; [|split; [exact Hgain|split; [exact Hmuted|split; [|split; reflexivity]]]].
- change (piece_of (set_intervals (<[stepper:=None]> (intervals w2)) w2) who)
    with (piece_of w2 who).
  unfold w2. erewrite piece_of_put_same by exact Hpc1. reflexivity.
- unfold status_of. simpl.
  rewrite list_lookup_insert_eq by (eapply lookup_lt_Some; eauto). reflexivity.
Qed.

(** X23: A fade that runs its time, on a piece without handlers that was not
    fading: [fade] returns a pending deferred object and holds the lock
    with its priority; when the timer fires after the duration, the
    deferred object is resolved, the gain is the target times the
    normalizer, clamped (0 on a muted piece), the lock is empty and the
    timer is cleared. *)
Theorem fade_runs_to_its_end (fuel : nat) (w : World Track) (who : string)
    (pc : Piece Track) (args : fade_args) (to msec now : Q) :
  (forall e, listeners who e = []) ->
  piece_of w who = Some pc -> lock_promise (_fading pc) = None ->
  fa_to args = Some to -> fa_msec args = Some msec ->
  nothing_to_do to msec (gain (shuffle pc)) = false ->
  Qle_bool 1 ((now - clock w) / msec) = true ->
  let run := interp listeners rnd client default_easing (S fuel) in
  let normalizer := SonicUtils.nvl (fa_normalizer args) 1%Q in
  let priority := SonicUtils.nvl (fa_priority args) 0 in
  let d := length (heap w) in
  let stepper := length (intervals w) in
  exists w1 tr1 w2 tr2 s2,
    fade listeners default_easing run who args w = Ok d w1 tr1 /\
    status_of w1 d = Some Pending /\
    lock_of w1 who = Some (mkLock (Some d) (Some priority)) /\
    tick listeners run stepper now w1 = Ok tt w2 tr2 /\
    status_of w2 d = Some Resolved /\
    piece_of w2 who = Some (mkPiece s2 no_lock) /\
    gain s2 = SonicUtils.clamp (if muted (shuffle pc) then 0 else to * normalizer)%Q 0%Q 1%Q /\
    intervals w2 !! stepper = Some None.
Proof.
intros Hquiet Hpc Hfree Hto Hmsec Hwork Hlate run normalizer priority d stepper.
destruct (fade_begins fuel w who pc args to msec Hquiet Hpc Hfree Hto Hmsec Hwork)
  as (w1 & tr1 & s1 & Hfade & Hpc1 & Hgain1 & Hmuted1 & Hheap1 & Hint1).
fold normalizer priority d stepper in Hfade, Hpc1, Hheap1, Hint1.
assert (Hd1 : heap w1 !! d = Some (mkDeferred Pending
                [FadeFinalVolume who (Some to) normalizer; FadeRelease who;
                 FadeClearInterval stepper]
                [FadeRelease who; FadeClearInterval stepper] 0)).
{ rewrite Hheap1. rewrite lookup_app_r by (unfold d; lia).
  unfold d. now rewrite Nat.sub_diag. }
assert (Hst1 : intervals w1 !! stepper
               = Some (Some (mkStepper who (SonicUtils.nvl (fa_from args) (gain (shuffle pc)))
                               (Some (to - SonicUtils.nvl (fa_from args) (gain (shuffle pc)))%Q)
                               (Some msec) (clock w) d normalizer
                               (SonicUtils.nvl (fa_easing args) default_easing)))).
{ rewrite Hint1. rewrite lookup_app_r by (unfold stepper; lia).
  unfold stepper. now rewrite Nat.sub_diag. }
destruct (resolved_fade fuel (set_clock now w1) who _ d to normalizer _ stepper 0
            Hquiet Hpc1 Hd1)
  as (w2 & tr2 & s2 & Hres & Hpc2 & Hgain2 & _ & Hst2 & Hint2 & _).
exists w1, tr1, w2, tr2, s2.
split; [exact Hfade|]. split; [|split; [|split; [|split; [exact Hst2|split; [exact Hpc2|split]]]]].
- unfold status_of. now rewrite Hd1.
- unfold lock_of. now rewrite Hpc1.
- rewrite tick_unfold, Hst1. cbn [st_start st_msec st_promise]. rewrite Hlate. exact Hres.
- rewrite Hgain2. cbn [shuffle]. now rewrite Hmuted1.
- rewrite Hint2. apply list_lookup_insert_eq.
  change (intervals (set_clock now w1)) with (intervals w1).
  eapply lookup_lt_Some. exact Hst1.
Qed.

(** X24: A fade that is cancelled, on a piece without handlers that was not
    fading, for a request that gives [from], [to] and [msec]:
    [cancelFade] with the priority of the fade or a higher one rejects
    the deferred object, empties the lock and clears the timer.  The
    gain stays at [from] times the normalizer, clamped, where the fade
    had put it when it started (it does not go to the target), and a
    later firing of the timer only reads the clock. *)
Theorem cancelled_fade_stays (fuel : nat) (w : World Track) (who : string)
    (pc : Piece Track) (args : fade_args) (from to msec now : Q) (q : Z) :
  (forall e, listeners who e = []) ->
  piece_of w who = Some pc -> lock_promise (_fading pc) = None ->
  fa_from args = Some from ->
  fa_to args = Some to -> fa_msec args = Some msec ->
  nothing_to_do to msec (gain (shuffle pc)) = false ->
  SonicUtils.nvl (fa_priority args) 0 <= q ->
  let run := interp listeners rnd client default_easing (S fuel) in
  let normalizer := SonicUtils.nvl (fa_normalizer args) 1%Q in
  let d := length (heap w) in
  let stepper := length (intervals w) in
  exists w1 tr1 w2 s1,
    fade listeners default_easing run who args w = Ok d w1 tr1 /\
    cancelFade run who (Some q) w1 = Ok tt w2 [] /\
    status_of w2 d = Some Rejected /\
    piece_of w2 who = Some (mkPiece s1 no_lock) /\
    gain s1 = SonicUtils.clamp (from * normalizer)%Q 0%Q 1%Q /\
    intervals w2 !! stepper = Some None /\
    tick listeners run stepper now w2 = Ok tt (set_clock now w2) [].
Proof.
intros Hquiet Hpc Hfree Hfrom Hto Hmsec Hwork Hprio run normalizer d stepper.
destruct (fade_begins fuel w who pc args to msec Hquiet Hpc Hfree Hto Hmsec Hwork)
  as (w1 & tr1 & s1 & Hfade & Hpc1 & Hgain1 & Hmuted1 & Hheap1 & Hint1).
rewrite Hfrom in Hgain1, Hint1. cbn [SonicUtils.nvl] in Hgain1, Hint1.
fold normalizer d stepper in Hfade, Hpc1, Hgain1, Hheap1, Hint1.
assert (Hd1 : heap w1 !! d = Some (mkDeferred Pending
                [FadeFinalVolume who (Some to) normalizer; FadeRelease who;
                 FadeClearInterval stepper]
                [FadeRelease who; FadeClearInterval stepper] 0)).
{ rewrite Hheap1. rewrite lookup_app_r by (unfold d; lia).
  unfold d. now rewrite Nat.sub_diag. }
assert (Hlen : (stepper < length (intervals w1))%nat).
{ rewrite Hint1, length_app. unfold stepper. simpl. lia. }
assert (Hflight : in_flight w1 who d (SonicUtils.nvl (fa_priority args) 0)).
{ eexists. split; [exact Hpc1|]. split; [reflexivity|].
  unfold status_of. now rewrite Hd1. }
destruct (rejected_fade fuel w1 who _ d _ stepper 0 Hpc1 Hd1)
  as (w2 & Hrej & Hpc2 & Hst2 & Hint2).
exists w1, tr1, w2, s1.
split; [exact Hfade|]. split; [|split; [exact Hst2|split; [exact Hpc2|split; [exact Hgain1|]]]].
- rewrite (cancelFade_rejects run w1 who d _ q Hflight Hprio). exact Hrej.
- assert (Hcleared : intervals w2 !! stepper = Some None).
  { rewrite Hint2. now apply list_lookup_insert_eq. }
  split; [exact Hcleared|].
  rewrite tick_unfold. now rewrite Hcleared.
Qed.

End FadeLifeCycle.

(** *** Examples for the fades *)

(** [{from: from, to: 0, msec: 2500, priority: priority}]. *)
Definition request_from (from : Q) (priority : Z) : fade_args :=
mkFadeArgs (Some from) (Some 0%Q) (Some 2500%Q) (Some priority) None None.

Lemma fade_runs_to_its_end_witness :
  exists w1 tr1 w2 tr2 s2,
    fade quiet (fun t => t) (run_quiet 3) "x" (request 2) studio = Ok 0%nat w1 tr1 /\
    status_of w1 0 = Some Pending /\
    lock_of w1 "x" = Some (mkLock (Some 0%nat) (Some 2)) /\
    tick quiet (run_quiet 3) 0 2500 w1 = Ok tt w2 tr2 /\
    status_of w2 0 = Some Resolved /\
    piece_of w2 "x" = Some (mkPiece s2 no_lock) /\
    gain s2 = SonicUtils.clamp (if muted piece_x then 0 else 0 * 1)%Q 0%Q 1%Q /\
    intervals w2 !! 0%nat = Some None.
Proof.
apply (fade_runs_to_its_end quiet (fun _ => 0%Q) (fun _ s => s) (fun t => t)
         2 studio "x" (mkPiece piece_x no_lock) (request 2) 0 2500 2500).
- intros e. reflexivity.
- reflexivity.
- reflexivity.
- reflexivity.
- reflexivity.
- vm_compute. reflexivity.
- vm_compute. reflexivity.
Defined.

Lemma cancelled_fade_stays_witness :
  exists w1 tr1 w2 s1,
    fade quiet (fun t => t) (run_quiet 3) "x" (request_from 1 2) studio = Ok 0%nat w1 tr1 /\
    cancelFade (run_quiet 3) "x" (Some 2) w1 = Ok tt w2 [] /\
    status_of w2 0 = Some Rejected /\
    piece_of w2 "x" = Some (mkPiece s1 no_lock) /\
    gain s1 = SonicUtils.clamp (1 * 1)%Q 0%Q 1%Q /\
    intervals w2 !! 0%nat = Some None /\
    tick quiet (run_quiet 3) 0 3000 w2 = Ok tt (set_clock 3000 w2) [].
Proof.
apply (cancelled_fade_stays quiet (fun _ => 0%Q) (fun _ s => s) (fun t => t)
         2 studio "x" (mkPiece piece_x no_lock) (request_from 1 2) 1 0 2500 3000 2).
- intros e. reflexivity.
- reflexivity.
- reflexivity.
- reflexivity.
- reflexivity.
- reflexivity.
- vm_compute. reflexivity.
- vm_compute. discriminate.
Defined.

(** The fade of [x] to silence in 2500 ms: half way the gain is a half,
    at the end it is 0 with the lock empty; cancelled at the start, the
    gain is still 1. *)
Example fade_of_x :
  let started := final_state (fade_quiet "x" (request 2) studio) in
  let gain_of w := (fun p => Qred (gain (shuffle p))) <$> piece_of w "x" in
  gain_of (final_state (tick quiet (run_quiet 3) 0 1250 started)) = Some (1 # 2) /\
  gain_of (final_state (tick quiet (run_quiet 3) 0 2500 started)) = Some 0%Q /\
  lock_of (final_state (tick quiet (run_quiet 3) 0 2500 started)) "x" = Some no_lock /\
  gain_of (final_state (cancelFade (run_quiet 3) "x" (Some 2) started)) = Some 1%Q.
Proof. vm_compute. repeat split. Qed.

(** * Music.js: the library and the master volume *)

Module MusicVolume.
Section Session.
Context {Track : Type} `{TrackOps Track}.
Variable listeners : string -> event -> list (Shuffle Track -> Shuffle Track).

Definition set_volume (v : Q) (w : World Track) : World Track :=
  mkWorld (_library w) (_nowplaying_piece w) (_nowplaying_audio w) v (_state w)
    (_mute w) (_stopping_promise w) (heap w) (intervals w) (clock w) (plays w).

(** The loop of [Music.volume] over [Object.keys(_library)]: the entries
    that are objects get [volume(_volume)], the thunks are passed over. *)
Fixpoint volume_each (keys : list string) : WM Track unit :=
  match keys with
  | [] => ret tt
  | piece :: rest =>
      let! w := get in
      do! match lib_lookup piece (_library w) with
          | Some (Loaded _) => on_shuffle piece (volume_set (listeners piece) (_volume w))
          | _ => ret tt
          end in
      volume_each rest
  end.

(** [Music.volume(vol)]; [None] is a call without argument. *)
Definition volume (vol : option Q) : WM Track Q :=
  match vol with
  | None => let! w := get in ret (_volume w)
  | Some vol =>
      do! modify (set_volume (SonicUtils.clamp vol 0%Q 1%Q)) in
      let! w := get in
      do! volume_each (map fst (_library w)) in
      let! w := get in
      ret (_volume w)
  end.

End Session.
End MusicVolume.

Section MusicLibrary.
Context {Track : Type} `{TrackOps Track}.
Variable listeners : string -> event -> list (Shuffle Track -> Shuffle Track).

Lemma mute_run (l : event -> list (Shuffle Track -> Shuffle Track)) (s : Shuffle Track) :
  (forall e, l e = []) ->
  mute l s = Ok tt (each_track howl_mute (set_muted true s)) [Triggered (EvMute true)].
Proof.
intros Hquiet. unfold mute.
rewrite (bind_Ok_silent _ _ s tt (set_muted true s)) by reflexivity.
rewrite (bind_Ok_silent _ _ _ tt (each_track howl_mute (set_muted true s))) by reflexivity.
rewrite trigger_run. unfold heard. now rewrite Hquiet.
Qed.

Lemma mute_returns (l : event -> list (Shuffle Track -> Shuffle Track)) (s : Shuffle Track) :
  exists s' tr, mute l s = Ok tt s' tr.
Proof. unfold mute, bind, modify, forEachSection, trigger, tell. simpl. eauto. Qed.

(** X25: [Music.load(piece)], for a name that [Object.prototype] does
    not define, builds the object of a lazy piece once: the first
    call returns whether the library lists the piece, a second call
    returns the same, changes nothing and triggers nothing.  A piece that
    was lazy is an object afterwards, without fade; when it has no
    handlers its gain is the master volume, clamped, and it is muted when
    the music is. *)
Theorem load_builds_once (piece : string) (w : World Track) :
  inherited piece = false ->
  exists b w' tr,
    Music.load listeners piece w = Ok b w' tr /\
    Music.load listeners piece w' = Ok b w' [] /\
    b = bool_decide (is_Some (lib_lookup piece (_library w))) /\
    (forall p, piece_of w piece = Some p -> w' = w) /\
    (forall fresh, lib_lookup piece (_library w) = Some (Thunk fresh) ->
       exists s, piece_of w' piece = Some (mkPiece s no_lock) /\
         ((forall e, listeners piece e = []) ->
          gain s = SonicUtils.clamp (_volume w) 0%Q 1%Q /\
          muted s = _mute w || muted fresh)).
Proof.
intros Hplain.
unfold Music.load at 1.
rewrite (bind_Ok_silent _ _ w w w) by reflexivity.
destruct (lib_lookup piece (_library w)) as [[fresh|p]|] eqn:Hlib.
- set (w1 := set_library (lib_update piece (Loaded (mkPiece fresh no_lock)) (_library w)) w).
  rewrite (bind_Ok_silent _ _ w tt w1) by reflexivity.
  assert (Hp1 : piece_of w1 piece = Some (mkPiece fresh no_lock)).
  { unfold piece_of, w1. cbn [_library set_library].
    rewrite lib_lookup_update, Hlib. now rewrite String.eqb_refl. }
  destruct (volume_set_returns (listeners piece) (_volume w) fresh) as (s1 & tr1 & Hv).
  rewrite (bind_Ok _ _ w1 tt _ _ (on_shuffle_run piece _ w1 _ tt s1 tr1 Hp1 Hv)).
  set (w2 := put_piece piece _ w1).
  assert (Hp2 : piece_of w2 piece = Some (mkPiece s1 no_lock)).
  { eapply piece_of_put_same. exact Hp1. }
  assert (Hmute : exists w3 tr3 s3,
            only_if (_mute w) (on_shuffle piece (mute (listeners piece))) w2 = Ok tt w3 tr3 /\
            piece_of w3 piece = Some (mkPiece s3 no_lock) /\
            ((forall e, listeners piece e = []) ->
             gain s3 = gain s1 /\ muted s3 = _mute w || muted s1)).
  { destruct (_mute w); cbn [only_if].
    - destruct (mute_returns (listeners piece) s1) as (s3 & tr3 & Hm).
      rewrite (on_shuffle_run piece _ w2 _ tt s3 tr3 Hp2 Hm).
      eexists _, _, s3. split; [reflexivity|]. split.
      + eapply piece_of_put_same. exact Hp2.
      + intros Hquiet. rewrite (mute_run _ s1 Hquiet) in Hm.
        injection Hm as <- _. split; reflexivity.
    - exists w2, [], s1. split; [reflexivity|]. split; [exact Hp2|].
      intros _. split; reflexivity. }
  destruct Hmute as (w3 & tr3 & s3 & Hm & Hp3 & Hfacts).
  rewrite (bind_Ok _ _ w2 tt w3 tr3 Hm). cbn [ret].
  eexists true, w3, _. split; [reflexivity|]. split; [|split; [|split]].
  + unfold Music.load. rewrite (bind_Ok_silent _ _ w3 w3 w3) by reflexivity.
    unfold piece_of in Hp3.
    destruct (lib_lookup piece (_library w3)) as [[|q]|]; try discriminate. reflexivity.
  + symmetry. apply bool_decide_eq_true. eauto.
  + intros p0 Hp0. unfold piece_of in Hp0. rewrite Hlib in Hp0. discriminate.
  + intros fresh0 [= <-]. exists s3. split; [exact Hp3|].
    intros Hquiet. destruct (Hfacts Hquiet) as [Hg Hmu].
    destruct (volume_set_gain (listeners piece) (_volume w) fresh Hquiet)
      as (s1' & tr1' & Hv' & Hg1 & Hm1).
    rewrite Hv in Hv'. injection Hv' as <- _.
    rewrite Hg, Hmu, Hg1, Hm1. split; reflexivity.
- exists true, w, []. split; [reflexivity|]. split; [|split; [|split]].
  + unfold Music.load. rewrite (bind_Ok_silent _ _ w w w) by reflexivity.
    now rewrite Hlib.
  + symmetry. apply bool_decide_eq_true. eauto.
  + reflexivity.
  + intros fresh [=].
- rewrite Hplain.
  exists false, w, []. split; [reflexivity|]. split; [|split; [|split]].
  + unfold Music.load. rewrite (bind_Ok_silent _ _ w w w) by reflexivity.
    now rewrite Hlib, Hplain.
  + symmetry. apply bool_decide_eq_false. intros [x Hx]. discriminate.
  + intros p0 Hp0. unfold piece_of in Hp0. rewrite Hlib in Hp0. discriminate.
  + intros fresh [=].
Qed.

Lemma volume_set_keeps (l : event -> list (Shuffle Track -> Shuffle Track))
    (v : Q) (s : Shuffle Track) :
  (forall e, l e = []) ->
  exists s' tr,
    volume_set l v s = Ok tt s' tr /\
    gain s' = SonicUtils.clamp v 0%Q 1%Q /\ muted s' = muted s /\ state s' = state s.
Proof.
intros Hquiet.
destruct (volume_set_gain l v s Hquiet) as (s' & tr & Hv & Hg & Hm).
destruct (volume_set_quiet l Hquiet v s) as (s'' & tr' & Hv' & Hst & _).
rewrite Hv in Hv'. injection Hv' as <- _.
exists s', tr. auto.
Qed.

(** What the loop of [Music.volume] does to one entry of the library. *)
Definition entry_after (c : Q) (touched : bool) (before after : option (lib_entry Track))
  : Prop :=
match before with
| Some (Loaded p) =>
    exists s, after = Some (Loaded (mkPiece s (_fading p))) /\
      muted s = muted (shuffle p) /\ state s = state (shuffle p) /\
      gain s = (if touched then c else gain (shuffle p))
| other => after = other
end.

Lemma volume_each_run (keys : list string) (w : World Track) :
  (forall who e, listeners who e = []) ->
  exists w' tr,
    MusicVolume.volume_each listeners keys w = Ok tt w' tr /\
    _volume w' = _volume w /\ _mute w' = _mute w /\ heap w' = heap w /\
    intervals w' = intervals w /\
    forall who,
      entry_after (SonicUtils.clamp (_volume w) 0%Q 1%Q) (bool_decide (who ∈ keys))
        (lib_lookup who (_library w)) (lib_lookup who (_library w')).
Proof.
intros Hquiet. revert w. induction keys as [|k rest IH]; intros w.
- exists w, []. repeat split; try reflexivity.
  intros who. unfold entry_after.
  destruct (lib_lookup who (_library w)) as [[fresh|p]|]; try reflexivity.
  exists (shuffle p). destruct p; repeat split; reflexivity.
- cbn [MusicVolume.volume_each].
  rewrite (bind_Ok_silent _ _ w w w) by reflexivity.
  (* the entry under [k] *)
  assert (Hstep : exists w1 tr1,
    match lib_lookup k (_library w) with
    | Some (Loaded _) => on_shuffle k (volume_set (listeners k) (_volume w))
    | _ => ret tt
    end w = Ok tt w1 tr1 /\
    _volume w1 = _volume w /\ _mute w1 = _mute w /\ heap w1 = heap w /\
    intervals w1 = intervals w /\
    forall who,
      entry_after (SonicUtils.clamp (_volume w) 0%Q 1%Q) (bool_decide (who = k))
        (lib_lookup who (_library w)) (lib_lookup who (_library w1))).
  { destruct (lib_lookup k (_library w)) as [[fresh|p]|] eqn:Hk.
    1,3: exists w, []; repeat split; try reflexivity;
      intros who; unfold entry_after;
      destruct (lib_lookup who (_library w)) as [[fresh'|p']|] eqn:Hwho; try reflexivity;
      exists (shuffle p'); destruct p'; repeat split; try reflexivity;
      destruct (bool_decide (who = k)) eqn:E; [|reflexivity];
      apply bool_decide_eq_true in E; subst who; congruence.
    destruct (volume_set_keeps (listeners k) (_volume w) (shuffle p) (Hquiet k))
      as (s1 & tr1 & Hv & Hg & Hm & Hst).
    assert (Hp : piece_of w k = Some p) by (unfold piece_of; now rewrite Hk).
    rewrite (on_shuffle_run k _ w p tt s1 tr1 Hp Hv).
    eexists _, _. split; [reflexivity|]. repeat split; try reflexivity.
    intros who. unfold put_piece. cbn [_library set_library].
    rewrite lib_lookup_update. unfold entry_after.
    destruct (lib_lookup who (_library w)) as [[fresh'|p']|] eqn:Hwho.
    - destruct (String.eqb_spec who k) as [->|_]; [congruence | reflexivity].
    - destruct (String.eqb_spec who k) as [->|Hne].
      + rewrite Hk in Hwho. injection Hwho as <-.
        exists s1. rewrite bool_decide_eq_true_2 by reflexivity. auto.
      + exists (shuffle p'). rewrite bool_decide_eq_false_2 by exact Hne.
        destruct p'; repeat split; reflexivity.
    - reflexivity. }
  destruct Hstep as (w1 & tr1 & Hrun1 & Hvol1 & Hmute1 & Hheap1 & Hint1 & Hlib1).
  rewrite (bind_Ok _ _ w tt w1 tr1 Hrun1).
  destruct (IH w1) as (w' & tr & Hrun & Hvol & Hmute & Hheap & Hint & Hlib).
  rewrite Hrun. eexists _, _. split; [reflexivity|].
  split; [congruence|]. split; [congruence|]. split; [congruence|]. split; [congruence|].
  intros who. specialize (Hlib1 who). specialize (Hlib who).
  rewrite Hvol1 in Hlib. unfold entry_after in *.
  destruct (lib_lookup who (_library w)) as [[fresh|p]|] eqn:Hwho.
  + rewrite Hlib1 in Hlib. exact Hlib.
  + destruct Hlib1 as (s1 & Hl1 & Hm1 & Hst1 & Hg1). rewrite Hl1 in Hlib.
    destruct Hlib as (s & Hl & Hm & Hst & Hg). cbn [shuffle _fading] in *.
    exists s. split; [exact Hl|]. split; [congruence|]. split; [congruence|].
    rewrite Hg, Hg1.
    destruct (bool_decide (who ∈ rest)) eqn:Erest.
    * apply bool_decide_eq_true in Erest.
      rewrite bool_decide_eq_true_2 by (now right). reflexivity.
    * apply bool_decide_eq_false in Erest.
      destruct (bool_decide (who = k)) eqn:Ek.
      -- apply bool_decide_eq_true in Ek. subst who.
         rewrite bool_decide_eq_true_2 by (now left). reflexivity.
      -- apply bool_decide_eq_false in Ek.
         rewrite bool_decide_eq_false_2; [reflexivity|].
         intros Hin. apply elem_of_cons in Hin. tauto.
  + rewrite Hlib1 in Hlib. exact Hlib.
Qed.

Lemma lib_lookup_key (who : string) (lib : list (string * lib_entry Track)) (v : lib_entry Track) :
  lib_lookup who lib = Some v -> who ∈ map fst lib.
Proof.
induction lib as [|[k v0] rest IH]; simpl; [discriminate|].
destruct (String.eqb_spec k who) as [->|Hne]; intros Hl.
- now left.
- right. now apply IH.
Qed.

(** X26: [Music.volume(vol)] on a session without handlers: the master volume
    is [vol] clamped to [0, 1], which is returned; every piece that is an
    object has that gain, with its play state, mute flag and fade lock
    as before, also while it is fading; the lazy pieces stay lazy, and
    no deferred object or timer is touched. *)
Theorem volume_reaches_loaded_pieces (vol : Q) (w : World Track) :
  (forall who e, listeners who e = []) ->
  let c := SonicUtils.clamp vol 0%Q 1%Q in
  exists w' tr,
    MusicVolume.volume listeners (Some vol) w = Ok c w' tr /\
    _volume w' = c /\ heap w' = heap w /\ intervals w' = intervals w /\
    (forall who p, piece_of w who = Some p ->
       exists s, piece_of w' who = Some (mkPiece s (_fading p)) /\
         gain s = c /\ muted s = muted (shuffle p) /\ state s = state (shuffle p)) /\
    (forall who fresh, lib_lookup who (_library w) = Some (Thunk fresh) ->
       lib_lookup who (_library w') = Some (Thunk fresh)).
Proof.
intros Hquiet c. unfold MusicVolume.volume.
rewrite (bind_Ok_silent _ _ w tt (MusicVolume.set_volume c w)) by reflexivity.
set (w0 := MusicVolume.set_volume c w).
rewrite (bind_Ok_silent _ _ w0 w0 w0) by reflexivity.
destruct (volume_each_run (map fst (_library w0)) w0 Hquiet)
  as (w' & tr & Hrun & Hvol & Hmute & Hheap & Hint & Hlib).
rewrite (bind_Ok _ _ w0 tt w' tr Hrun).
rewrite (bind_Ok_silent _ _ w' w' w') by reflexivity.
cbn [ret]. rewrite Hvol. change (_volume w0) with c in *.
exists w', (tr ++ []). split; [reflexivity|].
split; [exact Hvol|]. split; [exact Hheap|]. split; [exact Hint|]. split.
- intros who p Hp. specialize (Hlib who). unfold piece_of in Hp.
  change (_library w0) with (_library w) in Hlib.
  destruct (lib_lookup who (_library w)) as [[fresh|p0]|] eqn:Hwho; try discriminate.
  injection Hp as ->. destruct Hlib as (s & Hl & Hm & Hst & Hg).
  exists s. unfold piece_of. rewrite Hl. split; [reflexivity|].
  rewrite bool_decide_eq_true_2 in Hg by (eapply lib_lookup_key; exact Hwho).
  unfold c in *. rewrite clamp_clamp in Hg. auto.
- intros who fresh Hwho. specialize (Hlib who).
  change (_library w0) with (_library w) in Hlib. rewrite Hwho in Hlib.
  exact Hlib.
Qed.

End MusicLibrary.

(** *** Examples for the library *)

Lemma volume_reaches_loaded_pieces_witness :
  let c := SonicUtils.clamp (1 # 2) 0%Q 1%Q in
  exists w' tr,
    MusicVolume.volume quiet (Some (1 # 2)) studio = Ok c w' tr /\
    _volume w' = c /\ heap w' = heap studio /\ intervals w' = intervals studio /\
    (forall who p, piece_of studio who = Some p ->
       exists s, piece_of w' who = Some (mkPiece s (_fading p)) /\
         gain s = c /\ muted s = muted (shuffle p) /\ state s = state (shuffle p)) /\
    (forall who fresh, lib_lookup who (_library studio) = Some (Thunk fresh) ->
       lib_lookup who (_library w') = Some (Thunk fresh)).
Proof.
apply (volume_reaches_loaded_pieces quiet (1 # 2) studio).
intros who e. reflexivity.
Defined.

(** A library with the piece [x] and a lazy piece [y]. *)
Definition lazy_studio : World Howl :=
mkWorld [("x"%string, Loaded (mkPiece piece_x no_lock));
         ("y"%string, Thunk (fresh_shuffle [[howl "c1"]] "loop"))]
  (Some "x"%string) (Some "x"%string) 1 playing false None [] [] 0 0.

(** [Music.volume(3)] clamps to 1 and leaves [y] lazy; [Music.load]
    then builds [y] with the master volume set before. *)
Example volume_then_load :
  let quieter := final_state (MusicVolume.volume quiet (Some (1 # 4)) lazy_studio) in
  returned (MusicVolume.volume quiet (Some 3%Q) lazy_studio) = Some 1%Q /\
  (gain <$> (shuffle <$> piece_of quieter "x")) = Some (1 # 4) /\
  piece_of quieter "y" = None /\
  returned (Music.load quiet "y" quieter) = Some true /\
  (gain <$> (shuffle <$> piece_of (final_state (Music.load quiet "y" quieter)) "y"))
  = Some (1 # 4) /\
  returned (Music.load quiet "z" quieter) = Some false.
Proof. vm_compute. repeat split. Qed.

Lemma load_builds_once_witness :
  exists b w' tr,
    Music.load quiet "y" lazy_studio = Ok b w' tr /\
    Music.load quiet "y" w' = Ok b w' [] /\
    b = bool_decide (is_Some (lib_lookup "y" (_library lazy_studio))) /\
    (forall p, piece_of lazy_studio "y" = Some p -> w' = lazy_studio) /\
    (forall fresh, lib_lookup "y" (_library lazy_studio) = Some (Thunk fresh) ->
       exists s, piece_of w' "y" = Some (mkPiece s no_lock) /\
         ((forall e, quiet "y" e = []) ->
          gain s = SonicUtils.clamp (_volume lazy_studio) 0%Q 1%Q /\
          muted s = _mute lazy_studio || muted fresh)).
Proof.
apply (load_builds_once quiet "y" lazy_studio).
reflexivity.
Defined.

(** A name that [Object.prototype] defines and the library does not
    list is not looked up as a piece. *)
Example load_of_inherited_name :
  inherited "y" = false /\ inherited "constructor" = true /\
  Music.load quiet "constructor" lazy_studio = Exn InheritedMember lazy_studio [].
Proof. vm_compute. repeat split. Qed.

(* ------------------------------------------------------------------ *)
(** * Music.js: stopping the music *)
(* ------------------------------------------------------------------ *)

Section MusicStop.
Context {Track : Type} `{TrackOps Track}.
Variable listeners : string -> event -> list (Shuffle Track -> Shuffle Track).
Variable rnd : nat -> Q.
Variable client : nat -> Shuffle Track -> Shuffle Track.
Variable default_easing : Q -> Q.

(** No piece but the one playing is active: the other objects of the
    library are stopped. *)
Definition others_idle (w : World Track) : Prop :=
forall track p, lib_lookup track (_library w) = Some (Loaded p) ->
  _nowplaying_audio w = Some track \/ state (shuffle p) = stopped.

(** The loop of [Music.stopNonPlayingTracks] passes over the piece
    playing, the stopped pieces and the lazy ones. *)
Lemma stop_each_idle (run : closure -> WM Track unit) (except keys : list string)
    (w : World Track) :
  others_idle w ->
  Music.stop_each listeners default_easing run except keys w = Ok [] w [].
Proof.
intros Hidle. induction keys as [|track rest IH]; [reflexivity|].
cbn [Music.stop_each].
rewrite (bind_Ok_silent _ _ w w w) by reflexivity.
rewrite (bind_Ok_silent _ _ w [] w).
- rewrite (bind_Ok_silent _ _ w [] w IH). reflexivity.
- destruct (lib_lookup track (_library w)) as [[fresh|p]|] eqn:Hl; try reflexivity.
  destruct (Hidle track p Hl) as [Hnow|Hstopped].
  + rewrite (bool_decide_eq_true_2 _ Hnow). reflexivity.
  + rewrite (bool_decide_eq_true_2 _ Hstopped). now rewrite orb_true_r.
Qed.



(** X28: [Music.stop()] when no piece is recorded as playing and the
    objects of the library are stopped: the call returns a deferred
    object that is already resolved and marks the music as stopped; it
    creates three deferred objects, all resolved, and touches no piece
    and no timer. *)
Theorem Music_stop_when_idle (fuel : nat) (w : World Track) :
  _nowplaying_audio w = None -> others_idle w ->
  let run := interp listeners rnd client default_easing (S fuel) in
  let settled_object := mkDeferred Resolved [] [] 0 in
  Music.stop listeners default_easing run [] w
  = Ok (S (S (length (heap w))))
      (set_heap (heap w ++ [settled_object; settled_object; settled_object])
         (set_Music_state stopped w))
      [].
Proof.
intros Hnone Hidle run settled_object.
set (d := length (heap w)).
assert (Hat0 : forall x y z : Deferred, (heap w ++ [x; y; z]) !! d = Some x).
{ intros x y z. rewrite lookup_app_r by (unfold d; lia). unfold d. now rewrite Nat.sub_diag. }
assert (Hat1 : forall x y z : Deferred, (heap w ++ [x; y; z]) !! S d = Some y).
{ intros x y z. rewrite lookup_app_r by (unfold d; lia). unfold d.
  now replace (S (length (heap w)) - length (heap w))%nat with 1%nat by lia. }
assert (Hat2 : forall x y z : Deferred, (heap w ++ [x; y; z]) !! (d + 2)%nat = Some z).
{ intros x y z. rewrite lookup_app_r by (unfold d; lia). unfold d.
  now replace (length (heap w) + 2 - length (heap w))%nat with 2%nat by lia. }
assert (Hput2 : forall x y z z' : Deferred,
          <[(d + 2)%nat := z']> (heap w ++ [x; y; z]) = heap w ++ [x; y; z']).
{ intros x y z z'. unfold d. rewrite insert_app_r_alt by lia.
  now replace (length (heap w) + 2 - length (heap w))%nat with 2%nat by lia. }
unfold Music.stop.
rewrite (bind_Ok_silent _ _ w w w) by reflexivity.
rewrite Hnone.
rewrite (bind_Ok_silent _ _ w None w) by reflexivity.
(* the other pieces *)
set (w1 := set_heap (heap w ++ [settled_object]) w).
assert (Hnon : Music.stopNonPlayingTracks listeners default_easing run [] w = Ok d w1 []).
{ unfold Music.stopNonPlayingTracks.
  rewrite (bind_Ok_silent _ _ w w w) by reflexivity.
  rewrite (bind_Ok_silent _ _ w [] w (stop_each_idle run [] _ w Hidle)).
  cbn [jq_when].
  rewrite (bind_Ok_silent _ _ w _ _ (jq_Deferred_run w)).
  rewrite (bind_Ok_silent _ _ _ tt w1); [reflexivity|].
  unfold dfd_resolve. now rewrite settle_last. }
rewrite (bind_Ok_silent _ _ w d w1 Hnon).
(* the deferred object that stands for the piece playing *)
set (w2 := set_heap (heap w ++ [settled_object; settled_object]) w).
rewrite (bind_Ok_silent _ _ w1 (S d) w2).
2:{ rewrite (bind_Ok_silent _ _ w1 _ _ (jq_Deferred_run w1)).
    rewrite (bind_Ok_silent _ _ _ tt w2).
    - cbn [ret heap set_heap w1]. rewrite length_app. cbn [length]. fold d.
      now replace (d + 1)%nat with (S d) by lia.
    - unfold dfd_resolve. rewrite settle_last by reflexivity.
      cbn [run_each done_list ret remaining]. unfold w2, w1. cbn [heap set_heap].
      now rewrite <- app_assoc. }
set (w3 := set_Music_state stopped w2).
rewrite (bind_Ok_silent _ _ w2 tt w3) by reflexivity.
(* [$.when] *)
cbn [jq_when].
rewrite (bind_Ok_silent _ _ w3 w3 w3) by reflexivity.
assert (Hlen3 : length (heap w3) = (d + 2)%nat).
{ unfold w3, w2. cbn [heap set_heap set_Music_state]. rewrite length_app. cbn [length].
  unfold d. lia. }
rewrite Hlen3.
set (base := set_Music_state stopped w).
set (w4 := set_heap (heap w ++ [settled_object; settled_object; mkDeferred Pending [] [] 2])
             base).
rewrite (bind_Ok_silent _ _ w3 tt w4).
2:{ unfold put, w4, w3, w2. cbn [heap set_heap set_Music_state].
    now rewrite <- app_assoc. }
set (w5 := set_heap (heap w ++ [settled_object; settled_object; mkDeferred Pending [] [] 1])
             base).
set (w6 := set_heap (heap w ++ [settled_object; settled_object; settled_object]) base).
assert (Hupdate1 : run (WhenUpdate (d + 2)) w4 = Ok tt w5 []).
{ unfold run, interp. cbn [Music.run_closure Music.run_closure_body].
  rewrite (bind_Ok_silent _ _ w4 w4 w4) by reflexivity.
  change (heap w4) with (heap w ++ [settled_object; settled_object;
                                    mkDeferred Pending [] [] 2]).
  rewrite Hat2. cbn [remaining pred dstatus done_list fail_list].
  rewrite Hput2.
  rewrite (bind_Ok_silent _ _ w4 tt w5) by reflexivity.
  reflexivity. }
assert (Hupdate2 : run (WhenUpdate (d + 2)) w5 = Ok tt w6 []).
{ unfold run, interp. cbn [Music.run_closure Music.run_closure_body].
  rewrite (bind_Ok_silent _ _ w5 w5 w5) by reflexivity.
  change (heap w5) with (heap w ++ [settled_object; settled_object;
                                    mkDeferred Pending [] [] 1]).
  rewrite Hat2. cbn [remaining pred dstatus done_list fail_list].
  rewrite Hput2.
  set (w5' := set_heap (heap w ++ [settled_object; settled_object;
                                   mkDeferred Pending [] [] 0]) w5).
  rewrite (bind_Ok_silent _ _ w5 tt w5') by reflexivity.
  cbn [Nat.eqb only_if]. unfold dfd_resolve.
  rewrite (settle_pending _ w5' Resolved (d + 2) (mkDeferred Pending [] [] 0)
             (Hat2 _ _ _) eq_refl).
  cbn [done_list run_each ret remaining]. unfold w5'. cbn [heap set_heap].
  rewrite Hput2. reflexivity. }
assert (Hattach : when_attach run (d + 2) [S d; d] w4 = Ok tt w6 []).
{ cbn [when_attach].
  rewrite (bind_Ok_silent _ _ w4 tt w5).
  2:{ unfold dfd_done. rewrite (bind_Ok_silent _ _ w4 w4 w4) by reflexivity.
      change (heap w4) with (heap w ++ [settled_object; settled_object;
                                        mkDeferred Pending [] [] 2]).
      rewrite Hat1. exact Hupdate1. }
  rewrite (bind_Ok_silent _ _ w5 tt w5).
  2:{ unfold dfd_fail. rewrite (bind_Ok_silent _ _ w5 w5 w5) by reflexivity.
      change (heap w5) with (heap w ++ [settled_object; settled_object;
                                        mkDeferred Pending [] [] 1]).
      now rewrite Hat1. }
  rewrite (bind_Ok_silent _ _ w5 tt w6).
  2:{ unfold dfd_done. rewrite (bind_Ok_silent _ _ w5 w5 w5) by reflexivity.
      change (heap w5) with (heap w ++ [settled_object; settled_object;
                                        mkDeferred Pending [] [] 1]).
      rewrite Hat0. exact Hupdate2. }
  rewrite (bind_Ok_silent _ _ w6 tt w6); [reflexivity|].
  unfold dfd_fail. rewrite (bind_Ok_silent _ _ w6 w6 w6) by reflexivity.
  change (heap w6) with (heap w ++ [settled_object; settled_object; settled_object]).
  now rewrite Hat0. }
rewrite (bind_Ok_silent _ _ w4 tt w6 Hattach).
cbn [ret]. unfold d. now replace (length (heap w) + 2)%nat with (S (S (length (heap w)))) by lia.
Qed.

End MusicStop.

(** *** Example: stopping the music of [lazy_studio] *)



(** The music is marked as stopped at once, while [x] still plays and
    fades; the lazy piece is not built. *)
Example Music_stop_of_lazy_studio :
  let stopping := final_state (Music.stop quiet (fun t => t) (run_quiet 2) [] lazy_studio) in
  let halfway := final_state (tick quiet (run_quiet 2) 0 1250 stopping) in
  _state stopping = stopped /\
  (state <$> (shuffle <$> piece_of stopping "x")) = Some playing /\
  ((fun p => Qred (gain (shuffle p))) <$> piece_of halfway "x") = Some (1 # 2) /\
  status_of halfway 2 = Some Pending /\
  piece_of halfway "y" = None.
Proof. vm_compute. repeat split. Qed.

(** The same session with nothing playing. *)
Definition silent_studio : World Howl :=
mkWorld [("y"%string, Thunk (fresh_shuffle [[howl "c1"]] "loop"))]
  None None 1 stopped false None [] [] 0 0.

Lemma Music_stop_when_idle_witness :
  Music.stop quiet (fun t => t) (run_quiet 1) [] silent_studio
  = Ok 2%nat
      (set_heap (heap silent_studio ++ [mkDeferred Resolved [] [] 0;
                                        mkDeferred Resolved [] [] 0;
                                        mkDeferred Resolved [] [] 0])
         (set_Music_state stopped silent_studio))
      [].
Proof.
apply (Music_stop_when_idle quiet (fun _ => 0%Q) (fun _ s => s) (fun t => t) 0 silent_studio).
- reflexivity.
- intros track p Hl. change (_library silent_studio) with
    [("y"%string, @Thunk Howl (fresh_shuffle [[howl "c1"]] "loop"))] in Hl.
  cbn [lib_lookup] in Hl. destruct (String.eqb "y" track); discriminate.
Defined.

(* ------------------------------------------------------------------ *)
(** * Music.js: two switches in a row, in any session that is heard *)
(* ------------------------------------------------------------------ *)

Section SwitchTwice.
Context {Track : Type} `{TrackOps Track}.
Local Open Scope Z_scope.
Variable rnd : nat -> Q.
Variable client : nat -> Shuffle Track -> Shuffle Track.
Variable default_easing : Q -> Q.






(** ** Steps of the monad *)




(** ** Volumes that are heard *)




(** ** Deferred objects at the end of the heap *)



Section Tail.
Variable run : closure -> WM Track unit.








End Tail.



(** ** [Music.stop] once the fade of the piece playing has started *)



(** ** The session while a switch is in flight *)





(** ** A fade that takes over from the fade in flight *)




(** ** The second request *)



(** ** The timers after the second request *)


















End SwitchTwice.

